(** * publish.py: reconciliation of a photo archive's publish directories

    A shallow embedding of [publish.py] (classes [Application], [Directory],
    [RawSourceImage], [JpegSourceImage], [Git], [DummyGit]) over a model of
    the POSIX file system as [pathlib] and [os] see it, followed by the
    properties of the reconciliation run that the specification states. *)

From Stdlib Require Import ZArith Lia Ascii String List.
From stdpp Require Import base option list strings gmap sorting.

Open Scope string_scope.
Open Scope list_scope.
Open Scope Z_scope.

(** ** Strings, as [str] is used by the program *)

Module Str.

Definition is_upper (c : ascii) : bool :=
  let n := nat_of_ascii c in (Nat.leb 65 n && Nat.leb n 90)%bool.

Definition lower_char (c : ascii) : ascii :=
  if is_upper c then ascii_of_nat (nat_of_ascii c + 32) else c.

(** [str.lower()]; the names compared against are ASCII, and no character
    outside ASCII lowers to one of their letters. *)
Fixpoint lower (s : string) : string :=
  match s with
  | EmptyString => EmptyString
  | String c s' => String (lower_char c) (lower s')
  end.

(** [str.rfind(c)]: position of the last occurrence. *)
Fixpoint rfind (c : ascii) (s : string) : option nat :=
  match s with
  | EmptyString => None
  | String a s' =>
      match rfind c s' with
      | Some i => Some (S i)
      | None => if Ascii.eqb a c then Some O else None
      end
  end.

(** [pat in s]. *)
Fixpoint contains (pat s : string) : bool :=
  (String.prefix pat s
   || match s with
      | EmptyString => false
      | String _ s' => contains pat s'
      end)%bool.

Definition is_digit (c : ascii) : bool :=
  let n := nat_of_ascii c in (Nat.leb 48 n && Nat.leb n 57)%bool.

End Str.

(** ** [pathlib.PurePosixPath] *)

(** A path is its anchor (rooted at [/] or not) and its components;
    [pathlib] keeps [..] components as they are. *)
Record Path := mkPath { is_absolute : bool; parts : list string }.

#[global] Instance Path_eq_dec : EqDecision Path.
Proof. solve_decision. Defined.

Module PurePath.

(** [p / n] for a one-component relative [n]. *)
Definition joinpath (p : Path) (n : string) : Path :=
  mkPath (is_absolute p) (parts p ++ [n]).

(** [p / q] for a path [q]: an absolute right operand replaces [p]. *)
Definition join (p q : Path) : Path :=
  if is_absolute q then q else mkPath (is_absolute p) (parts p ++ parts q).

(** [Path('..')]. *)
Definition dotdot : Path := mkPath false [".."].

Definition name (p : Path) : string := List.last (parts p) "".

Definition parent (p : Path) : Path :=
  mkPath (is_absolute p) (removelast (parts p)).

(** Position of the dot that starts the suffix: the last dot of the name,
    when it is neither the first nor the last character. *)
Definition suffix_dot (nm : string) : option nat :=
  match Str.rfind "." nm with
  | Some i => if (Nat.ltb 0 i && Nat.ltb i (String.length nm - 1))%bool
              then Some i else None
  | None => None
  end.

Definition suffix (p : Path) : string :=
  let nm := name p in
  match suffix_dot nm with
  | Some i => substring i (String.length nm - i) nm
  | None => ""
  end.

Definition stem (p : Path) : string :=
  let nm := name p in
  match suffix_dot nm with
  | Some i => substring 0 i nm
  | None => nm
  end.

(** [p.with_name(n)], for a path that has a name. *)
Definition with_name (p : Path) (n : string) : Path :=
  mkPath (is_absolute p) (removelast (parts p) ++ [n]).

(** [p.with_suffix(s)]: [ValueError] ([None]) on a path without a name. *)
Definition with_suffix (p : Path) (s : string) : option Path :=
  let nm := name p in
  if decide (nm = "") then None
  else
    let old := suffix p in
    Some (with_name p
            (if decide (old = "") then nm +:+ s
             else substring 0 (String.length nm - String.length old) nm +:+ s)).

End PurePath.

Notation "p // n" := (PurePath.joinpath p n) (at level 40, left associativity).

(** ** The file system, as the program observes it through [os] and [pathlib] *)

(** A location is the real place of an entry: its components from [/], none
    of them a symbolic link. *)
Abbreviation loc := (list string).

Inductive node :=
| File (mtime : Z)
| Dir (mtime : Z)
| Symlink (target : Path).

#[global] Instance node_eq_dec : EqDecision node.
Proof. solve_decision. Defined.

(** Python exceptions the program can meet. *)
Inductive exn :=
| FileExistsError
| FileNotFoundError
| NotADirectoryError
| IsADirectoryError
| OSError
| ValueError
| ProgramError.

#[global] Instance exn_eq_dec : EqDecision exn.
Proof. solve_decision. Defined.

(** External commands: the command line of [os.system] in
    [__create_missing_small_images], and those of [Git.execute]. *)
Inductive command :=
| ConvertResize (large : Path) (width : Z) (small : Path)
| GitLsFiles
| GitAdd (path : Path).

(** What a run leaves outside the tree: log records, standard output and
    the commands handed to other programs. *)
Inductive event :=
| LogAddingDirectory (path : Path)
| LogCreating (small large : Path)
| LogUpdating (small large : Path)
| LogError (cmd : command) (ret : Z)
| LogAddingLink (name : string) (subdir : string)
| LogReplacingLink (path link newlink : Path)
| LogAddingToGit (path : Path)
| LogAddingHardlink (source backup : Path)
| Print (path : Path)
| System (cmd : command).

#[global] Instance command_eq_dec : EqDecision command.
Proof. solve_decision. Defined.

#[global] Instance event_eq_dec : EqDecision event.
Proof. solve_decision. Defined.

Record World := mkWorld {
  cwd : loc;
  nodes : gmap loc node;
  clock : Z;
  trace : list event
}.

Definition set_nodes (w : World) (m : gmap loc node) : World :=
  mkWorld (cwd w) m (clock w) (trace w).

#[global] Instance World_eq_dec : EqDecision World.
Proof. solve_decision. Defined.

Definition with_trace (w : World) (tr : list event) : World :=
  mkWorld (cwd w) (nodes w) (clock w) tr.

Definition emit (e : event) (w : World) : World :=
  mkWorld (cwd w) (nodes w) (clock w) (trace w ++ [e]).

Module Fs.

(** Linux follows at most 40 symbolic links in one path resolution. *)
Definition MAXSYMLINKS : nat := 40.

(** Path resolution from the directory at [cur], every link followed:
    [..] goes to the parent, and a symbolic link met on the way is
    replaced by its target, which starts at [/] or at the link's own
    directory. *)
Fixpoint walk (budget : nat) (m : gmap loc node)
    : loc → list string → option loc :=
  fix go (cur : loc) (ps : list string) {struct ps} : option loc :=
    match ps with
    | [] => Some cur
    | p :: rest =>
        if decide (p = "..") then go (removelast cur) rest
        else if decide (p = ".") then go cur rest
        else
          match m !! (cur ++ [p]) with
          | None => None
          | Some (Dir _) => go (cur ++ [p]) rest
          | Some (File _) =>
              match rest with [] => Some (cur ++ [p]) | _ => None end
          | Some (Symlink t) =>
              match budget with
              | O => None
              | S b =>
                  walk b m (if is_absolute t then [] else cur)
                    (parts t ++ rest)
              end
          end
    end.

Definition start (w : World) (p : Path) : loc :=
  if is_absolute p then [] else cwd w.

Definition resolve (w : World) (p : Path) : option loc :=
  walk MAXSYMLINKS (nodes w) (start w p) (parts p).

(** The root directory is always there. *)
Definition node_at (m : gmap loc node) (l : loc) : option node :=
  match l with
  | [] => Some (Dir 0)
  | _ => m !! l
  end.

Definition special (n : string) : bool :=
  bool_decide (n = "." ∨ n = "..").

(** Where a system call that names an entry works: the location of the
    parent directory, reached with every link followed, and the last
    component. A path without components is the starting directory
    itself, which is there ([FileExistsError]). *)
Definition locate (w : World) (p : Path) : exn + (loc * string) :=
  match parts p with
  | [] => inl FileExistsError
  | _ =>
      match resolve w (PurePath.parent p) with
      | None => inl FileNotFoundError
      | Some D =>
          match node_at (nodes w) D with
          | Some (Dir _) => inr (D, PurePath.name p)
          | _ => inl NotADirectoryError
          end
      end
  end.

(** [os.stat], as far as the program reads it. *)
Definition stat (w : World) (p : Path) : option node :=
  l ← resolve w p; node_at (nodes w) l.

(** What [os.lstat] looks at: the entry under the last component, not
    followed. A path that ends in [.] or [..], or has no component, names
    a directory and no entry of one. *)
Definition entry (w : World) (p : Path) : option node :=
  match locate w p with
  | inr (D, n) => if special n then None else nodes w !! (D ++ [n])
  | inl _ => None
  end.

(** [Path.exists], [Path.is_dir], [Path.is_symlink]: errors of the
    resolution read as [False]. *)
Definition exists_ (w : World) (p : Path) : bool :=
  match stat w p with Some _ => true | None => false end.

Definition is_dir (w : World) (p : Path) : bool :=
  match stat w p with Some (Dir _) => true | _ => false end.

Definition is_symlink (w : World) (p : Path) : bool :=
  match entry w p with Some (Symlink _) => true | _ => false end.

(** [Path(os.readlink(p))]. *)
Definition readlink (w : World) (p : Path) : exn + Path :=
  match entry w p with
  | Some (Symlink t) => inr t
  | Some _ => inl OSError
  | None => if exists_ w p then inl OSError else inl FileNotFoundError
  end.

(** [p.stat().st_mtime]. *)
Definition st_mtime (w : World) (p : Path) : exn + Z :=
  match stat w p with
  | Some (File t) | Some (Dir t) => inr t
  | Some (Symlink _) => inl OSError
  | None => inl FileNotFoundError
  end.

(** The name under which [k] is an entry of the directory at [D]. *)
Fixpoint child_of (D k : loc) : option string :=
  match D, k with
  | [], [n] => Some n
  | d :: D', x :: k' => if decide (d = x) then child_of D' k' else None
  | _, _ => None
  end.

(** [os.scandir]: the entries of the directory at [D], in the order the
    system hands them out. *)
Definition scandir (m : gmap loc node) (D : loc) : list string :=
  omap (λ kv, child_of D kv.1) (map_to_list m).

(** [p.glob(pattern)] for a one-level pattern, given as a test on names:
    nothing when [p] is not a directory. *)
Definition glob (w : World) (p : Path) (pat : string → bool) : list Path :=
  if is_dir w p then
    match resolve w p with
    | Some D => (λ n, p // n) <$> filter (λ n, pat n = true) (scandir (nodes w) D)
    | None => []
    end
  else [].

(** The error of a resolution that does not arrive: [ENOENT] at a
    component that is not there, [ENOTDIR] at a component looked for
    below a regular file, [ELOOP] (a plain [OSError] in Python) at the
    link that is one more than the system follows. *)
Fixpoint fault (budget : nat) (m : gmap loc node)
    : loc → list string → exn :=
  fix go (cur : loc) (ps : list string) {struct ps} : exn :=
    match ps with
    | [] => FileNotFoundError
    | p :: rest =>
        if decide (p = "..") then go (removelast cur) rest
        else if decide (p = ".") then go cur rest
        else
          match m !! (cur ++ [p]) with
          | None => FileNotFoundError
          | Some (Dir _) => go (cur ++ [p]) rest
          | Some (File _) =>
              match rest with
              | [] => FileNotFoundError
              | _ => NotADirectoryError
              end
          | Some (Symlink t) =>
              match budget with
              | O => OSError
              | S b =>
                  fault b m (if is_absolute t then [] else cur)
                    (parts t ++ rest)
              end
          end
    end.

(** [p.iterdir()], which is [os.listdir(p)]: the error of the system
    call is raised as it comes. *)
Definition iterdir (w : World) (p : Path) : exn + list Path :=
  match stat w p with
  | Some (Dir _) =>
      match resolve w p with
      | Some D => inr ((λ n, p // n) <$> scandir (nodes w) D)
      | None => inl FileNotFoundError
      end
  | Some _ => inl NotADirectoryError
  | None => inl (fault MAXSYMLINKS (nodes w) (start w p) (parts p))
  end.

(** Making a new entry: [FileExistsError] when the name is taken, be it
    by a symbolic link that leads nowhere. *)
Definition create (x : node) (p : Path) (w : World) : exn + World :=
  match locate w p with
  | inl e => inl e
  | inr (D, n) =>
      if special n then inl FileExistsError
      else
        match nodes w !! (D ++ [n]) with
        | Some _ => inl FileExistsError
        | None => inr (set_nodes w (<[D ++ [n] := x]> (nodes w)))
        end
  end.

(** [p.mkdir()]. *)
Definition mkdir (p : Path) (w : World) : exn + World :=
  create (Dir (clock w)) p w.

(** [link.symlink_to(target)]. *)
Definition symlink_to (link target : Path) (w : World) : exn + World :=
  create (Symlink target) link w.

(** [p.unlink()]. *)
Definition unlink (p : Path) (w : World) : exn + World :=
  match locate w p with
  | inl FileExistsError => inl IsADirectoryError
  | inl e => inl e
  | inr (D, n) =>
      if special n then inl IsADirectoryError
      else
        match nodes w !! (D ++ [n]) with
        | None => inl FileNotFoundError
        | Some (Dir _) => inl IsADirectoryError
        | Some _ => inr (set_nodes w (delete (D ++ [n]) (nodes w)))
        end
  end.

(** [k] without its prefix [D]. *)
Fixpoint strip (D k : loc) : option loc :=
  match D, k with
  | [], _ => Some k
  | d :: D', x :: k' => if decide (d = x) then strip D' k' else None
  | _ :: _, [] => None
  end.

(** [p.glob('**/' + pattern)]: the entries, at any depth, of [p] and of
    the directories below it; a symbolic link to a directory is not
    entered. *)
Definition below (m : gmap loc node) (D rel : loc) : bool :=
  forallb (λ i, match m !! (D ++ take i rel) with
                | Some (Dir _) => true
                | _ => false
                end) (seq 1 (length rel - 1)).

Definition rglob (w : World) (p : Path) (pat : string → bool) : list Path :=
  if is_dir w p then
    match resolve w p with
    | Some D =>
        omap (λ kv,
                match strip D kv.1 with
                | Some rel =>
                    if (bool_decide (rel ≠ []) && below (nodes w) D rel
                        && pat (List.last rel ""))%bool
                    then Some (mkPath (is_absolute p) (parts p ++ rel))
                    else None
                | None => None
                end) (map_to_list (nodes w))
    | None => []
    end
  else [].

(** A path without links or dots below [cur]: each component the name of
    a directory. *)
Fixpoint real_from (m : gmap loc node) (cur : loc) (ps : list string)
    : bool :=
  match ps with
  | [] => true
  | p :: rest =>
      (negb (special p)
       && match m !! (cur ++ [p]) with Some (Dir _) => true | _ => false end
       && real_from m (cur ++ [p]) rest)%bool
  end.

Definition is_dir_at (m : gmap loc node) (l : loc) : bool :=
  match node_at m l with Some (Dir _) => true | _ => false end.

(** A path that is a real place: it starts in a directory and has neither
    links nor dots. *)
Definition real (w : World) (p : Path) : bool :=
  (is_dir_at (nodes w) (start w p)
   && real_from (nodes w) (start w p) (parts p))%bool.

End Fs.

#[global] Opaque Fs.MAXSYMLINKS.

(** ** Running the program: state and exceptions *)

Inductive Res (A : Type) :=
| Ok (a : A) (w : World)
| Raise (e : exn) (w : World).
Arguments Ok {A} a w.
Arguments Raise {A} e w.

(** The world a run ends in. *)
Definition final {A} (r : Res A) : World :=
  match r with Ok _ w | Raise _ w => w end.

(** The tree a run leaves when it comes to its end. *)
Definition is_Ok {A} (r : Res A) : bool :=
  match r with Ok _ _ => true | Raise _ _ => false end.

Definition tree_after {A} (r : Res A) : option (gmap loc node) :=
  match r with
  | Ok _ w => Some (nodes w)
  | Raise _ _ => None
  end.

Definition M (A : Type) : Type := World → Res A.

#[global] Instance M_ret : MRet M := λ A a w, Ok a w.
#[global] Instance M_bind : MBind M := λ A B f c w,
  match c w with
  | Ok a w' => f a w'
  | Raise e w' => Raise e w'
  end.

Definition gets {A} (f : World → A) : M A := λ w, Ok (f w) w.
Definition raise {A} (e : exn) : M A := λ w, Raise e w.
Definition tell (e : event) : M unit := λ w, Ok () (emit e w).

(** A call that answers or raises and leaves the world alone. *)
Definition ask {A} (f : World → exn + A) : M A := λ w,
  match f w with
  | inr a => Ok a w
  | inl e => Raise e w
  end.

(** A call that changes the world or raises. *)
Definition act (f : World → exn + World) : M unit := λ w,
  match f w with
  | inr w' => Ok () w'
  | inl e => Raise e w
  end.

(** [for x in l: body(x)]. *)
Fixpoint for_each {A} (l : list A) (body : A → M unit) : M unit :=
  match l with
  | [] => mret ()
  | x :: l' => body x ;; for_each l' body
  end.

Definition when (b : bool) (c : M unit) : M unit :=
  if b then c else mret ().

(** [p.unlink()] followed by [p.symlink_to(target)]. *)
Definition replace_link (p target : Path) : M unit :=
  act (Fs.unlink p);; act (Fs.symlink_to p target).

(** The worlds that keep the directories of another: same working
    directory, and a directory wherever there was one. *)
Definition keeps_dirs (w w' : World) : Prop :=
  cwd w' = cwd w
  ∧ ∀ l t, nodes w !! l = Some (Dir t) → ∃ t', nodes w' !! l = Some (Dir t').

(** ** Source images: [RawSourceImage] and [JpegSourceImage] *)

Inductive SourceImage :=
| RawSourceImage (path : Path)
| JpegSourceImage (path : Path).

Module Source.

Definition path (s : SourceImage) : Path :=
  match s with
  | RawSourceImage p | JpegSourceImage p => p
  end.

Definition with_suffix (p : Path) (s : string) : exn + Path :=
  match PurePath.with_suffix p s with
  | Some q => inr q
  | None => inl ValueError
  end.

(** [RawSourceImage.large]: the loop over [['.JPG', '.jpg']], then the
    default. *)
Fixpoint raw_large (w : World) (p : Path) (suffixes : list string)
    : exn + Path :=
  match suffixes with
  | [] => with_suffix p ".JPG"
  | s :: rest =>
      match with_suffix p s with
      | inl e => inl e
      | inr p1 => if Fs.exists_ w p1 then inr p1 else raw_large w p rest
      end
  end.

Definition processed (p : Path) (ext : string) : Path :=
  PurePath.parent p // (PurePath.stem p +:+ "_processed." +:+ ext).

(** [JpegSourceImage.large]: the loop over [extensions], then the source
    itself. *)
Fixpoint jpeg_large (w : World) (p : Path) (extensions : list string)
    : Path :=
  match extensions with
  | [] => p
  | ext :: rest =>
      let p1 := processed p ext in
      if Fs.exists_ w p1 then p1 else jpeg_large w p rest
  end.

Definition large (w : World) (s : SourceImage) : exn + Path :=
  match s with
  | RawSourceImage p => raw_large w p [".JPG"; ".jpg"]
  | JpegSourceImage p => inr (jpeg_large w p ["jpg"; "JPG"; "jpeg"; "JPEG"])
  end.

Definition small (s : SourceImage) : Path :=
  let p := path s in
  PurePath.parent p // (PurePath.stem p +:+ "_small.jpg").

End Source.

(** ** [Directory] *)

Inductive SourceType := SOURCE_RAW | SOURCE_JPEG | TARGET_JPEG | SMALL_JPEG.

Record Directory := mkDirectory {
  rootdir : Path;
  known_subdirs : list string;
  sources : list SourceImage
}.

(** [Directory.classify]; falling off the end returns [None]. *)
Definition classify (w : World) (path : Path) : option SourceType :=
  if Fs.is_symlink w path then
    let ext := Str.lower (PurePath.suffix path) in
    if bool_decide (ext ∈ [".jpg"; ".jpeg"]) then Some SOURCE_JPEG
    else if bool_decide (ext ∈ [".nef"; ".cr3"]) then Some SOURCE_RAW
    else None
  else None.

(** The glob patterns of the program, as tests on a name. *)
Definition pattern_any (n : string) : bool := true.
Definition pattern_small (n : string) : bool := Str.contains "_small" n.
Definition pattern_dotted (n : string) : bool := Str.contains "." n.

(** [Directory.__init__]: the sources among the entries of [rootdir]. *)
Definition scan_source (w : World) (path : Path) : option SourceImage :=
  if negb (Fs.is_dir w path) then
    match classify w path with
    | Some SOURCE_RAW => Some (RawSourceImage path)
    | Some SOURCE_JPEG => Some (JpegSourceImage path)
    | _ => None
    end
  else None.

Definition new_Directory (rootdir : Path) (known_subdirs : list string)
    (w : World) : Directory :=
  mkDirectory rootdir known_subdirs
    (omap (scan_source w) (Fs.glob w rootdir pattern_any)).

(** *** The views of a directory *)

(** [Directory.existing_small]. *)
Definition existing_small (d : Directory) (w : World) : list Path :=
  filter (λ small, Fs.exists_ w small = true) (Source.small <$> sources d).

(** [Directory.missing_large]. *)
Definition missing_large (d : Directory) (w : World) : exn + list Path :=
  foldr (λ s acc,
           match Source.large w s, acc with
           | inl e, _ => inl e
           | _, inl e => inl e
           | inr large, inr l =>
               inr (if Fs.exists_ w large then l else large :: l)
           end) (inr []) (sources d).

(** [Directory.missing_small], drawn to its end on one state. *)
Definition missing_small (d : Directory) (w : World)
    : exn + list (Path * Path) :=
  foldr (λ s acc,
           match Source.large w s, acc with
           | inl e, _ => inl e
           | _, inl e => inl e
           | inr large, inr l =>
               let small := Source.small s in
               inr (if (Fs.exists_ w large && negb (Fs.exists_ w small))%bool
                    then (large, small) :: l else l)
           end) (inr []) (sources d).

(** The test of [action_print_missing]: the large image of the source is
    not there. *)
Definition large_missing (w : World) (s : SourceImage) : bool :=
  match Source.large w s with
  | inr large => negb (Fs.exists_ w large)
  | inl _ => false
  end.

(** The names a service directory has under management: the body of the
    loop of [Directory.new_small_images] up to [managed_small]. *)
Definition managed_small (w : World) (subdir : Path) : gset string :=
  let direct : gset string :=
    list_to_set (PurePath.name <$> Fs.glob w subdir pattern_small) in
  let d := subdir // "published" in
  if Fs.exists_ w d
  then direct ∪ list_to_set (PurePath.name <$> Fs.glob w d pattern_small)
  else direct.

(** [all_small] of [Directory.new_small_images]. *)
Definition all_small (d : Directory) (w : World) : gset string :=
  list_to_set (PurePath.name <$> existing_small d w).

(** One round of the loop of [Directory.new_small_images]: what it yields
    for [subdir], if anything. *)
Definition new_small_images_for (d : Directory) (all : gset string)
    (subdir : string) (w : World) : option (Path * gset string) :=
  let subdir := rootdir d // subdir in
  if negb (Fs.exists_ w subdir) then None
  else
    let new := all ∖ managed_small w subdir in
    if bool_decide (new ≠ ∅) then Some (subdir, new) else None.

(** [Directory.new_small_images], drawn to its end on one state. *)
Definition new_small_images (d : Directory) (w : World)
    : list (Path * gset string) :=
  omap (λ subdir, new_small_images_for d (all_small d w) subdir w)
       (known_subdirs d).

(** [Directory.missing_subdirs], drawn to its end on one state. *)
Definition missing_subdirs (d : Directory) (w : World) : list Path :=
  flat_map (λ subdir,
              let path := rootdir d // subdir in
              let pub := path // "published" in
              (if Fs.exists_ w path then [] else [path])
              ++ (if Fs.exists_ w pub then [] else [pub]))
           (known_subdirs d).

(** [Directory.published_small], drawn to its end on one state. *)
Definition published_small (d : Directory) (w : World) : list Path :=
  flat_map (λ subdir,
              let dir := rootdir d // subdir // "published" in
              if Fs.exists_ w dir then Fs.glob w dir pattern_small else [])
           (known_subdirs d).

(** ** The actions of a directory *)

(** [Git] with its cache of tracked files ([None] until first asked), and
    [DummyGit]. *)
Inductive GitObj :=
| DummyGit
| Git (files : option (list Path)).

Inductive Action := CREATE | UPDATE.

Section Program.

(** The programs the run hands work to: [convert] behind [os.system],
    answering with its exit status and acting on the tree and the clock,
    and [git] behind [subprocess.run], answering with its output lines
    or failing; what [git] keeps of its own is not part of the tree. *)
Variable os_system : command → World → World * Z.
Variable subprocess_run : command → World → option (list Path).

Definition outside (w w' : World) (e : event) : World :=
  mkWorld (cwd w) (nodes w') (clock w') (trace w ++ [e]).

Definition system (cmd : command) : M Z := λ w,
  let '(w', ret) := os_system cmd w in Ok ret (outside w w' (System cmd)).

(** [Git.execute]. *)
Definition execute (cmd : command) : M (list Path) := λ w,
  match subprocess_run cmd w with
  | Some lines => Ok lines (emit (System cmd) w)
  | None => Raise ProgramError (emit (System cmd) w)
  end.

(** [git.add_file(path)], returning the object with its cache. *)
Definition add_file (git : GitObj) (path : Path) : M GitObj :=
  match git with
  | DummyGit => mret DummyGit
  | Git cache =>
      files ← match cache with
              | Some files => mret files
              | None => execute GitLsFiles
              end;
      if bool_decide (path ∈ files) then mret (Git (Some files))
      else
        tell (LogAddingToGit path);;
        execute (GitAdd path);;
        mret (Git (Some files))
  end.

(** [Directory.__add_missing_subdirs], with the generator
    [missing_subdirs] it draws from: the generator runs on between two
    rounds of the loop, so each of its tests sees the directories made
    before it. *)
Definition add_missing_subdir (d : Directory) (subdir : string) : M unit :=
  let path := rootdir d // subdir in
  e ← gets (λ w, Fs.exists_ w path);
  when (negb e) (tell (LogAddingDirectory path);; act (Fs.mkdir path));;
  let path := path // "published" in
  e ← gets (λ w, Fs.exists_ w path);
  when (negb e) (tell (LogAddingDirectory path);; act (Fs.mkdir path)).

Definition add_missing_subdirs (d : Directory) : M unit :=
  for_each (known_subdirs d) (add_missing_subdir d).

(** The choice made for one source in
    [Directory.__create_missing_small_images]. *)
Definition small_image_action (w : World) (large small : Path)
    : exn + option Action :=
  if Fs.exists_ w small then
    match Fs.st_mtime w small, Fs.st_mtime w large with
    | inl e, _ => inl e
    | _, inl e => inl e
    | inr ts, inr tl => inr (if ts <? tl then Some UPDATE else None)
    end
  else inr (Some CREATE).

Definition SMALL_JPEG_WIDTH : Z := 1024.

(** The record logged for an action: [Creating] or [Updating]. *)
Definition log_action (a : Action) (small large : Path) : event :=
  match a with
  | CREATE => LogCreating small large
  | UPDATE => LogUpdating small large
  end.

Definition create_missing_small_image (source : SourceImage) : M unit :=
  large ← ask (λ w, Source.large w source);
  let small := Source.small source in
  e ← gets (λ w, Fs.exists_ w large);
  if negb e then mret ()
  else
    action ← ask (λ w, small_image_action w large small);
    match action with
    | None => mret ()
    | Some a =>
        tell (log_action a small large);;
        let cmd := ConvertResize large SMALL_JPEG_WIDTH small in
        ret ← system cmd;
        when (negb (ret =? 0)) (tell (LogError cmd ret))
    end.

Definition create_missing_small_images (d : Directory) : M unit :=
  for_each (sources d) create_missing_small_image.

(** [Directory.__add_new_small_files], with the generator
    [new_small_images] it draws from: [all_small] is taken when the loop
    starts, and the names a service manages are read when its round
    comes. *)
Definition add_new_small_file (subdir : Path) (name : string) : M unit :=
  tell (LogAddingLink name (PurePath.name subdir));;
  let link := subdir // name in
  let target := PurePath.dotdot // name in
  act (Fs.symlink_to link target).

Definition add_new_small_files_for (d : Directory) (all : gset string)
    (subdir : string) : M unit :=
  yielded ← gets (new_small_images_for d all subdir);
  match yielded with
  | None => mret ()
  | Some (subdir, names) =>
      for_each (elements names) (add_new_small_file subdir)
  end.

Definition add_new_small_files (d : Directory) : M unit :=
  all ← gets (all_small d);
  for_each (known_subdirs d) (add_new_small_files_for d all).

(** [Directory.__fixup_source_photos_links]. *)
Definition fixup_source_photos_link (source : SourceImage) : M unit :=
  let path := Source.path source in
  link ← ask (λ w, Fs.readlink w path);
  if negb (is_absolute link) then mret ()
  else
    let newlink := PurePath.dotdot // PurePath.name path in
    tell (LogReplacingLink path link newlink);;
    act (Fs.unlink path);;
    act (Fs.symlink_to path newlink).

Definition fixup_source_photos_links (d : Directory) : M unit :=
  for_each (sources d) fixup_source_photos_link.

(** [Directory.__fixup_published_links], with the generator
    [published_small] it draws from: a service's [published] directory is
    listed when its round comes. *)
Definition fixup_published_link (path : Path) : M unit :=
  link ← ask (λ w, Fs.readlink w path);
  e ← gets (λ w, Fs.exists_ w (PurePath.join (PurePath.parent path) link));
  if (e : bool) then mret ()
  else
    let newlink := PurePath.dotdot // ".." // PurePath.name path in
    tell (LogReplacingLink path link newlink);;
    act (Fs.unlink path);;
    act (Fs.symlink_to path newlink).

Definition fixup_published_links_for (d : Directory) (subdir : string)
    : M unit :=
  let dir := rootdir d // subdir // "published" in
  e ← gets (λ w, Fs.exists_ w dir);
  if negb e then mret ()
  else
    paths ← gets (λ w, Fs.glob w dir pattern_small);
    for_each paths fixup_published_link.

Definition fixup_published_links (d : Directory) : M unit :=
  for_each (known_subdirs d) (fixup_published_links_for d).

(** [Directory.__add_files_to_repository]. *)
Fixpoint add_files (git : GitObj) (paths : list Path) : M GitObj :=
  match paths with
  | [] => mret git
  | path :: rest =>
      l ← gets (λ w, Fs.is_symlink w path);
      git ← (if (l : bool) then add_file git path else mret git);
      add_files git rest
  end.

Definition add_files_to_repository (d : Directory) (git : GitObj)
    : M GitObj :=
  paths ← gets (λ w, Fs.rglob w (rootdir d) pattern_dotted);
  add_files git paths.

(** [Directory.action_fixup]. *)
Definition action_fixup (d : Directory) (git : GitObj) : M GitObj :=
  add_missing_subdirs d;;
  create_missing_small_images d;;
  add_new_small_files d;;
  fixup_source_photos_links d;;
  fixup_published_links d;;
  add_files_to_repository d git.

(** [Directory.action_not_published]. *)
Definition action_not_published (d : Directory) (service : string)
    : M unit :=
  let dir := rootdir d // service in
  e ← gets (λ w, Fs.exists_ w dir);
  if negb e then mret ()
  else
    paths ← gets (λ w, Fs.glob w dir pattern_any);
    for_each paths (λ path,
      l ← gets (λ w, Fs.is_symlink w path);
      when l (tell (Print path))).

(** [Directory.action_print_missing]. *)
Definition action_print_missing (d : Directory) : M unit :=
  for_each (sources d) (λ source,
    large ← ask (λ w, Source.large w source);
    e ← gets (λ w, Fs.exists_ w large);
    when (negb e) (tell (Print (Source.path source)))).

(** [Application.action_fixup] for one working directory: the snapshot is
    taken, then the fixup runs. *)
Definition fixup_workdir (workdir : Path) (services : list string)
    (git : GitObj) : M GitObj :=
  d ← gets (new_Directory workdir services);
  action_fixup d git.

End Program.

(** *** The backup *)

(** What [link] finds under its first path, the last component not
    followed: a directory ([None]), which cannot be linked, or an entry
    of another kind. *)
Definition link_source (w : World) (src : Path) : exn + option node :=
  match Fs.locate w src with
  | inl FileExistsError => inr None
  | inl e => inl e
  | inr (D, n) =>
      if Fs.special n then inr None
      else
        match nodes w !! (D ++ [n]) with
        | None => inl FileNotFoundError
        | Some (Dir _) => inr None
        | Some x => inr (Some x)
        end
  end.

(** [src.link_to(dst)], that is [os.link(src, dst)], which on Linux is
    [link(2)]: it does not follow a symbolic link at [src], and makes
    [dst] a second entry for what [src] names. The first path is looked
    up first, then the place of the second, and a directory is refused
    last ([PermissionError], an [OSError]). A symbolic link never
    changes, so its second entry is the link with the same target;
    that two entries of a regular file are one file is not modelled,
    and the program links symbolic links only. *)
Definition link_to (src dst : Path) (w : World) : exn + World :=
  match link_source w src with
  | inl e => inl e
  | inr old =>
      match Fs.locate w dst with
      | inl e => inl e
      | inr (D, n) =>
          if Fs.special n then inl FileExistsError
          else
            match nodes w !! (D ++ [n]) with
            | Some _ => inl FileExistsError
            | None =>
                match old with
                | None => inl OSError
                | Some x => inr (set_nodes w (<[D ++ [n] := x]> (nodes w)))
                end
            end
      end
  end.

(** One round of the loop of [Directory.action_backup_source_photos]. *)
Definition backup_source_photo (bakdir : Path) (source : SourceImage)
    : M unit :=
  let backup := bakdir // PurePath.name (Source.path source) in
  e ← gets (λ w, Fs.exists_ w backup);
  if (e : bool) then mret ()
  else
    tell (LogAddingHardlink (Source.path source) backup);;
    act (link_to (Source.path source) backup).

(** [Directory.action_backup_source_photos]. *)
Definition action_backup_source_photos (d : Directory) : M unit :=
  let bakdir := rootdir d // ".backup" in
  e ← gets (λ w, Fs.exists_ w bakdir);
  when (negb e) (tell (LogAddingDirectory bakdir);; act (Fs.mkdir bakdir));;
  for_each (sources d) (backup_source_photo bakdir).

(** What the loop of [__fixup_source_photos_links] leaves at a location: a link with an absolute target,
    at the place of one of the sources, has become [../<name>]; everything
    else is as it was. *)
Definition repaired_node (locs : list loc) (l : loc) (x : option node)
    : option node :=
  match x with
  | Some (Symlink t) =>
      if (is_absolute t && bool_decide (l ∈ locs))%bool
      then Some (Symlink (PurePath.dotdot // List.last l ""))
      else x
  | _ => x
  end.

(** [n] is the name of an entry of the directory that [p] leads to. *)
Definition has_entry (w : World) (p : Path) (n : string) : Prop :=
  ∃ D, Fs.is_dir w p = true ∧ Fs.resolve w p = Some D
       ∧ is_Some (nodes w !! (D ++ [n])).

(** The links of one round of [__add_new_small_files]: new entries of the directory, one for each
    name. *)
Definition with_links (D : loc) (names : list string) (m : gmap loc node)
    (l : loc) : option node :=
  if bool_decide (l ∈ (λ n, D ++ [n]) <$> names)
  then Some (Symlink (PurePath.dotdot // List.last l ""))
  else m !! l.

(** What one round of the distribution does, from [w] on. *)
Definition round_outcome (d : Directory) (all : gset string) (subdir : string)
    (w : World) (r : Res unit) : Prop :=
  let sd := rootdir d // subdir in
  match r with
  | Ok _ w' =>
      cwd w' = cwd w ∧ clock w' = clock w ∧ nodes w ⊆ nodes w'
      ∧ ∀ l, nodes w !! l = None → is_Some (nodes w' !! l) →
             ∃ D n, Fs.resolve w sd = Some D ∧ l = D ++ [n]
                    ∧ nodes w' !! l = Some (Symlink (PurePath.dotdot // n))
                    ∧ n ∈ all ∧ n ∉ managed_small w sd
  | Raise e w' =>
      e = NotADirectoryError ∧ Fs.exists_ w sd = true ∧ Fs.is_dir w sd = false
      ∧ nodes w' = nodes w
  end.

(** What the whole distribution step does, from [w] on. *)
Definition distribution_outcome (d : Directory) (w : World) (r : Res unit)
    : Prop :=
  match r with
  | Ok _ w' =>
      cwd w' = cwd w ∧ clock w' = clock w ∧ nodes w ⊆ nodes w'
      ∧ ∀ l, nodes w !! l = None → is_Some (nodes w' !! l) →
             ∃ subdir D n,
               subdir ∈ known_subdirs d
               ∧ Fs.resolve w' (rootdir d // subdir) = Some D ∧ l = D ++ [n]
               ∧ nodes w' !! l = Some (Symlink (PurePath.dotdot // n))
               ∧ n ∈ all_small d w
               ∧ n ∉ managed_small w (rootdir d // subdir)
  | Raise e w' => e = NotADirectoryError
  end.

(** *** The postconditions of the steps *)

(** Step 1: every service has its directory and its [published] child. *)
Definition subdirs_there (d : Directory) (w : World) : bool :=
  forallb (λ subdir,
             Fs.exists_ w (rootdir d // subdir)
             && Fs.exists_ w (rootdir d // subdir // "published"))
          (known_subdirs d).

(** Step 2: a source whose large image exists has a preview that is not
    older. *)
Definition preview_fresh (w : World) (s : SourceImage) : bool :=
  match Source.large w s with
  | inl _ => false
  | inr large =>
      if Fs.exists_ w large then
        Fs.exists_ w (Source.small s)
        && match Fs.st_mtime w (Source.small s), Fs.st_mtime w large with
           | inr ts, inr tl => tl <=? ts
           | _, _ => false
           end
      else true
  end.

(** Step 3: every service manages the names of all existing previews. *)
Definition previews_distributed (d : Directory) (w : World) : bool :=
  forallb (λ subdir,
             bool_decide (all_small d w ⊆ managed_small w (rootdir d // subdir)))
          (known_subdirs d).

(** Step 4: a link with a relative target. *)
Definition link_relative (w : World) (p : Path) : bool :=
  match Fs.readlink w p with
  | inr link => negb (is_absolute link)
  | inl _ => false
  end.

(** Step 5: a link whose target, read from the link's directory, exists. *)
Definition link_resolves (w : World) (p : Path) : bool :=
  match Fs.readlink w p with
  | inr link => Fs.exists_ w (PurePath.join (PurePath.parent p) link)
  | inl _ => false
  end.

(** A directory on which every step finds its postcondition. *)
Definition settled (d : Directory) (w : World) : bool :=
  subdirs_there d w
  && forallb (preview_fresh w) (sources d)
  && previews_distributed d w
  && forallb (λ s, link_relative w (Source.path s)) (sources d)
  && forallb (link_resolves w) (published_small d w).

(** *** What a run does to the links *)

(** From [w] to [w']: the directories stay, a symbolic link stays a
    symbolic link, with its target or with a relative one, and every
    symbolic link that is new or has a new target is [../<name>] or
    [../../<name>] for its own name. *)
Definition link_step (w w' : World) : Prop :=
  cwd w' = cwd w
  ∧ (∀ l t, nodes w !! l = Some (Dir t) → ∃ t', nodes w' !! l = Some (Dir t'))
  ∧ (∀ l t, nodes w !! l = Some (Symlink t) →
            ∃ t', nodes w' !! l = Some (Symlink t')
                  ∧ (t' = t ∨ is_absolute t' = false))
  ∧ (∀ l t', nodes w' !! l = Some (Symlink t') →
             nodes w !! l = Some (Symlink t')
             ∨ t' = PurePath.dotdot // List.last l ""
             ∨ t' = PurePath.dotdot // ".." // List.last l "").

(** A converter that writes regular files only: it keeps the directories,
    and neither makes, changes nor removes a symbolic link. *)
Definition writes_files_only (os_system : command → World → World * Z) : Prop :=
  ∀ cmd w,
    (∀ l t, nodes w !! l = Some (Dir t) →
            ∃ t', nodes (os_system cmd w).1 !! l = Some (Dir t'))
    ∧ (∀ l t, nodes w !! l = Some (Symlink t)
              ↔ nodes (os_system cmd w).1 !! l = Some (Symlink t)).

(** From [w] to [w']: the directories stay, and the symbolic links are
    the same ones, each with its target. *)
Definition same_links (w w' : World) : Prop :=
  cwd w' = cwd w
  ∧ (∀ l t, nodes w !! l = Some (Dir t) → ∃ t', nodes w' !! l = Some (Dir t'))
  ∧ (∀ l t, nodes w !! l = Some (Symlink t) ↔ nodes w' !! l = Some (Symlink t)).

(** A place where there is a directory or nothing. *)
Definition plain_at (w : World) (l : loc) : bool :=
  match nodes w !! l with
  | None | Some (Dir _) => true
  | Some _ => false
  end.

(** Services whose directories are directories proper: no service is
    called [.] or [..], and neither the entry of a service in the working
    directory nor its [published] child is a link or a file. *)
Definition plain_services (w : World) (root : Path) (subs : list string)
    : bool :=
  let D := Fs.start w root ++ parts root in
  forallb (λ subdir,
             negb (Fs.special subdir)
             && plain_at w (D ++ [subdir])
             && plain_at w (D ++ [subdir; "published"]))
          subs.

(** *** Trees *)

(** A tree in which every entry lies in a directory: the place above it
    is the root or holds a directory. *)
Definition well_formed (w : World) : bool :=
  forallb (λ kv : loc * node,
             match kv.1 with
             | [] => false
             | _ =>
                 match removelast kv.1 with
                 | [] => true
                 | D => match nodes w !! D with
                        | Some (Dir _) => true
                        | _ => false
                        end
                 end
             end) (map_to_list (nodes w)).

(** *** What a run adds to the tree *)

(** From [w] to [w']: everything that was there is there unchanged, and
    what is new is a directory. *)
Definition dirs_added (w w' : World) : Prop :=
  cwd w' = cwd w ∧ nodes w ⊆ nodes w'
  ∧ ∀ l x, nodes w !! l = None → nodes w' !! l = Some x → ∃ t, x = Dir t.

(** The [git] commands among the events of a run, in their order. *)
Definition git_commands (evs : list event) : list command :=
  omap (λ e, match e with
             | System GitLsFiles => Some GitLsFiles
             | System (GitAdd p) => Some (GitAdd p)
             | _ => None
             end) evs.

(** How a [git] object that started as [git] can look after the
    commands [cmds]: [DummyGit] has run nothing; a [Git] with its
    listing has kept it and has not listed again; a [Git] without one
    has either run nothing, or listed first and never again. *)
Definition git_use (git g : GitObj) (cmds : list command) : Prop :=
  match git with
  | DummyGit => g = DummyGit ∧ cmds = []
  | Git (Some files) => g = Git (Some files) ∧ GitLsFiles ∉ cmds
  | Git None =>
      g = Git None ∧ cmds = []
      ∨ ∃ files adds, g = Git (Some files) ∧ cmds = GitLsFiles :: adds
                      ∧ GitLsFiles ∉ adds
  end.

(** From [w] to [w']: the record has grown, by no [git] command. *)
Definition no_git (w w' : World) : Prop :=
  ∃ evs, trace w' = trace w ++ evs ∧ git_commands evs = [].

(** *** What a run never does *)

(** Two nodes of the same kind: regular files, directories, or symbolic
    links. *)
Definition same_kind (x y : node) : Prop :=
  match x, y with
  | File _, File _ | Dir _, Dir _ | Symlink _, Symlink _ => True
  | _, _ => False
  end.

(** From [w] to [w']: every entry is still there, and is of the kind it
    was. *)
Definition keeps_entries (w w' : World) : Prop :=
  ∀ l x, nodes w !! l = Some x → ∃ y, nodes w' !! l = Some y ∧ same_kind x y.

(** A converter that removes nothing and turns nothing into something
    else. *)
Definition keeps_kinds (os_system : command → World → World * Z) : Prop :=
  ∀ cmd w, keeps_entries w (os_system cmd w).1.

(** From [w] to [w']: everything that was there is there unchanged, and
    what is new is a directory or a second entry for something, not a
    directory, that was there. *)
Definition only_adds (w w' : World) : Prop :=
  nodes w ⊆ nodes w'
  ∧ ∀ l x, nodes w !! l = None → nodes w' !! l = Some x →
           (∃ t, x = Dir t)
           ∨ (∀ t, x ≠ Dir t) ∧ ∃ l0, nodes w !! l0 = Some x.

(** *** Names within the limits of the system *)

(** Linux takes a name of at most 255 bytes and a path of fewer than
    4096. Beyond them a system call fails with [ENAMETOOLONG], which
    [Path.exists] and [Path.is_dir] do not swallow; the model of the
    file system leaves that error out, so what is said of an action
    that asks for names of its own making is said of states in which
    those names are within the limits. *)
Definition NAME_MAX : nat := 255.
Definition PATH_MAX : nat := 4096.

(** No less than the length of the path written out. *)
Definition path_length (p : Path) : nat :=
  foldr (λ n k, (String.length n + 1 + k)%nat)
        (if is_absolute p then 1%nat else 0%nat) (parts p).

(** The program lengthens a name by at most 11 bytes ([x.jpg] to
    [x_processed.jpeg]) and a path by at most a month, a date, a
    letter, [publish], a service, [published] and a name. *)
Definition short_name (n : string) : bool :=
  (String.length n + 15 <=? NAME_MAX)%nat.

Definition short_path (p : Path) : bool :=
  forallb short_name (parts p) && (path_length p + 600 <? PATH_MAX)%nat.

Definition short_entry (l : loc) (n : node) : bool :=
  forallb short_name l
  && match n with
     | Symlink t => short_path t
     | _ => true
     end.

(** Every name in the tree and every target of a link leaves that room. *)
Definition short_names (w : World) : bool :=
  bool_decide (map_Forall (λ l n, short_entry l n = true) (nodes w)).

Definition within_limits (d : Directory) (w : World) : bool :=
  short_names w && short_path (rootdir d)
  && forallb short_name (known_subdirs d)
  && forallb (λ s, short_path (Source.path s)) (sources d).

(** *** Actions that only read *)

(** Two states with the same tree. *)
Definition same_tree (w w' : World) : Prop :=
  nodes w' = nodes w ∧ cwd w' = cwd w.

(** What [action_print_missing] prints for the working directory
    [workdir]: the sources of its snapshot whose large image is not
    there. *)
Definition missing_of (w : World) (services : list string) (workdir : Path)
    : list Path :=
  Source.path
    <$> filter (λ s, large_missing w s = true)
               (sources (new_Directory workdir services w)).

(** What [action_not_published] prints for the working directory
    [workdir]: the symbolic links among the entries of the service's
    directory. *)
Definition not_published_of (w : World) (service : string) (workdir : Path)
    : list Path :=
  if Fs.exists_ w (workdir // service)
  then filter (λ p, Fs.is_symlink w p = true)
              (Fs.glob w (workdir // service) pattern_any)
  else [].

(** *** What a run tells [git] *)

(** The record of [git add] for each of [paths]: the log line, then the
    command. *)
Definition git_add_events (paths : list Path) : list event :=
  flat_map (λ p, [LogAddingToGit p; System (GitAdd p)]) paths.

(** The paths [__add_files_to_repository] wants added: the symbolic links
    with a dotted name below the root that the listing does not have. *)
Definition untracked_links (w : World) (root : Path) (files : list Path)
    : list Path :=
  filter (λ p, Fs.is_symlink w p = true ∧ p ∉ files)
         (Fs.rglob w root pattern_dotted).

(** ** [Application]: finding the working directories *)

(** The order of [sorted] on paths: [pathlib] compares the lists of
    components, and [str] compares character by character. *)
Module PathOrder.

Fixpoint lex_cmp {A} (cmp : A → A → comparison) (l1 l2 : list A)
    : comparison :=
  match l1, l2 with
  | [], [] => Eq
  | [], _ :: _ => Lt
  | _ :: _, [] => Gt
  | x :: l1', y :: l2' =>
      match cmp x y with
      | Eq => lex_cmp cmp l1' l2'
      | c => c
      end
  end.

Definition str_cmp (s t : string) : comparison :=
  lex_cmp Ascii.compare (list_ascii_of_string s) (list_ascii_of_string t).

(** The compared components: an absolute path starts with the component
    [/]. *)
Definition cparts (p : Path) : list string :=
  (if is_absolute p then ["/"] else []) ++ parts p.

Definition path_cmp (p q : Path) : comparison :=
  lex_cmp str_cmp (cparts p) (cparts q).

Definition path_le (p q : Path) : Prop := path_cmp p q ≠ Gt.

#[global] Instance path_le_dec p q : Decision (path_le p q).
Proof. unfold path_le. apply _. Defined.

End PathOrder.

Module Application.

Definition months : list string :=
  ["01"; "02"; "03"; "04"; "05"; "06"; "07"; "08"; "09"; "10"; "11"; "12"].

Definition letters : list string :=
  ["a"; "b"; "c"; "d"; "e"; "f"; "g"; "h"].

(** Matching a run of character classes at the start of a string; what
    follows the match is returned. *)
Fixpoint match_classes (cs : list (ascii → bool)) (s : string)
    : option string :=
  match cs, s with
  | [], _ => Some s
  | c :: cs', String a s' => if c a then match_classes cs' s' else None
  | _ :: _, EmptyString => None
  end.

Definition dash (c : ascii) : bool := Ascii.eqb c "-".

Definition newline : string := String "010" EmptyString.

(** [re.match("^[0-9]{4}-[0-9]{2}-[0-9]{2}$", name)]: in Python [$]
    matches at the end of the string and also just before a newline that
    ends it. *)
Definition date_match (name : string) : bool :=
  match match_classes
          [Str.is_digit; Str.is_digit; Str.is_digit; Str.is_digit; dash;
           Str.is_digit; Str.is_digit; dash; Str.is_digit; Str.is_digit]
          name with
  | Some rest => bool_decide (rest = "" ∨ rest = newline)
  | None => false
  end.

(** The first loop of [all_workdirs]: the month directories that exist,
    or else the path itself. *)
Definition month_workdirs (w : World) (path : Path) : list Path :=
  let workdirs :=
    filter (λ p, Fs.exists_ w p = true) ((λ month, path // month) <$> months) in
  match workdirs with
  | [] => [path]
  | _ => workdirs
  end.

(** The inner generator [roots], drawn to its end: [iterdir] raises on
    what is not a directory. *)
Fixpoint roots (w : World) (workdirs : list Path) : exn + list Path :=
  match workdirs with
  | [] => inr []
  | workdir :: rest =>
      match Fs.iterdir w workdir with
      | inl e => inl e
      | inr entries =>
          match roots w rest with
          | inl e => inl e
          | inr more =>
              inr (filter (λ p, date_match (PurePath.name p) = true) entries
                   ++ more)
          end
      end
  end.

(** The loop over the letters for one root, with its flag [subdirs]. *)
Fixpoint letter_roots (w : World) (path : Path) (ls : list string)
    (subdirs : bool) : list Path :=
  match ls with
  | [] => if subdirs then [] else [path]
  | letter :: rest =>
      let p := path // letter in
      if Fs.exists_ w p then p :: letter_roots w path rest true
      else letter_roots w path rest subdirs
  end.

(** [Application.all_workdirs], drawn to its end on one state. *)
Definition all_workdirs (w : World) (path : Path) : exn + list Path :=
  match roots w (month_workdirs w path) with
  | inl e => inl e
  | inr rs =>
      inr (flat_map (λ r, letter_roots w r letters false)
             (merge_sort PathOrder.path_le rs))
  end.

(** [Application.workdirs], drawn to its end on one state. *)
Fixpoint publish_dirs (w : World) (ps : list Path) : list Path :=
  match ps with
  | [] => []
  | p :: rest =>
      let path := p // "publish" in
      if Fs.exists_ w path then path :: publish_dirs w rest
      else publish_dirs w rest
  end.

Definition workdirs (w : World) (path : Path) : exn + list Path :=
  match all_workdirs w path with
  | inl e => inl e
  | inr ps => inr (publish_dirs w ps)
  end.

(** A name of the form YYYY-MM-DD, as the specification words it: four
    digits, a hyphen, two digits, a hyphen, two digits, and nothing else. *)
Definition date_name (name : string) : bool :=
  match list_ascii_of_string name with
  | [y1; y2; y3; y4; h1; m1; m2; h2; d1; d2] =>
      (Str.is_digit y1 && Str.is_digit y2 && Str.is_digit y3 && Str.is_digit y4
       && dash h1 && Str.is_digit m1 && Str.is_digit m2
       && dash h2 && Str.is_digit d1 && Str.is_digit d2)%bool
  | _ => false
  end.

End Application.

(** ** [Application]: the actions over all working directories *)

(** [for workdir in self.workdirs: ...]. The generators [workdirs] and
    [all_workdirs] run on between two rounds of the loop: the month
    directories and the sorted roots are found when the first working
    directory is asked for, and each test [exists], of a letter part or of
    a [publish] directory, sees what the rounds before it have done. The
    loop hands on a value from round to round, as the actions hand on
    the [git] object. *)
Definition visit {S} (p : Path) (body : Path → S → M S) (s : S) : M S :=
  let path := p // "publish" in
  e ← gets (λ w, Fs.exists_ w path);
  if (e : bool) then body path s else mret s.

Fixpoint for_letters {S} (path : Path) (ls : list string) (subdirs : bool)
    (body : Path → S → M S) (s : S) : M (bool * S) :=
  match ls with
  | [] => mret (subdirs, s)
  | letter :: rest =>
      let p := path // letter in
      e ← gets (λ w, Fs.exists_ w p);
      if (e : bool) then
        s ← visit p body s;
        for_letters path rest true body s
      else for_letters path rest subdirs body s
  end.

Fixpoint for_roots {S} (rs : list Path) (body : Path → S → M S) (s : S)
    : M S :=
  match rs with
  | [] => mret s
  | path :: rest =>
      r ← for_letters path Application.letters false body s;
      s ← (if (r.1 : bool) then mret r.2 else visit path body r.2);
      for_roots rest body s
  end.

Definition for_workdirs {S} (path : Path) (body : Path → S → M S) (s : S)
    : M S :=
  rs ← ask (λ w, Application.roots w (Application.month_workdirs w path));
  for_roots (merge_sort PathOrder.path_le rs) body s.

(** The same loop over a list that is all there at the start. *)
Fixpoint fold_each {A S} (l : list A) (body : A → S → M S) (s : S) : M S :=
  match l with
  | [] => mret s
  | x :: l' => s ← body x s; fold_each l' body s
  end.

(** A loop body that leaves the tree as it is, whether it returns or
    raises. *)
Definition reads_only {S} (body : Path → S → M S) : Prop :=
  ∀ p s w, same_tree w (final (body p s w)).

Section Run.

Variable os_system : command → World → World * Z.
Variable subprocess_run : command → World → option (list Path).

(** [Application.action_fixup]: one [git] object serves every working
    directory. *)
Definition Application_action_fixup (path : Path) (services : list string)
    (git : GitObj) : M GitObj :=
  for_workdirs path
    (λ workdir git, fixup_workdir os_system subprocess_run workdir services git)
    git.

(** [Application.action_print_missing]. *)
Definition Application_action_print_missing (path : Path)
    (services : list string) : M unit :=
  for_workdirs path
    (λ workdir _, d ← gets (new_Directory workdir services);
                  action_print_missing d) ().

(** [Application.action_backup_source_photos]. *)
Definition Application_action_backup_source_photos (path : Path)
    (services : list string) : M unit :=
  for_workdirs path
    (λ workdir _, d ← gets (new_Directory workdir services);
                  action_backup_source_photos d) ().

(** [Application.action_not_published]. *)
Definition Application_action_not_published (path : Path)
    (services : list string) (service : string) : M unit :=
  for_workdirs path
    (λ workdir _, d ← gets (new_Directory workdir services);
                  action_not_published d service) ().

(** [Application.run]: the action named on the command line, or else
    the listing for the service of that name. *)
Definition Application_run (action : string) (path : Path)
    (services : list string) (git : GitObj) : M GitObj :=
  if decide (action = "fixup") then
    Application_action_fixup path services git
  else if decide (action = "missing") then
    Application_action_print_missing path services;; mret git
  else if decide (action = "backup") then
    Application_action_backup_source_photos path services;; mret git
  else
    Application_action_not_published path services action;; mret git.

End Run.

(** ** Sample archives *)

Module Examples.

Definition date_dir : loc := ["arch"; "2022-01-01"].
Definition publish : loc := date_dir ++ ["publish"].
Definition workdir : Path := mkPath true publish.

Definition up1 (n : string) : Path := mkPath false [".."; n].
Definition up2 (n : string) : Path := mkPath false [".."; ".."; n].

(** A working directory in order: a raw photo with its developed JPEG, a
    JPEG photo, their previews, one preview handed to the service [web]
    and both published there. *)
Definition settled : World :=
  mkWorld [] (list_to_map [
    (["arch"], Dir 0);
    (date_dir, Dir 0);
    (date_dir ++ ["DSC_0001.NEF"], File 1);
    (date_dir ++ ["DSC_0002.JPG"], File 2);
    (publish, Dir 0);
    (publish ++ ["DSC_0001.NEF"], Symlink (up1 "DSC_0001.NEF"));
    (publish ++ ["DSC_0001.JPG"], File 10);
    (publish ++ ["DSC_0001_small.jpg"], File 20);
    (publish ++ ["DSC_0002.JPG"], Symlink (up1 "DSC_0002.JPG"));
    (publish ++ ["DSC_0002_small.jpg"], File 20);
    (publish ++ ["web"], Dir 0);
    (publish ++ ["web"; "DSC_0001_small.jpg"], Symlink (up1 "DSC_0001_small.jpg"));
    (publish ++ ["web"; "published"], Dir 0);
    (publish ++ ["web"; "published"; "DSC_0001_small.jpg"],
     Symlink (up2 "DSC_0001_small.jpg"));
    (publish ++ ["web"; "published"; "DSC_0002_small.jpg"],
     Symlink (up2 "DSC_0002_small.jpg"))
  ]) 100 [].

(** The archive after a move to another mount point: the source link
    still names the old place, the photo lies one level up. *)
Definition moved : World :=
  mkWorld [] (list_to_map [
    (["arch"], Dir 0);
    (date_dir, Dir 0);
    (date_dir ++ ["DSC_0002.JPG"], File 2);
    (publish, Dir 0);
    (publish ++ ["DSC_0002.JPG"],
     Symlink (mkPath true ["mnt"; "old"; "2022-01-01"; "DSC_0002.JPG"]));
    (publish ++ ["web"], Dir 0);
    (publish ++ ["web"; "published"], Dir 0)
  ]) 100 [].

(** That archive with its source link repaired: the photo is found, its
    preview is still to be made. *)
Definition repaired : World :=
  mkWorld [] (list_to_map [
    (["arch"], Dir 0);
    (date_dir, Dir 0);
    (date_dir ++ ["DSC_0002.JPG"], File 2);
    (publish, Dir 0);
    (publish ++ ["DSC_0002.JPG"], Symlink (up1 "DSC_0002.JPG"));
    (publish ++ ["web"], Dir 0);
    (publish ++ ["web"; "published"], Dir 0)
  ]) 100 [].

(** And with the preview made and handed to the service. *)
Definition previewed : World :=
  mkWorld [] (list_to_map [
    (["arch"], Dir 0);
    (date_dir, Dir 0);
    (date_dir ++ ["DSC_0002.JPG"], File 2);
    (publish, Dir 0);
    (publish ++ ["DSC_0002.JPG"], Symlink (up1 "DSC_0002.JPG"));
    (publish ++ ["DSC_0002_small.jpg"], File 100);
    (publish ++ ["web"], Dir 0);
    (publish ++ ["web"; "DSC_0002_small.jpg"], Symlink (up1 "DSC_0002_small.jpg"));
    (publish ++ ["web"; "published"], Dir 0)
  ]) 100 [].

(** The same, the photo itself gone as well. *)
Definition lost : World :=
  mkWorld [] (list_to_map [
    (["arch"], Dir 0);
    (date_dir, Dir 0);
    (publish, Dir 0);
    (publish ++ ["DSC_0001.NEF"],
     Symlink (mkPath true ["mnt"; "arch"; "2022"; "01"; "2022-01-01"; "DSC_0001.NEF"]));
    (publish ++ ["web"], Dir 0);
    (publish ++ ["web"; "published"], Dir 0)
  ]) 100 [].

(** A stale link to a preview: [a_small.jpg] is itself a link to the old
    mount point, beside a source [a.jpg] whose photo is gone; no preview
    needs the converter here. *)
Definition stale_preview : World :=
  mkWorld [] (list_to_map [
    (["arch"], Dir 0);
    (date_dir, Dir 0);
    (date_dir ++ ["a_small.jpg"], File 1);
    (publish, Dir 0);
    (publish ++ ["a.jpg"], Symlink (mkPath false ["missing"]));
    (publish ++ ["a_small.jpg"], Symlink (mkPath true ["old"; "a_small.jpg"]));
    (publish ++ ["a_small_small.jpg"], File 5);
    (publish ++ ["web"], Dir 0);
    (publish ++ ["web"; "published"], Dir 0)
  ]) 100 [].

(** What the first run makes of it: the preview that was seen is handed
    to the service, and the stale link is repaired. *)
Definition stale_preview_once : World :=
  mkWorld [] (list_to_map [
    (["arch"], Dir 0);
    (date_dir, Dir 0);
    (date_dir ++ ["a_small.jpg"], File 1);
    (publish, Dir 0);
    (publish ++ ["a.jpg"], Symlink (mkPath false ["missing"]));
    (publish ++ ["a_small.jpg"], Symlink (up1 "a_small.jpg"));
    (publish ++ ["a_small_small.jpg"], File 5);
    (publish ++ ["web"], Dir 0);
    (publish ++ ["web"; "a_small_small.jpg"], Symlink (up1 "a_small_small.jpg"));
    (publish ++ ["web"; "published"], Dir 0)
  ]) 100 [].

(** What the second run makes of that: the repaired link now counts as a
    preview and is handed to the service too. *)
Definition stale_preview_twice : World :=
  mkWorld [] (list_to_map [
    (["arch"], Dir 0);
    (date_dir, Dir 0);
    (date_dir ++ ["a_small.jpg"], File 1);
    (publish, Dir 0);
    (publish ++ ["a.jpg"], Symlink (mkPath false ["missing"]));
    (publish ++ ["a_small.jpg"], Symlink (up1 "a_small.jpg"));
    (publish ++ ["a_small_small.jpg"], File 5);
    (publish ++ ["web"], Dir 0);
    (publish ++ ["web"; "a_small.jpg"], Symlink (up1 "a_small.jpg"));
    (publish ++ ["web"; "a_small_small.jpg"], Symlink (up1 "a_small_small.jpg"));
    (publish ++ ["web"; "published"], Dir 0)
  ]) 100 [].

(** A working directory in order but for one link: the preview handed
    to the service [web] still names the old mount point. *)
Definition stale_service : World :=
  mkWorld [] (list_to_map [
    (["arch"], Dir 0);
    (date_dir, Dir 0);
    (date_dir ++ ["DSC_0002.JPG"], File 2);
    (publish, Dir 0);
    (publish ++ ["DSC_0002.JPG"], Symlink (up1 "DSC_0002.JPG"));
    (publish ++ ["DSC_0002_small.jpg"], File 20);
    (publish ++ ["web"], Dir 0);
    (publish ++ ["web"; "DSC_0002_small.jpg"],
     Symlink (mkPath true ["mnt"; "old"; "2022-01-01"; "publish";
                           "DSC_0002_small.jpg"]));
    (publish ++ ["web"; "published"], Dir 0)
  ]) 100 [].

(** A preview already published, its link still naming the old mount
    point. *)
Definition stale_published : World :=
  mkWorld [] (list_to_map [
    (["arch"], Dir 0);
    (date_dir, Dir 0);
    (date_dir ++ ["DSC_0002.JPG"], File 2);
    (publish, Dir 0);
    (publish ++ ["DSC_0002.JPG"], Symlink (up1 "DSC_0002.JPG"));
    (publish ++ ["DSC_0002_small.jpg"], File 20);
    (publish ++ ["web"], Dir 0);
    (publish ++ ["web"; "published"], Dir 0);
    (publish ++ ["web"; "published"; "DSC_0002_small.jpg"],
     Symlink (mkPath true ["mnt"; "old"; "2022-01-01"; "publish";
                           "DSC_0002_small.jpg"]))
  ]) 100 [].

(** The moved archive after a backup: the copy of the source link names
    the old mount point as the source link does. *)
Definition backed_up : World :=
  mkWorld [] (list_to_map [
    (["arch"], Dir 0);
    (date_dir, Dir 0);
    (date_dir ++ ["DSC_0002.JPG"], File 2);
    (publish, Dir 0);
    (publish ++ ["DSC_0002.JPG"],
     Symlink (mkPath true ["mnt"; "old"; "2022-01-01"; "DSC_0002.JPG"]));
    (publish ++ [".backup"], Dir 100);
    (publish ++ [".backup"; "DSC_0002.JPG"],
     Symlink (mkPath true ["mnt"; "old"; "2022-01-01"; "DSC_0002.JPG"]));
    (publish ++ ["web"], Dir 0);
    (publish ++ ["web"; "published"], Dir 0)
  ]) 100 [].

(** The name of a service taken by a link that leads nowhere. *)
Definition dangling_service : World :=
  mkWorld [] (list_to_map [
    (["arch"], Dir 0);
    (date_dir, Dir 0);
    (publish, Dir 0);
    (publish ++ ["web"], Symlink (mkPath true ["mnt"; "old"; "web"]))
  ]) 100 [].

(** A year kept in month directories: a day split into the parts [a] and
    [b], a day in one piece, both with their [publish] directory, and a
    day in February that has none yet. *)
Definition bucketed : World :=
  mkWorld [] (list_to_map [
    (["y"], Dir 0);
    (["y"; "01"], Dir 0);
    (["y"; "01"; "2022-01-02"], Dir 0);
    (["y"; "01"; "2022-01-02"; "a"], Dir 0);
    (["y"; "01"; "2022-01-02"; "a"; "publish"], Dir 0);
    (["y"; "01"; "2022-01-02"; "b"], Dir 0);
    (["y"; "01"; "2022-01-02"; "b"; "publish"], Dir 0);
    (["y"; "01"; "2022-01-01"], Dir 0);
    (["y"; "01"; "2022-01-01"; "publish"], Dir 0);
    (["y"; "01"; "notes"], Dir 0);
    (["y"; "02"], Dir 0);
    (["y"; "02"; "2022-02-01"], Dir 0)
  ]) 100 [].

(** A converter that writes the preview as a regular file stamped with
    the clock when the large image is there, and fails otherwise. *)
Definition convert_writes (cmd : command) (w : World) : World * Z :=
  match cmd with
  | ConvertResize large _ small =>
      match Fs.locate w small with
      | inr (D, n) =>
          if Fs.exists_ w large
          then (set_nodes w (<[D ++ [n] := File (clock w)]> (nodes w)), 0)
          else (w, 1)
      | inl _ => (w, 1)
      end
  | _ => (w, 1)
  end.

(** A converter that writes a regular file, and never over a directory
    or a link. *)
Definition convert_new (cmd : command) (w : World) : World * Z :=
  match cmd with
  | ConvertResize large _ small =>
      match Fs.locate w small with
      | inr (D, n) =>
          if Fs.exists_ w large then
            match nodes w !! (D ++ [n]) with
            | None | Some (File _) =>
                (set_nodes w (<[D ++ [n] := File (clock w)]> (nodes w)), 0)
            | Some _ => (w, 1)
            end
          else (w, 1)
      | inl _ => (w, 1)
      end
  | _ => (w, 1)
  end.

(** A converter that always fails and writes nothing. *)
Definition convert_fails (cmd : command) (w : World) : World * Z := (w, 1).

(** A repository that tracks nothing yet and accepts every command. *)
Definition git_quiet (cmd : command) (w : World) : option (list Path) :=
  Some [].

End Examples.

(** * Properties *)

(** A closed statement that can be decided is settled by evaluating its
    decision. *)
Ltac by_compute :=
  apply (bool_decide_eq_true_1 _); vm_compute; reflexivity.

(** ** Loops *)

Lemma bind_Ok {A B} (c : M A) (f : A → M B) (w w' : World) (a : A) :
  c w = Ok a w' → (c ≫= f) w = f a w'.
Proof. intros H. unfold mbind, M_bind. by rewrite H. Qed.

Lemma bind_Raise {A B} (c : M A) (f : A → M B) (w w' : World) (e : exn) :
  c w = Raise e w' → (c ≫= f) w = Raise e w'.
Proof. intros H. unfold mbind, M_bind. by rewrite H. Qed.

Lemma bind_inv_Ok {A B} (c : M A) (f : A → M B) (w w2 : World) (b : B) :
  (c ≫= f) w = Ok b w2 → ∃ a w1, c w = Ok a w1 ∧ f a w1 = Ok b w2.
Proof.
  unfold mbind, M_bind. destruct (c w) as [a w1|e w1]; [eauto|done].
Qed.

Lemma bind_inv_Raise {A B} (c : M A) (f : A → M B) (w w2 : World) (e : exn) :
  (c ≫= f) w = Raise e w2 →
  c w = Raise e w2 ∨ ∃ a w1, c w = Ok a w1 ∧ f a w1 = Raise e w2.
Proof.
  unfold mbind, M_bind. destruct (c w) as [a w1|e1 w1]; [eauto|]. intros [= -> ->]. eauto.
Qed.

Lemma for_each_noop {A} (l : list A) (body : A → M unit) (w : World) :
  (∀ x, x ∈ l → body x w = Ok () w) → for_each l body w = Ok () w.
Proof.
  induction l as [|x l IH]; intros H; [done|]. simpl.
  rewrite (bind_Ok _ _ w w ()) by (apply H; left).
  apply IH. intros y Hy. apply H. by right.
Qed.

(** An invariant kept by every round is kept by the loop. *)
Lemma for_each_Ok {A} (P : World → Prop) (l : list A) (body : A → M unit)
    (w w' : World) :
  (∀ x w1 w2, x ∈ l → P w1 → body x w1 = Ok () w2 → P w2) →
  P w → for_each l body w = Ok () w' → P w'.
Proof.
  revert w. induction l as [|x l IH]; intros w Hbody HP; simpl.
  - by intros [= <-].
  - intros (u & w1 & Hx & Hrest)%bind_inv_Ok. destruct u.
    eapply IH; [|eapply Hbody; [left|done..]|done].
    intros y w2 w3 Hy. apply Hbody. by right.
Qed.

(** The round in which a loop raised. *)
Lemma for_each_Raise {A} (P : World → Prop) (l : list A) (body : A → M unit)
    (w w' : World) (e : exn) :
  (∀ x w1 w2, x ∈ l → P w1 → body x w1 = Ok () w2 → P w2) →
  P w → for_each l body w = Raise e w' →
  ∃ x w1, x ∈ l ∧ P w1 ∧ body x w1 = Raise e w'.
Proof.
  revert w. induction l as [|x l IH]; intros w Hbody HP; simpl; [done|].
  intros [Hx|(u & w1 & Hx & Hrest)]%bind_inv_Raise.
  - exists x, w. split; [left|done].
  - destruct u. destruct (IH w1) as (y & w2 & Hy & HP2 & Hr); [| |done|].
    + intros y w2 w3 Hy. apply Hbody. by right.
    + eapply Hbody; [left|done..].
    + exists y, w2. split; [by right|done].
Qed.

(** ** Path resolution *)

Lemma parent_joinpath (p : Path) (n : string) : PurePath.parent (p // n) = p.
Proof.
  destruct p as [a ps]. unfold PurePath.parent, PurePath.joinpath. simpl.
  by rewrite removelast_last.
Qed.

Lemma name_joinpath (p : Path) (n : string) : PurePath.name (p // n) = n.
Proof. unfold PurePath.name, PurePath.joinpath. simpl. apply last_last. Qed.

Lemma parts_joinpath_nonempty (p : Path) (n : string) : parts (p // n) ≠ [].
Proof. simpl. by destruct (parts p). Qed.

(** Resolution reads only entries that are there: it goes the same way in
    a larger tree. *)
Lemma walk_mono (m m' : gmap loc node) (b : nat) (cur : loc) (ps : list string)
    (l : loc) :
  m ⊆ m' → Fs.walk b m cur ps = Some l → Fs.walk b m' cur ps = Some l.
Proof.
  intros Hsub. revert cur ps l.
  induction b as [|b IHb]; intros cur ps; revert cur;
    induction ps as [|p rest IH]; intros cur l; simpl; try done.
  - destruct (decide (p = "..")); [apply IH|].
    destruct (decide (p = ".")); [apply IH|].
    destruct (m !! (cur ++ [p])) as [x|] eqn:E; [|done].
    rewrite (lookup_weaken _ _ _ _ E Hsub).
    destruct x; [done|apply IH|done].
  - destruct (decide (p = "..")); [apply IH|].
    destruct (decide (p = ".")); [apply IH|].
    destruct (m !! (cur ++ [p])) as [x|] eqn:E; [|done].
    rewrite (lookup_weaken _ _ _ _ E Hsub).
    destruct x; [done|apply IH|apply IHb].
Qed.

(** A path without links or dots: every component a directory. *)
Lemma walk_real (m : gmap loc node) (b : nat) (cur : loc) (ps : list string) :
  Fs.real_from m cur ps = true → Fs.walk b m cur ps = Some (cur ++ ps).
Proof.
  revert cur. induction ps as [|p rest IH]; intros cur; simpl.
  - destruct b; simpl; by rewrite app_nil_r.
  - intros H. apply andb_prop in H as [H Hrest]. apply andb_prop in H as [Hsp Hdir].
    unfold Fs.special in Hsp. apply negb_true_iff, bool_decide_eq_false in Hsp.
    destruct (m !! (cur ++ [p])) as [[]|] eqn:E; try done.
    specialize (IH _ Hrest). rewrite <- app_assoc in IH. simpl in IH.
    destruct b; simpl;
      (destruct (decide (p = "..")); [tauto|]);
      (destruct (decide (p = ".")); [tauto|]); by rewrite E.
Qed.

(** ** Entries of a directory *)

Lemma child_of_spec (D k : loc) (n : string) :
  Fs.child_of D k = Some n ↔ k = D ++ [n].
Proof.
  revert k. induction D as [|d D IH]; intros k; simpl.
  - destruct k as [|x [|y k]]; split; intros H; simplify_eq; done.
  - destruct k as [|x k]; [split; intros H; simplify_eq|].
    destruct (decide (d = x)) as [->|Hne].
    + rewrite IH. split; intros H; simplify_eq; done.
    + split; intros H; simplify_eq.
Qed.

Lemma elem_of_scandir (m : gmap loc node) (D : loc) (n : string) :
  n ∈ Fs.scandir m D ↔ is_Some (m !! (D ++ [n])).
Proof.
  unfold Fs.scandir. rewrite list_elem_of_omap. split.
  - intros ([k x] & Hin & Hc). apply elem_of_map_to_list in Hin.
    apply child_of_spec in Hc. simpl in Hc. subst k. eauto.
  - intros [x Hx]. exists (D ++ [n], x). split.
    + by apply elem_of_map_to_list.
    + by apply child_of_spec.
Qed.

Lemma elem_of_glob (w : World) (p q : Path) (pat : string → bool) :
  q ∈ Fs.glob w p pat
  ↔ ∃ D n, Fs.is_dir w p = true ∧ Fs.resolve w p = Some D
           ∧ q = p // n ∧ pat n = true ∧ is_Some (nodes w !! (D ++ [n])).
Proof.
  unfold Fs.glob. destruct (Fs.is_dir w p) eqn:Hd.
  - destruct (Fs.resolve w p) as [D|] eqn:HD.
    + rewrite list_elem_of_fmap. setoid_rewrite list_elem_of_filter.
      setoid_rewrite elem_of_scandir. split.
      * intros (n & -> & Hp & Hn). exists D, n. done.
      * intros (D' & n & _ & [= <-] & -> & Hp & Hn). exists n. done.
    + split; [by intros ?%elem_of_nil|]. by intros (? & ? & _ & ? & _).
  - split; [by intros ?%elem_of_nil|]. by intros (? & ? & ? & _).
Qed.

Lemma is_dir_node (w : World) (p : Path) :
  Fs.is_dir w p = true
  ↔ ∃ D t, Fs.resolve w p = Some D ∧ Fs.node_at (nodes w) D = Some (Dir t).
Proof.
  unfold Fs.is_dir, Fs.stat. destruct (Fs.resolve w p) as [D|]; simpl.
  - split.
    + destruct (Fs.node_at (nodes w) D) as [[]|] eqn:E; try done. intros _. eauto.
    + by intros (? & ? & [= <-] & ->).
  - split; [done|]. by intros (? & ? & ? & _).
Qed.

(** An entry named through its directory is looked up in the directory's
    real place. *)
Lemma locate_child (w : World) (p : Path) (n : string) (D : loc) (t : Z) :
  Fs.resolve w p = Some D → Fs.node_at (nodes w) D = Some (Dir t) →
  Fs.locate w (p // n) = inr (D, n).
Proof.
  intros HD Hn. unfold Fs.locate.
  pose proof (parts_joinpath_nonempty p n) as Hne.
  destruct (parts (p // n)) eqn:E; [done|].
  by rewrite parent_joinpath, HD, Hn, name_joinpath.
Qed.

Lemma entry_child (w : World) (p : Path) (n : string) (D : loc) (t : Z) :
  Fs.resolve w p = Some D → Fs.node_at (nodes w) D = Some (Dir t) →
  Fs.special n = false →
  Fs.entry w (p // n) = nodes w !! (D ++ [n]).
Proof.
  intros HD Hn Hs. unfold Fs.entry. by rewrite (locate_child w p n D t), Hs.
Qed.

(** A symbolic link is an entry of its directory, under a name that is
    neither [.] nor [..]. *)
Lemma is_symlink_locate (w : World) (p : Path) :
  Fs.is_symlink w p = true
  ↔ ∃ D n t, Fs.locate w p = inr (D, n) ∧ Fs.special n = false
             ∧ nodes w !! (D ++ [n]) = Some (Symlink t).
Proof.
  unfold Fs.is_symlink, Fs.entry. split.
  - destruct (Fs.locate w p) as [e|[D n]]; [done|].
    destruct (Fs.special n) eqn:Hs; [done|].
    destruct (nodes w !! (D ++ [n])) as [[]|] eqn:E; try done. eauto 10.
  - by intros (D & n & t & -> & -> & ->).
Qed.

Lemma readlink_locate (w : World) (p t : Path) :
  Fs.readlink w p = inr t
  ↔ ∃ D n, Fs.locate w p = inr (D, n) ∧ Fs.special n = false
           ∧ nodes w !! (D ++ [n]) = Some (Symlink t).
Proof.
  unfold Fs.readlink, Fs.entry. split.
  - destruct (Fs.locate w p) as [e|[D n]]; [by destruct (Fs.exists_ w p)|].
    destruct (Fs.special n) eqn:Hs; [by destruct (Fs.exists_ w p)|].
    destruct (nodes w !! (D ++ [n])) as [[]|] eqn:E; try done.
    + intros [= <-]. eauto 10.
    + by destruct (Fs.exists_ w p).
  - by intros (D & n & -> & -> & ->).
Qed.

Lemma NoDup_scandir (m : gmap loc node) (D : loc) : NoDup (Fs.scandir m D).
Proof.
  unfold Fs.scandir.
  pose proof (NoDup_fst_map_to_list m) as Hnd.
  induction (map_to_list m) as [|[k x] l IH]; simpl; [constructor|].
  apply NoDup_cons in Hnd as [Hk Hnd]. specialize (IH Hnd).
  destruct (Fs.child_of D k) as [n|] eqn:E; [|done].
  apply NoDup_cons. split; [|done].
  rewrite list_elem_of_omap. intros ([k' x'] & Hin & Hc). simpl in Hc.
  apply child_of_spec in E, Hc. subst k k'.
  apply Hk. apply list_elem_of_fmap. by exists (D ++ [n], x').
Qed.

Lemma print_loop (f : World → Path → bool) (paths : list Path) (w : World) :
  (∀ e w p, f (emit e w) p = f w p) →
  for_each paths (λ path, l ← gets (λ w, f w path); when l (tell (Print path))) w
  = Ok () (with_trace w (trace w ++ (Print <$> filter (λ p, f w p = true) paths))).
Proof.
  intros Hf. revert w. induction paths as [|p paths IH]; intros w; simpl.
  - unfold with_trace. rewrite app_nil_r. by destruct w.
  - unfold mbind at 1, M_bind at 1. unfold mbind at 1, M_bind at 1. unfold gets at 1.
    rewrite filter_cons. destruct (f w p) eqn:E; simpl.
    + unfold tell at 1. rewrite IH.
      f_equal. unfold with_trace, emit; simpl. f_equal.
      rewrite <- app_assoc. simpl. do 3 f_equal.
      apply list_filter_iff. intros q. by rewrite <- (Hf (Print p) w q).
    + apply IH.
Qed.

Lemma with_trace_id (w : World) : with_trace w (trace w ++ []) = w.
Proof. unfold with_trace. rewrite app_nil_r. by destruct w. Qed.

Lemma joinpath_inj (p : Path) (n n' : string) : p // n = p // n' → n = n'.
Proof.
  unfold PurePath.joinpath. intros [= H]. by apply app_inv_head in H as [= ->].
Qed.

Lemma NoDup_glob (w : World) (p : Path) (pat : string → bool) :
  NoDup (Fs.glob w p pat).
Proof.
  unfold Fs.glob. destruct (Fs.is_dir w p); [|constructor].
  destruct (Fs.resolve w p); [|constructor].
  apply NoDup_fmap_2; [intros n n'; apply joinpath_inj|].
  apply NoDup_filter, NoDup_scandir.
Qed.

Lemma is_dir_exists (w : World) (p : Path) :
  Fs.is_dir w p = true → Fs.exists_ w p = true.
Proof. unfold Fs.is_dir, Fs.exists_. by destruct (Fs.stat w p). Qed.

(** ** Real places *)

Lemma real_from_node (m : gmap loc node) (cur : loc) (ps : list string) :
  Fs.real_from m cur ps = true → ps ≠ [] →
  ∃ t, m !! (cur ++ ps) = Some (Dir t).
Proof.
  revert cur. induction ps as [|p rest IH]; intros cur H Hne; [done|].
  simpl in H. apply andb_prop in H as [H Hrest]. apply andb_prop in H as [_ Hdir].
  destruct rest as [|q rest].
  - destruct (m !! (cur ++ [p])) as [[]|]; try done. eauto.
  - destruct (IH (cur ++ [p]) Hrest) as [t Ht]; [done|].
    exists t. by rewrite <- app_assoc in Ht.
Qed.

Lemma real_from_keep (m m' : gmap loc node) (cur : loc) (ps : list string) :
  (∀ l t, m !! l = Some (Dir t) → ∃ t', m' !! l = Some (Dir t')) →
  Fs.real_from m cur ps = true → Fs.real_from m' cur ps = true.
Proof.
  intros Hkeep. revert cur. induction ps as [|p rest IH]; intros cur; [done|].
  simpl. intros H. apply andb_prop in H as [H Hrest]. apply andb_prop in H as [Hsp Hdir].
  rewrite Hsp, (IH _ Hrest). simpl.
  destruct (m !! (cur ++ [p])) as [[| t |]|] eqn:E; try done.
  destruct (Hkeep _ _ E) as [t' ->]. done.
Qed.

Lemma real_resolve (w : World) (p : Path) :
  Fs.real w p = true →
  Fs.resolve w p = Some (Fs.start w p ++ parts p)
  ∧ ∃ t, Fs.node_at (nodes w) (Fs.start w p ++ parts p) = Some (Dir t).
Proof.
  unfold Fs.real, Fs.resolve. intros H. apply andb_prop in H as [Hstart Hreal].
  split; [by apply walk_real|].
  destruct (parts p) as [|q ps] eqn:E.
  - rewrite app_nil_r. unfold Fs.is_dir_at in Hstart.
    destruct (Fs.node_at (nodes w) (Fs.start w p)) as [[]|]; try done. eauto.
  - destruct (real_from_node _ _ _ Hreal) as [t Ht]; [done|]. exists t.
    unfold Fs.node_at. by destruct (Fs.start w p ++ q :: ps) eqn:E'; [destruct (Fs.start w p)|].
Qed.

Lemma keeps_dirs_refl (w : World) : keeps_dirs w w.
Proof. split; eauto. Qed.

Lemma keeps_dirs_trans (w1 w2 w3 : World) :
  keeps_dirs w1 w2 → keeps_dirs w2 w3 → keeps_dirs w1 w3.
Proof.
  intros [Hc1 H1] [Hc2 H2]. split; [congruence|].
  intros l t Hl. destruct (H1 _ _ Hl) as [t' Ht']. eauto.
Qed.

Lemma real_keep (w w' : World) (p : Path) :
  keeps_dirs w w' → Fs.real w p = true → Fs.real w' p = true.
Proof.
  intros [Hcwd Hkeep]. unfold Fs.real, Fs.start. rewrite Hcwd.
  intros H. apply andb_prop in H as [Hstart Hreal].
  rewrite (real_from_keep _ _ _ _ Hkeep Hreal), andb_true_r.
  unfold Fs.is_dir_at, Fs.node_at in *.
  destruct (if is_absolute p then [] else cwd w) as [|x l] eqn:E; [done|].
  destruct (nodes w !! (x :: l)) as [[| t |]|] eqn:E'; try done.
  destruct (Hkeep _ _ E') as [t' ->]. done.
Qed.

Lemma locate_real (w : World) (p : Path) (n : string) :
  Fs.real w p = true →
  Fs.locate w (p // n) = inr (Fs.start w p ++ parts p, n).
Proof.
  intros [HD [t Ht]]%real_resolve. by apply (locate_child w p n _ t).
Qed.

(** ** Replacing a link *)

Lemma unlink_link (w : World) (p : Path) (D : loc) (n : string) (x : node) :
  Fs.locate w p = inr (D, n) → Fs.special n = false →
  nodes w !! (D ++ [n]) = Some x → (∀ t, x ≠ Dir t) →
  Fs.unlink p w = inr (set_nodes w (delete (D ++ [n]) (nodes w))).
Proof.
  intros Hloc Hs Hx Hnd. unfold Fs.unlink. rewrite Hloc, Hs, Hx.
  destruct x; try done. by destruct (Hnd mtime).
Qed.

Lemma create_new (w : World) (p : Path) (D : loc) (n : string) (x : node) :
  Fs.locate w p = inr (D, n) → Fs.special n = false →
  nodes w !! (D ++ [n]) = None →
  Fs.create x p w = inr (set_nodes w (<[D ++ [n] := x]> (nodes w))).
Proof. intros Hloc Hs Hx. unfold Fs.create. by rewrite Hloc, Hs, Hx. Qed.

Lemma create_inv (w w' : World) (p : Path) (x : node) :
  Fs.create x p w = inr w' →
  ∃ D n, Fs.locate w p = inr (D, n) ∧ Fs.special n = false
         ∧ nodes w !! (D ++ [n]) = None
         ∧ w' = set_nodes w (<[D ++ [n] := x]> (nodes w)).
Proof.
  unfold Fs.create. destruct (Fs.locate w p) as [e|[D n]]; [done|].
  destruct (Fs.special n) eqn:Hs; [done|].
  destruct (nodes w !! (D ++ [n])) eqn:E; [done|].
  intros [= <-]. eauto 10.
Qed.

Lemma unlink_inv (w w' : World) (p : Path) :
  Fs.unlink p w = inr w' →
  ∃ D n x, Fs.locate w p = inr (D, n) ∧ Fs.special n = false
           ∧ nodes w !! (D ++ [n]) = Some x ∧ (∀ t, x ≠ Dir t)
           ∧ w' = set_nodes w (delete (D ++ [n]) (nodes w)).
Proof.
  unfold Fs.unlink. destruct (Fs.locate w p) as [e|[D n]]; [by destruct e|].
  destruct (Fs.special n) eqn:Hs; [done|].
  destruct (nodes w !! (D ++ [n])) as [x|] eqn:E; [|done].
  destruct x; try done; intros [= <-]; eauto 10.
Qed.

(** A location read in a smaller tree is read the same in the tree. *)
Lemma locate_mono (w w' : World) (p : Path) (D : loc) (n : string) :
  cwd w' = cwd w → nodes w' ⊆ nodes w →
  Fs.locate w' p = inr (D, n) → Fs.locate w p = inr (D, n).
Proof.
  intros Hcwd Hsub. unfold Fs.locate, Fs.resolve, Fs.start. rewrite Hcwd.
  destruct (parts p) as [|q ps]; [done|].
  destruct (Fs.walk Fs.MAXSYMLINKS (nodes w')
              (if is_absolute (PurePath.parent p) then [] else cwd w)
              (parts (PurePath.parent p))) as [D'|] eqn:E; [|done].
  rewrite (walk_mono _ _ _ _ _ _ Hsub E).
  unfold Fs.node_at. destruct D' as [|d D'].
  - by intros [= <- <-].
  - destruct (nodes w' !! (d :: D')) as [x|] eqn:E'; [|done].
    rewrite (lookup_weaken _ _ _ _ E' Hsub). by destruct x.
Qed.

Lemma replace_link_Ok (w w' : World) (p target : Path) :
  replace_link p target w = Ok () w' →
  ∃ D n x, Fs.locate w p = inr (D, n) ∧ Fs.special n = false
           ∧ nodes w !! (D ++ [n]) = Some x ∧ (∀ t, x ≠ Dir t)
           ∧ w' = set_nodes w (<[D ++ [n] := Symlink target]> (nodes w)).
Proof.
  unfold replace_link. intros ([] & w1 & H1 & H2)%bind_inv_Ok.
  unfold act in H1, H2.
  destruct (Fs.unlink p w) as [e|w1'] eqn:Hu; [done|]. injection H1 as <-.
  destruct (Fs.symlink_to p target w1') as [e|w2] eqn:Hc; [done|]. injection H2 as <-.
  apply unlink_inv in Hu as (D & n & x & Hloc & Hs & Hx & Hnd & ->).
  apply create_inv in Hc as (D' & n' & Hloc' & Hs' & Hx' & ->).
  apply (locate_mono w) in Hloc'; [|done|apply delete_subseteq].
  rewrite Hloc in Hloc'. injection Hloc' as <- <-.
  exists D, n, x. split_and!; try done.
  unfold set_nodes. simpl. by rewrite insert_delete_eq.
Qed.

Lemma replace_link_real (w : World) (p target t : Path) (D : loc) (n : string) :
  Fs.real w (PurePath.parent p) = true →
  Fs.locate w p = inr (D, n) → Fs.special n = false →
  nodes w !! (D ++ [n]) = Some (Symlink t) →
  replace_link p target w
  = Ok () (set_nodes w (<[D ++ [n] := Symlink target]> (nodes w))).
Proof.
  intros Hreal Hloc Hs Hx. unfold replace_link.
  erewrite bind_Ok; [|unfold act; by erewrite unlink_link].
  unfold act, Fs.symlink_to.
  erewrite create_new; [| |done|simpl; apply lookup_delete_eq].
  - unfold set_nodes. simpl. by rewrite insert_delete_eq.
  - assert (Hk : keeps_dirs w (set_nodes w (delete (D ++ [n]) (nodes w)))).
    { split; [done|]. intros l t' Hl. exists t'. simpl.
      rewrite lookup_delete_ne; [done|]. intros <-. congruence. }
    pose proof (real_keep _ _ _ Hk Hreal) as Hreal'.
    unfold Fs.locate in Hloc |- *. destruct (parts p) eqn:Ep; [done|].
    destruct (real_resolve _ _ Hreal) as [HR [t1 Ht1]].
    destruct (real_resolve _ _ Hreal') as [HR' [t2 Ht2]].
    rewrite HR, Ht1 in Hloc. rewrite HR'.
    replace (Fs.start (set_nodes w (delete (D ++ [n]) (nodes w))) (PurePath.parent p))
      with (Fs.start w (PurePath.parent p)) in * by done.
    by rewrite Ht2.
Qed.

(** ** The sources of a snapshot *)

Lemma scan_source_inv (w : World) (q : Path) (s : SourceImage) :
  scan_source w q = Some s →
  Source.path s = q ∧ Fs.is_symlink w q = true ∧ Fs.is_dir w q = false.
Proof.
  unfold scan_source, classify.
  destruct (Fs.is_dir w q); [done|]. simpl.
  destruct (Fs.is_symlink w q); [|done].
  repeat case_bool_decide; intros [= <-]; done.
Qed.

(** Every source of a snapshot of a real directory is a symbolic link
    among its entries. *)
Lemma sources_links (w : World) (root : Path) (subs : list string)
    (s : SourceImage) :
  Fs.real w root = true →
  s ∈ sources (new_Directory root subs w) →
  ∃ n t, Source.path s = root // n ∧ Fs.special n = false
         ∧ nodes w !! (Fs.start w root ++ parts root ++ [n]) = Some (Symlink t).
Proof.
  intros Hreal. simpl. rewrite list_elem_of_omap.
  intros (q & Hq & Hs). apply scan_source_inv in Hs as (-> & Hl & _).
  apply elem_of_glob in Hq as (D & n & _ & _ & Hq & _).
  apply is_symlink_locate in Hl as (D' & n' & t & Hloc & Hsp & Hn).
  rewrite Hq, (locate_real _ _ _ Hreal) in Hloc. injection Hloc as <- <-.
  exists n, t. by rewrite app_assoc.
Qed.

(** ** Repairing the source links *)

(** One round, case by case. *)
Lemma fixup_source_photos_link_cases (source : SourceImage) (w : World) :
  fixup_source_photos_link source w
  = let path := Source.path source in
    match Fs.readlink w path with
    | inl e => Raise e w
    | inr link =>
        if is_absolute link then
          let newlink := PurePath.dotdot // PurePath.name path in
          replace_link path newlink (emit (LogReplacingLink path link newlink) w)
        else Ok () w
    end.
Proof.
  unfold fixup_source_photos_link, mbind, M_bind, ask, tell, replace_link, mbind, M_bind.
  cbv zeta. destruct (Fs.readlink w (Source.path source)) as [e|link]; [done|].
  by destruct (is_absolute link).
Qed.

Lemma fixup_source_links_run (root : Path) (srcs : list SourceImage) (w : World) :
  let D := Fs.start w root ++ parts root in
  Fs.real w root = true →
  (∀ s, s ∈ srcs →
     ∃ n t, Source.path s = root // n ∧ Fs.special n = false
            ∧ nodes w !! (D ++ [n]) = Some (Symlink t)) →
  ∃ w', for_each srcs fixup_source_photos_link w = Ok () w'
        ∧ keeps_dirs w w' ∧ clock w' = clock w
        ∧ ∀ l, nodes w' !! l
               = repaired_node ((λ s, D ++ [PurePath.name (Source.path s)]) <$> srcs)
                   l (nodes w !! l).
Proof.
  intros D. subst D. revert w. induction srcs as [|s srcs IH]; intros w Hreal Hsrc.
  - exists w. split_and!; [done|apply keeps_dirs_refl|done|].
    intros l. unfold repaired_node. destruct (nodes w !! l) as [[]|]; try done.
    rewrite bool_decide_eq_false_2 by apply not_elem_of_nil. by rewrite andb_false_r.
  - destruct (Hsrc s) as (n & t & Hp & Hsp & Hn); [left|].
    set (D := Fs.start w root ++ parts root) in *.
    assert (Hloc : Fs.locate w (Source.path s) = inr (D, n))
      by (rewrite Hp; by apply locate_real).
    assert (Hrl : Fs.readlink w (Source.path s) = inr t)
      by (apply readlink_locate; eauto).
    simpl for_each.
    destruct (is_absolute t) eqn:Habs.
    + (* replaced *)
      set (newlink := PurePath.dotdot // PurePath.name (Source.path s)).
      set (w0 := emit (LogReplacingLink (Source.path s) t newlink) w).
      set (w1 := set_nodes w0 (<[D ++ [n] := Symlink newlink]> (nodes w0))).
      assert (Hstep : fixup_source_photos_link s w = Ok () w1).
      { rewrite fixup_source_photos_link_cases. cbv zeta. rewrite Hrl, Habs.
        apply (replace_link_real w0 _ _ t D n); try done.
        rewrite Hp, parent_joinpath. done. }
      assert (Hk : keeps_dirs w w1).
      { split; [done|]. intros l t' Hl. exists t'. simpl.
        rewrite lookup_insert_ne; [done|]. intros <-. congruence. }
      destruct (IH w1) as (w' & Hrun & Hk' & Hclock & Hnodes).
      { by apply (real_keep w). }
      { intros s' Hs'. destruct (Hsrc s') as (n' & t' & Hp' & Hsp' & Hn'); [by right|].
        replace (Fs.start w1 root) with (Fs.start w root) by done. fold D.
        destruct (decide (n' = n)) as [->|Hne].
        - exists n, newlink. simpl. by rewrite lookup_insert_eq.
        - exists n', t'. simpl. rewrite lookup_insert_ne; [done|].
          intros [= ?]%app_inv_head. done. }
      exists w'. split_and!.
      * by rewrite (bind_Ok _ _ _ _ _ Hstep).
      * by apply (keeps_dirs_trans w w1).
      * by rewrite Hclock.
      * intros l. rewrite Hnodes.
        replace (Fs.start w1 root) with (Fs.start w root) by done. fold D.
        rewrite fmap_cons, Hp, name_joinpath. simpl nodes.
        destruct (decide (l = D ++ [n])) as [->|Hne].
        -- rewrite lookup_insert_eq, Hn. unfold repaired_node. simpl.
           rewrite Habs. rewrite (bool_decide_eq_true_2 (D ++ [n] ∈ _)) by left.
           simpl. rewrite last_last. subst newlink. by rewrite Hp, name_joinpath.
        -- rewrite lookup_insert_ne by done. unfold repaired_node.
           destruct (nodes w !! l) as [[]|]; try done.
           rewrite (bool_decide_ext (l ∈ (D ++ [n]) :: _) (l ∈ (λ s0, D ++ [PurePath.name (Source.path s0)]) <$> srcs)); [done|]. rewrite elem_of_cons. intuition congruence.
    + (* left as it is *)
      assert (Hstep : fixup_source_photos_link s w = Ok () w).
      { rewrite fixup_source_photos_link_cases. cbv zeta. by rewrite Hrl, Habs. }
      destruct (IH w Hreal) as (w' & Hrun & Hk' & Hclock & Hnodes).
      { intros s' Hs'. apply Hsrc. by right. }
      exists w'. split_and!; try done.
      * by rewrite (bind_Ok _ _ _ _ _ Hstep).
      * intros l. rewrite Hnodes. fold D. rewrite fmap_cons, Hp, name_joinpath.
        unfold repaired_node. destruct (nodes w !! l) as [[| |t']|] eqn:El; try done.
        destruct (decide (l = D ++ [n])) as [->|Hne].
        -- rewrite Hn in El. injection El as <-. by rewrite Habs.
        -- rewrite (bool_decide_ext (l ∈ (D ++ [n]) :: _) (l ∈ (λ s0, D ++ [PurePath.name (Source.path s0)]) <$> srcs)); [done|]. rewrite elem_of_cons. intuition congruence.
Qed.

(** ** The order of paths *)

Section Lex.
Context {A : Type} (cmp : A → A → comparison).
Hypothesis cmp_eq : ∀ x y, cmp x y = Eq ↔ x = y.
Hypothesis cmp_antisym : ∀ x y, cmp y x = CompOpp (cmp x y).
Hypothesis cmp_trans : ∀ x y z, cmp x y = Lt → cmp y z = Lt → cmp x z = Lt.

Lemma lex_cmp_eq (l1 l2 : list A) :
  PathOrder.lex_cmp cmp l1 l2 = Eq ↔ l1 = l2.
Proof.
  revert l2. induction l1 as [|x l1 IH]; intros [|y l2]; simpl; try done.
  destruct (cmp x y) eqn:E.
  - apply cmp_eq in E as ->. rewrite IH. split; intros H; by simplify_eq.
  - split; [done|]. intros [= -> ->].
    assert (cmp y y = Eq) by by apply cmp_eq. congruence.
  - split; [done|]. intros [= -> ->].
    assert (cmp y y = Eq) by by apply cmp_eq. congruence.
Qed.

Lemma lex_cmp_antisym (l1 l2 : list A) :
  PathOrder.lex_cmp cmp l2 l1 = CompOpp (PathOrder.lex_cmp cmp l1 l2).
Proof.
  revert l2. induction l1 as [|x l1 IH]; intros [|y l2]; simpl; try done.
  rewrite (cmp_antisym x y). destruct (cmp x y); simpl; [apply IH|done..].
Qed.

Lemma lex_cmp_trans (l1 l2 l3 : list A) :
  PathOrder.lex_cmp cmp l1 l2 = Lt → PathOrder.lex_cmp cmp l2 l3 = Lt →
  PathOrder.lex_cmp cmp l1 l3 = Lt.
Proof.
  revert l2 l3. induction l1 as [|x l1 IH]; intros [|y l2] [|z l3]; simpl;
    try done.
  destruct (cmp x y) eqn:Exy; try done.
  - apply cmp_eq in Exy as ->. destruct (cmp y z); try done. apply IH.
  - destruct (cmp y z) eqn:Eyz; try done.
    + apply cmp_eq in Eyz as ->. by rewrite Exy.
    + by rewrite (cmp_trans _ _ _ Exy Eyz).
Qed.
End Lex.

Lemma ascii_cmp_eq (a b : ascii) : Ascii.compare a b = Eq ↔ a = b.
Proof.
  split; [apply Ascii.compare_eq_iff|]. intros ->.
  unfold Ascii.compare. apply N.compare_refl.
Qed.

Lemma ascii_cmp_antisym (a b : ascii) :
  Ascii.compare b a = CompOpp (Ascii.compare a b).
Proof. unfold Ascii.compare. apply N.compare_antisym. Qed.

Lemma ascii_cmp_trans (a b c : ascii) :
  Ascii.compare a b = Lt → Ascii.compare b c = Lt → Ascii.compare a c = Lt.
Proof. unfold Ascii.compare. rewrite !N.compare_lt_iff. lia. Qed.

Lemma list_ascii_inj (s t : string) :
  list_ascii_of_string s = list_ascii_of_string t → s = t.
Proof.
  intros H. rewrite <- (string_of_list_ascii_of_string s),
    <- (string_of_list_ascii_of_string t). by rewrite H.
Qed.

Lemma str_cmp_eq (s t : string) : PathOrder.str_cmp s t = Eq ↔ s = t.
Proof.
  unfold PathOrder.str_cmp. rewrite (lex_cmp_eq _ ascii_cmp_eq).
  split; [apply list_ascii_inj|by intros ->].
Qed.

Lemma str_cmp_antisym (s t : string) :
  PathOrder.str_cmp t s = CompOpp (PathOrder.str_cmp s t).
Proof. apply (lex_cmp_antisym _ ascii_cmp_antisym). Qed.

Lemma str_cmp_trans (s t u : string) :
  PathOrder.str_cmp s t = Lt → PathOrder.str_cmp t u = Lt →
  PathOrder.str_cmp s u = Lt.
Proof. apply (lex_cmp_trans _ ascii_cmp_eq ascii_cmp_trans). Qed.

#[global] Instance path_le_total : Total PathOrder.path_le.
Proof.
  intros p q. unfold PathOrder.path_le, PathOrder.path_cmp.
  rewrite (lex_cmp_antisym _ str_cmp_antisym (PathOrder.cparts p)).
  destruct (PathOrder.lex_cmp _ _ _); simpl; [left|left|right]; done.
Qed.

#[global] Instance path_le_trans : Transitive PathOrder.path_le.
Proof.
  intros p q r. unfold PathOrder.path_le, PathOrder.path_cmp.
  destruct (PathOrder.lex_cmp _ (PathOrder.cparts p) (PathOrder.cparts q)) eqn:E1;
    [| |done].
  - apply (lex_cmp_eq _ str_cmp_eq) in E1. by rewrite E1.
  - destruct (PathOrder.lex_cmp _ (PathOrder.cparts q) (PathOrder.cparts r)) eqn:E2;
      [| |done]; intros _ _.
    + apply (lex_cmp_eq _ str_cmp_eq) in E2. by rewrite <- E2, E1.
    + by rewrite (lex_cmp_trans _ str_cmp_eq str_cmp_trans _ _ _ E1 E2).
Qed.

(** ** Finding the working directories *)

Lemma append_nil_r (s : string) : s +:+ "" = s.
Proof.
  induction s as [|c s IH]; [done|].
  change (String c (s +:+ "") = String c s). by rewrite IH.
Qed.

Lemma match_classes_app (cs : list (ascii → bool)) (pre rest : string) :
  Application.match_classes cs pre = Some "" →
  Application.match_classes cs (pre +:+ rest) = Some rest.
Proof.
  revert pre. induction cs as [|c cs IH]; intros pre; simpl.
  - by intros [= ->].
  - destruct pre as [|a pre]; [done|]. simpl. destruct (c a); [apply IH|done].
Qed.

Lemma match_classes_split (cs : list (ascii → bool)) (s rest : string) :
  Application.match_classes cs s = Some rest →
  ∃ pre, s = pre +:+ rest ∧ Application.match_classes cs pre = Some "".
Proof.
  revert s. induction cs as [|c cs IH]; intros s; simpl.
  - intros [= ->]. by exists "".
  - destruct s as [|a s]; [done|]. destruct (c a) eqn:E; [|done].
    intros (pre & -> & Hpre)%IH. exists (String a pre). simpl. by rewrite E.
Qed.

Lemma date_name_classes (s : string) :
  Application.date_name s = true
  ↔ Application.match_classes
      [Str.is_digit; Str.is_digit; Str.is_digit; Str.is_digit; Application.dash;
       Str.is_digit; Str.is_digit; Application.dash; Str.is_digit; Str.is_digit]
      s = Some "".
Proof.
  unfold Application.date_name.
  do 11 (destruct s as [|? s];
         [simpl;
          repeat match goal with
                 | |- context [if ?b then _ else _] => destruct b; simpl
                 end; by split|]).
  simpl.
  repeat match goal with
         | |- context [if ?b then _ else _] => destruct b; simpl
         end; by split.
Qed.

(** The names the program takes for dates: YYYY-MM-DD, and YYYY-MM-DD
    followed by one newline. *)
Lemma date_match_spec (s : string) :
  Application.date_match s = true
  ↔ Application.date_name s = true
    ∨ ∃ s0, Application.date_name s0 = true ∧ s = s0 +:+ Application.newline.
Proof.
  unfold Application.date_match. setoid_rewrite date_name_classes. split.
  - destruct (Application.match_classes _ s) as [rest|] eqn:E; [|done].
    apply match_classes_split in E as (pre & -> & Hpre).
    intros [->| ->]%bool_decide_eq_true.
    + by left.
    + right. by exists pre.
  - intros [H|(s0 & H & ->)].
    + rewrite <- (append_nil_r s) at 1.
      rewrite (match_classes_app _ _ _ H). by apply bool_decide_eq_true; left.
    + rewrite (match_classes_app _ _ _ H). by apply bool_decide_eq_true; right.
Qed.

Lemma date_name_match (s : string) :
  Application.date_name s = true → Application.date_match s = true.
Proof. intros H. apply date_match_spec. by left. Qed.

Lemma letter_roots_spec (w : World) (r : Path) (ls : list string) (b : bool) :
  Application.letter_roots w r ls b
  = let found := filter (λ p, Fs.exists_ w p = true) ((λ l, r // l) <$> ls) in
    if b then found else if decide (found = []) then [r] else found.
Proof.
  revert b. induction ls as [|l ls IH]; intros b; simpl.
  - by destruct b.
  - rewrite filter_cons. destruct (Fs.exists_ w (r // l)) eqn:E; simpl.
    + rewrite IH. simpl. by destruct b.
    + apply IH.
Qed.

Lemma publish_dirs_spec (w : World) (ps : list Path) :
  Application.publish_dirs w ps
  = filter (λ p, Fs.exists_ w p = true) ((λ p, p // "publish") <$> ps).
Proof.
  induction ps as [|p ps IH]; [done|]. simpl. rewrite filter_cons.
  destruct (Fs.exists_ w (p // "publish")); simpl; by rewrite IH.
Qed.

Lemma iterdir_dir (w : World) (p : Path) :
  Fs.is_dir w p = true → ∃ entries, Fs.iterdir w p = inr entries.
Proof.
  intros Hd. apply is_dir_node in Hd as Hd'. destruct Hd' as (D & t & HD & Hn).
  unfold Fs.iterdir, Fs.stat. rewrite HD. simpl. rewrite Hn. eauto.
Qed.

Lemma roots_spec (w : World) (dirs : list Path) :
  (∀ dir, dir ∈ dirs → Fs.is_dir w dir = true) →
  ∃ rs, Application.roots w dirs = inr rs
        ∧ ∀ r, r ∈ rs ↔ ∃ dir entries,
                 dir ∈ dirs ∧ Fs.iterdir w dir = inr entries ∧ r ∈ entries
                 ∧ Application.date_match (PurePath.name r) = true.
Proof.
  induction dirs as [|dir dirs IH]; intros Hd; simpl.
  - exists []. split; [done|]. intros r. split; [by intros ?%elem_of_nil|].
    by intros (? & ? & ?%elem_of_nil & _).
  - destruct (iterdir_dir w dir) as [entries He]; [apply Hd; left|].
    destruct IH as (rs & Hrs & Hmem); [intros ? ?; apply Hd; by right|].
    rewrite He, Hrs. eexists. split; [done|]. intros r.
    rewrite elem_of_app, list_elem_of_filter, Hmem. split.
    + intros [[Hm Hr]|(dir' & en & Hdir' & Hen & Hr & Hm)].
      * exists dir, entries. split_and!; try done. left.
      * exists dir', en. split_and!; try done. by right.
    + intros (dir' & en & [->|Hdir']%elem_of_cons & Hen & Hr & Hm).
      * left. rewrite He in Hen. by injection Hen as <-.
      * right. eauto 10.
Qed.

(** ** The names of previews *)

Lemma contains_app (pat x y : string) :
  Str.contains pat y = true → Str.contains pat (x +:+ y) = true.
Proof.
  intros H. induction x as [|c x IH]; [done|].
  change (String c x +:+ y) with (String c (x +:+ y)).
  simpl. rewrite IH. apply orb_true_r.
Qed.

Lemma small_name (s : SourceImage) :
  PurePath.name (Source.small s) = PurePath.stem (Source.path s) +:+ "_small.jpg".
Proof. unfold Source.small. apply name_joinpath. Qed.

Lemma small_name_pattern (x : string) : pattern_small (x +:+ "_small.jpg") = true.
Proof. apply contains_app. reflexivity. Qed.

Lemma small_name_proper (x : string) : Fs.special (x +:+ "_small.jpg") = false.
Proof.
  unfold Fs.special. apply bool_decide_eq_false.
  destruct x as [|c [|c' [|c'' x]]]; intros [H|H]; discriminate H.
Qed.

Lemma all_small_names (d : Directory) (w : World) (n : string) :
  n ∈ all_small d w → pattern_small n = true ∧ Fs.special n = false.
Proof.
  unfold all_small, existing_small. rewrite elem_of_list_to_set, list_elem_of_fmap.
  intros (p & -> & Hp). apply list_elem_of_filter in Hp as [_ Hp].
  apply list_elem_of_fmap in Hp as (s & -> & _). rewrite small_name.
  split; [apply small_name_pattern|apply small_name_proper].
Qed.

(** ** Handing previews to a service *)

Lemma resolve_mono (w w' : World) (p : Path) (D : loc) :
  cwd w' = cwd w → nodes w ⊆ nodes w' →
  Fs.resolve w p = Some D → Fs.resolve w' p = Some D.
Proof.
  intros Hcwd Hsub. unfold Fs.resolve, Fs.start. rewrite Hcwd.
  by apply walk_mono.
Qed.

Lemma node_at_mono (m m' : gmap loc node) (l : loc) (x : node) :
  m ⊆ m' → Fs.node_at m l = Some x → Fs.node_at m' l = Some x.
Proof.
  intros Hsub. unfold Fs.node_at. destruct l; [done|].
  intros H. by apply (lookup_weaken _ _ _ _ H Hsub).
Qed.

Lemma exists_mono (w w' : World) (p : Path) :
  cwd w' = cwd w → nodes w ⊆ nodes w' →
  Fs.exists_ w p = true → Fs.exists_ w' p = true.
Proof.
  intros Hcwd Hsub. unfold Fs.exists_, Fs.stat.
  destruct (Fs.resolve w p) as [D|] eqn:E; [|done]. simpl.
  rewrite (resolve_mono _ _ _ _ Hcwd Hsub E). simpl.
  destruct (Fs.node_at (nodes w) D) as [x|] eqn:E'; [|done].
  by rewrite (node_at_mono _ _ _ _ Hsub E').
Qed.

Lemma is_dir_mono (w w' : World) (p : Path) :
  cwd w' = cwd w → nodes w ⊆ nodes w' →
  Fs.is_dir w p = true → Fs.is_dir w' p = true.
Proof.
  intros Hcwd Hsub. rewrite !is_dir_node. intros (D & t & HD & Hn).
  exists D, t. split; [by apply (resolve_mono w)|by apply (node_at_mono (nodes w))].
Qed.

Lemma add_new_small_files_dir (sd : Path) (names : list string) (w : World)
    (D : loc) (t : Z) :
  Fs.resolve w sd = Some D → Fs.node_at (nodes w) D = Some (Dir t) →
  NoDup names →
  (∀ n, n ∈ names → Fs.special n = false ∧ nodes w !! (D ++ [n]) = None) →
  ∃ w', for_each names (add_new_small_file sd) w = Ok () w'
        ∧ cwd w' = cwd w ∧ clock w' = clock w ∧ nodes w ⊆ nodes w'
        ∧ ∀ l, nodes w' !! l = with_links D names (nodes w) l.
Proof.
  revert w. induction names as [|n names IH]; intros w HD Hn Hnd Hnames.
  - exists w. split_and!; try done. 
  - apply NoDup_cons in Hnd as [Hn_notin Hnd].
    destruct (Hnames n) as [Hsp Hfree]; [left|].
    set (w0 := emit (LogAddingLink n (PurePath.name sd)) w).
    set (w1 := set_nodes w0 (<[D ++ [n] := Symlink (PurePath.dotdot // n)]> (nodes w))).
    assert (Hstep : add_new_small_file sd n w = Ok () w1).
    { unfold add_new_small_file, mbind, M_bind, tell, act, Fs.symlink_to.
      erewrite (create_new w0 (sd // n) D n); [done| |done|done].
      by apply (locate_child w0 sd n D t). }
    assert (Hsub : nodes w ⊆ nodes w1) by by apply insert_subseteq.
    destruct (IH w1) as (w' & Hrun & Hcwd & Hclock & Hsub' & Hnodes); [| |done| |].
    { by apply (resolve_mono w). }
    { by apply (node_at_mono (nodes w)). }
    { intros n' Hn'. destruct (Hnames n') as [Hsp' Hfree']; [by right|].
      split; [done|]. simpl. rewrite lookup_insert_ne; [done|].
      intros [= ->]%app_inv_head. done. }
    exists w'. split_and!; try done.
    + simpl. by rewrite (bind_Ok _ _ _ _ _ Hstep).
    + by transitivity (nodes w1).
    + intros l. rewrite Hnodes. unfold with_links. rewrite fmap_cons.
      destruct (decide (l = D ++ [n])) as [->|Hne].
      * rewrite (bool_decide_eq_true_2 (_ ∈ _ :: _)) by left.
        destruct (bool_decide _); [done|]. simpl.
        by rewrite lookup_insert_eq, last_last.
      * rewrite (bool_decide_ext (l ∈ (D ++ [n]) :: _)
                   (l ∈ (λ n0, D ++ [n0]) <$> names))
          by (rewrite elem_of_cons; intuition congruence).
        destruct (bool_decide _); [done|]. simpl. by rewrite lookup_insert_ne.
Qed.

Lemma has_entry_glob (w : World) (p : Path) (n : string) (pat : string → bool) :
  n ∈ PurePath.name <$> Fs.glob w p pat ↔ pat n = true ∧ has_entry w p n.
Proof.
  rewrite list_elem_of_fmap. setoid_rewrite elem_of_glob. unfold has_entry. split.
  - intros (q & -> & D & n' & Hd & HD & -> & Hp & Hn). rewrite name_joinpath. eauto.
  - intros (Hp & D & Hd & HD & Hn). exists (p // n). rewrite name_joinpath.
    split; [done|]. exists D, n. done.
Qed.

(** The names a service has under management: those matching the pattern
    among the entries of its directory and of its [published] child. *)
Lemma managed_small_spec (w : World) (sd : Path) (n : string) :
  n ∈ managed_small w sd
  ↔ pattern_small n = true
    ∧ (has_entry w sd n ∨ has_entry w (sd // "published") n).
Proof.
  unfold managed_small.
  destruct (Fs.exists_ w (sd // "published")) eqn:E.
  - rewrite elem_of_union, !elem_of_list_to_set, !has_entry_glob. tauto.
  - rewrite elem_of_list_to_set, has_entry_glob. split; [tauto|].
    intros [Hp [H|(D & Hd%is_dir_exists & _)]]; [done|congruence].
Qed.

Lemma has_entry_mono (w w' : World) (p : Path) (n : string) :
  cwd w' = cwd w → nodes w ⊆ nodes w' →
  has_entry w p n → has_entry w' p n.
Proof.
  intros Hcwd Hsub (D & Hd & HD & [x Hx]). exists D. split_and!.
  - by apply (is_dir_mono w).
  - by apply (resolve_mono w).
  - exists x. by apply (lookup_weaken _ _ _ _ Hx Hsub).
Qed.

Lemma managed_small_mono (w w' : World) (sd : Path) :
  cwd w' = cwd w → nodes w ⊆ nodes w' →
  managed_small w sd ⊆ managed_small w' sd.
Proof.
  intros Hcwd Hsub n. rewrite !managed_small_spec.
  intros [Hp [H|H]]; (split; [done|]); [left|right]; by apply (has_entry_mono w).
Qed.

Lemma locate_not_dir (w : World) (p : Path) (n : string) :
  Fs.exists_ w p = true → Fs.is_dir w p = false →
  Fs.locate w (p // n) = inl NotADirectoryError.
Proof.
  unfold Fs.exists_, Fs.is_dir, Fs.stat, Fs.locate.
  pose proof (parts_joinpath_nonempty p n) as Hne.
  destruct (parts (p // n)) eqn:Ep; [done|].
  rewrite parent_joinpath.
  destruct (Fs.resolve w p) as [D|]; [|done]. simpl.
  by destruct (Fs.node_at (nodes w) D) as [[]|].
Qed.

Lemma add_new_small_file_not_dir (sd : Path) (n : string) (w : World) :
  Fs.exists_ w sd = true → Fs.is_dir w sd = false →
  add_new_small_file sd n w
  = Raise NotADirectoryError (emit (LogAddingLink n (PurePath.name sd)) w).
Proof.
  intros Hex Hdir.
  pose proof (locate_not_dir (emit (LogAddingLink n (PurePath.name sd)) w) sd n
                Hex Hdir) as Hloc.
  unfold add_new_small_file, mbind, M_bind, tell, act, Fs.symlink_to, Fs.create.
  by rewrite Hloc.
Qed.

Lemma add_new_small_files_round (d : Directory) (all : gset string)
    (subdir : string) (w : World) :
  (∀ n, n ∈ all → pattern_small n = true ∧ Fs.special n = false) →
  round_outcome d all subdir w (add_new_small_files_for d all subdir w).
Proof.
  intros Hall. unfold round_outcome, add_new_small_files_for, new_small_images_for.
  unfold mbind at 1, M_bind at 1, gets at 1.
  set (sd := rootdir d // subdir).
  destruct (Fs.exists_ w sd) eqn:Hex; simpl.
  2: { split_and!; try done. intros l Hl [x Hx]. congruence. }
  case_bool_decide as Hnew; simpl.
  2: { split_and!; try done. intros l Hl [x Hx]. congruence. }
  set (new := all ∖ managed_small w sd) in *.
  destruct (Fs.is_dir w sd) eqn:Hdir.
  - apply is_dir_node in Hdir as Hdir'. destruct Hdir' as (D & t & HD & Ht).
    destruct (add_new_small_files_dir sd (elements new) w D t)
      as (w' & Hrun & Hcwd & Hclock & Hsub & Hnodes); try done.
    { apply NoDup_elements. }
    { intros n [Hn Hm]%elem_of_elements%elem_of_difference.
      split; [by apply Hall|].
      destruct (nodes w !! (D ++ [n])) as [x|] eqn:E; [|done].
      exfalso. apply Hm. apply managed_small_spec. split; [by apply Hall|].
      left. exists D. eauto. }
    rewrite Hrun. split_and!; try done.
    intros l Hl [x Hx]. rewrite Hnodes in Hx. unfold with_links in Hx.
    case_bool_decide as Hin; [|congruence].
    apply list_elem_of_fmap in Hin as (n & -> & Hn).
    apply elem_of_elements, elem_of_difference in Hn as [Hn Hm].
    exists D, n. split_and!; try done.
    rewrite Hnodes. unfold with_links.
    rewrite bool_decide_eq_true_2; [by rewrite last_last|].
    apply list_elem_of_fmap. exists n. split; [done|]. apply elem_of_elements.
    by apply elem_of_difference.
  - destruct (elements new) as [|n names] eqn:Hel.
    { apply elements_empty_inv in Hel. apply leibniz_equiv in Hel. done. }
    simpl. by rewrite (bind_Raise _ _ _ _ _ (add_new_small_file_not_dir sd n w Hex Hdir)).
Qed.

Lemma add_new_small_files_outcome (d : Directory) (w : World) :
  distribution_outcome d w (add_new_small_files d w).
Proof.
  unfold add_new_small_files. unfold mbind at 1, M_bind at 1, gets at 1.
  set (all := all_small d w).
  set (inv := λ w', distribution_outcome d w (Ok () w')).
  assert (Hall : ∀ n, n ∈ all → pattern_small n = true ∧ Fs.special n = false)
    by apply all_small_names.
  assert (Hinv0 : inv w).
  { unfold inv, distribution_outcome. split_and!; try done.
    intros l Hl [x Hx]. rewrite Hl in Hx. discriminate Hx. }
  assert (Hstep : ∀ subdir w1 w2, subdir ∈ known_subdirs d → inv w1 →
            add_new_small_files_for d all subdir w1 = Ok () w2 → inv w2).
  { intros subdir w1 w2 Hsub (Hcwd & Hclock & Hincl & Hnew) Hrun.
    pose proof (add_new_small_files_round d all subdir w1 Hall) as Hr.
    rewrite Hrun in Hr. destruct Hr as (Hcwd' & Hclock' & Hincl' & Hnew').
    unfold inv, distribution_outcome.
    split; [by rewrite Hcwd'|]. split; [by rewrite Hclock'|].
    split; [by transitivity (nodes w1)|].
    intros l Hl Hl2.
    destruct (nodes w1 !! l) as [x|] eqn:E1.
    - destruct (Hnew l Hl) as (sub0 & D & n & Hs0 & HD & -> & Hx & Hn & Hm); [eauto|].
      exists sub0, D, n.
      split; [exact Hs0|]. split; [by apply (resolve_mono w1)|].
      split; [reflexivity|].
      split; [exact (lookup_weaken _ _ _ _ Hx Hincl')|].
      split; [exact Hn|exact Hm].
    - destruct (Hnew' l E1 Hl2) as (D & n & HD & -> & Hx & Hn & Hm).
      exists subdir, D, n.
      split; [exact Hsub|]. split; [by apply (resolve_mono w1)|].
      split; [reflexivity|]. split; [exact Hx|]. split; [exact Hn|].
      intros Hin. apply Hm. by apply (managed_small_mono w w1). }
  destruct (for_each (known_subdirs d) (add_new_small_files_for d all) w)
    as [[] w'|e w'] eqn:Hrun.
  - by apply (for_each_Ok inv _ _ _ _ Hstep Hinv0 Hrun).
  - destruct (for_each_Raise inv _ _ _ _ _ Hstep Hinv0 Hrun) as (subdir & w1 & _ & _ & Hr).
    pose proof (add_new_small_files_round d all subdir w1 Hall) as Hr'.
    rewrite Hr in Hr'. by destruct Hr' as [-> _].
Qed.

Lemma add_missing_subdir_cases (d : Directory) (subdir : string) (w : World) :
  add_missing_subdir d subdir w
  = let path := rootdir d // subdir in
    let pub := path // "published" in
    let make := λ p, tell (LogAddingDirectory p);; act (Fs.mkdir p) in
    if Fs.exists_ w path
    then if Fs.exists_ w pub then Ok () w else make pub w
    else (make path;;
          e ← gets (λ w, Fs.exists_ w pub);
          when (negb e) (make pub)) w.
Proof.
  unfold add_missing_subdir. cbv zeta.
  unfold mbind at 1, M_bind at 1, gets at 1.
  destruct (Fs.exists_ w (rootdir d // subdir)) eqn:E; simpl; [|done].
  unfold mbind at 1, M_bind at 1, mret at 1, M_ret at 1.
  unfold mbind at 1, M_bind at 1, gets at 1.
  by destruct (Fs.exists_ w (rootdir d // subdir // "published")).
Qed.

(** ** What a run does to the links *)

Lemma link_step_refl (w : World) : link_step w w.
Proof. split_and!; eauto. Qed.

Lemma link_step_trans (w1 w2 w3 : World) :
  link_step w1 w2 → link_step w2 w3 → link_step w1 w3.
Proof.
  intros (Hc1 & Hd1 & Hk1 & Hn1) (Hc2 & Hd2 & Hk2 & Hn2). split_and!.
  - by rewrite Hc2.
  - intros l t Hl. destruct (Hd1 l t Hl) as [t' Ht']. by apply (Hd2 l t').
  - intros l t Hl. destruct (Hk1 l t Hl) as (t' & Ht' & H').
    destruct (Hk2 l t' Ht') as (t'' & Ht'' & H''). exists t''. split; [done|].
    destruct H'' as [->|H'']; [done|by right].
  - intros l t Hl. destruct (Hn2 l t Hl) as [H|H]; [|by right].
    apply Hn1 in H. done.
Qed.

Lemma link_step_same_tree (w w' : World) :
  cwd w' = cwd w → nodes w' = nodes w → link_step w w'.
Proof. intros Hc Hn. unfold link_step. rewrite Hc, Hn. split_and!; eauto. Qed.

Lemma locate_name (w : World) (p : Path) (D : loc) (n : string) :
  Fs.locate w p = inr (D, n) → n = PurePath.name p.
Proof.
  unfold Fs.locate. destruct (parts p); [done|].
  destruct (Fs.resolve w (PurePath.parent p)) as [D'|]; [|done].
  destruct (Fs.node_at (nodes w) D') as [[]|]; try done. by intros [= _ <-].
Qed.

(** A new entry. *)
Lemma link_step_insert (w : World) (l : loc) (x : node) :
  nodes w !! l = None →
  (∀ t, x = Symlink t →
        t = PurePath.dotdot // List.last l ""
        ∨ t = PurePath.dotdot // ".." // List.last l "") →
  link_step w (set_nodes w (<[l := x]> (nodes w))).
Proof.
  intros Hfree Hx. split_and!; simpl.
  - done.
  - intros l' t Hl. exists t. rewrite lookup_insert_ne; [done|]. by intros <-; rewrite Hfree in Hl.
  - intros l' t Hl. exists t. split; [|by left].
    rewrite lookup_insert_ne; [done|]. by intros <-; rewrite Hfree in Hl.
  - intros l' t. destruct (decide (l = l')) as [<-|Hne].
    + rewrite lookup_insert_eq. intros [= ->]. right. by apply Hx.
    + rewrite lookup_insert_ne by done. by left.
Qed.

(** A link in the place of an entry that is not a directory. *)
Lemma link_step_replace (w : World) (l : loc) (x : node) (t : Path) :
  nodes w !! l = Some x → (∀ t0, x ≠ Dir t0) → is_absolute t = false →
  t = PurePath.dotdot // List.last l ""
  ∨ t = PurePath.dotdot // ".." // List.last l "" →
  link_step w (set_nodes w (<[l := Symlink t]> (nodes w))).
Proof.
  intros Hx Hnd Hrel Ht. split_and!; simpl.
  - done.
  - intros l' t0 Hl. exists t0. rewrite lookup_insert_ne; [done|].
    intros <-. rewrite Hx in Hl. injection Hl as ->. by destruct (Hnd t0).
  - intros l' t0 Hl. destruct (decide (l = l')) as [<-|Hne].
    + exists t. rewrite lookup_insert_eq. split; [done|by right].
    + exists t0. rewrite lookup_insert_ne by done. split; [done|by left].
  - intros l' t0. destruct (decide (l = l')) as [<-|Hne].
    + rewrite lookup_insert_eq. intros [= <-]. by right.
    + rewrite lookup_insert_ne by done. by left.
Qed.

Lemma link_step_emit_l (e : event) (w w' : World) :
  link_step (emit e w) w' → link_step w w'.
Proof. done. Qed.

Lemma link_step_mkdir (p : Path) (w w' : World) :
  act (Fs.mkdir p) w = Ok () w' → link_step w w'.
Proof.
  unfold act, Fs.mkdir. destruct (Fs.create _ p w) as [e|w1] eqn:E; [done|].
  intros [= <-]. apply create_inv in E as (D & n & _ & _ & Hfree & ->).
  by apply link_step_insert.
Qed.

Lemma link_step_symlink_up1 (p : Path) (w w' : World) :
  act (Fs.symlink_to p (PurePath.dotdot // PurePath.name p)) w = Ok () w' →
  link_step w w'.
Proof.
  unfold act, Fs.symlink_to. destruct (Fs.create _ p w) as [e|w1] eqn:E; [done|].
  intros [= <-]. apply create_inv in E as (D & n & Hloc & _ & Hfree & ->).
  apply link_step_insert; [done|]. intros t [= <-]. left.
  by rewrite last_last, (locate_name _ _ _ _ Hloc).
Qed.

Lemma link_step_replace_link (p t : Path) (w w' : World) :
  t = PurePath.dotdot // PurePath.name p
  ∨ t = PurePath.dotdot // ".." // PurePath.name p →
  replace_link p t w = Ok () w' → link_step w w'.
Proof.
  intros Ht (D & n & x & Hloc & _ & Hx & Hnd & ->)%replace_link_Ok.
  apply (link_step_replace w _ x); try done.
  - by destruct Ht as [-> | ->].
  - rewrite last_last, (locate_name _ _ _ _ Hloc). done.
Qed.

(** ** Path arithmetic *)

Lemma length_substring (s : string) (i n : nat) :
  (i + n ≤ String.length s)%nat → String.length (substring i n s) = n.
Proof.
  revert i n. induction s as [|c s IH]; intros [|i] [|n] H; simpl in *;
    try reflexivity; try lia.
  - rewrite IH; lia.
  - apply IH. lia.
  - apply IH. lia.
Qed.

Lemma suffix_dot_bounds (nm : string) (i : nat) :
  PurePath.suffix_dot nm = Some i → (0 < i < String.length nm - 1)%nat.
Proof.
  unfold PurePath.suffix_dot. destruct (Str.rfind "." nm) as [j|]; [|done].
  destruct (Nat.ltb_spec 0 j), (Nat.ltb_spec j (String.length nm - 1));
    simpl; intros [= <-]; lia.
Qed.

(** [with_suffix] keeps the stem: the new name is the stem followed by the
    new suffix, beside the old entry. *)
Lemma with_suffix_stem (p : Path) (s : string) :
  PurePath.name p ≠ "" →
  PurePath.with_suffix p s
  = Some (PurePath.parent p // (PurePath.stem p +:+ s)).
Proof.
  intros Hname. unfold PurePath.with_suffix, PurePath.suffix, PurePath.stem.
  destruct (decide (PurePath.name p = "")) as [|_]; [done|].
  destruct (PurePath.suffix_dot (PurePath.name p)) as [i|] eqn:Hdot.
  - apply suffix_dot_bounds in Hdot.
    assert (Hlen : String.length
              (substring i (String.length (PurePath.name p) - i) (PurePath.name p))
            = (String.length (PurePath.name p) - i)%nat)
      by (apply length_substring; lia).
    destruct (decide (substring i _ _ = "")) as [E|_].
    + rewrite E in Hlen. simpl in Hlen. lia.
    + rewrite Hlen.
      replace (String.length (PurePath.name p)
               - (String.length (PurePath.name p) - i))%nat with i by lia.
      reflexivity.
  - destruct (decide ("" = "")); [reflexivity|done].
Qed.

Lemma source_with_suffix (p : Path) (s : string) :
  PurePath.name p ≠ "" →
  Source.with_suffix p s = inr (PurePath.parent p // (PurePath.stem p +:+ s)).
Proof.
  intros H. unfold Source.with_suffix. by rewrite with_suffix_stem.
Qed.

(** A classified entry has a suffix, hence a name. *)
Lemma suffix_name (p : Path) : PurePath.suffix p ≠ "" → PurePath.name p ≠ "".
Proof.
  unfold PurePath.suffix. intros H E. rewrite E in H. by apply H.
Qed.


(** ** C6: classification *)

Ltac mem := rewrite ?elem_of_cons, ?elem_of_nil in *.
(** C6. [classify] answers raw-source exactly for a symbolic link whose
    suffix, lowercased, is [.nef] or [.cr3], jpeg-source exactly for a
    symbolic link whose suffix, lowercased, is [.jpg] or [.jpeg], and
    not-a-source for everything else, plain files and directories among
    them. The answer depends on the name through the lowercased suffix
    alone, and computing it leaves the world as it was. *)
Theorem classify_total (w : World) (p : Path) :
  let ext := Str.lower (PurePath.suffix p) in
  (classify w p = Some SOURCE_RAW
   ↔ Fs.is_symlink w p = true ∧ ext ∈ [".nef"; ".cr3"])
  ∧ (classify w p = Some SOURCE_JPEG
     ↔ Fs.is_symlink w p = true ∧ ext ∈ [".jpg"; ".jpeg"])
  ∧ (classify w p = None
     ↔ ¬ (Fs.is_symlink w p = true
          ∧ ext ∈ [".nef"; ".cr3"; ".jpg"; ".jpeg"]))
  ∧ (∀ t, Fs.entry w p = Some (File t) → classify w p = None)
  ∧ (∀ t, Fs.entry w p = Some (Dir t) → classify w p = None)
  ∧ (∀ q, Fs.is_symlink w q = Fs.is_symlink w p →
          Str.lower (PurePath.suffix q) = ext → classify w q = classify w p)
  ∧ gets (λ w', classify w' p) w = Ok (classify w p) w.
Proof.
  intros ext. unfold classify. fold ext. generalize ext. clear ext. intros ext.
  split_and!.
  - destruct (Fs.is_symlink w p); repeat case_bool_decide; mem; intuition (subst; congruence).
  - destruct (Fs.is_symlink w p); repeat case_bool_decide; mem; intuition (subst; congruence).
  - destruct (Fs.is_symlink w p); repeat case_bool_decide; mem; intuition (subst; congruence).
  - intros t H. unfold Fs.is_symlink. by rewrite H.
  - intros t H. unfold Fs.is_symlink. by rewrite H.
  - intros q Hl He. rewrite Hl, He. reflexivity.
  - reflexivity.
Qed.

(** ** C7: the large and the small image of a source *)

(** C7. For a raw source, [large] is the entry beside it with the same stem
    and the first of the suffixes [.JPG], [.jpg] that exists, and the
    [.JPG] one when neither does; for a jpeg source it is the first
    existing [<stem>_processed.<ext>] beside it, [ext] tried in the order
    jpg, JPG, jpeg, JPEG, and the source itself when there is none; [small]
    is [<stem>_small.jpg] beside the source for both. *)
Theorem large_small_paths (w : World) (p : Path) :
  PurePath.name p ≠ "" →
  let sibling := λ n, PurePath.parent p // n in
  let stem := PurePath.stem p in
  Source.large w (RawSourceImage p)
  = inr (if Fs.exists_ w (sibling (stem +:+ ".JPG"))
         then sibling (stem +:+ ".JPG")
         else if Fs.exists_ w (sibling (stem +:+ ".jpg"))
              then sibling (stem +:+ ".jpg")
              else sibling (stem +:+ ".JPG"))
  ∧ Source.large w (JpegSourceImage p)
    = inr (default p
             (List.find (Fs.exists_ w)
                ((λ ext, sibling (stem +:+ "_processed." +:+ ext))
                   <$> ["jpg"; "JPG"; "jpeg"; "JPEG"])))
  ∧ Source.small (RawSourceImage p) = sibling (stem +:+ "_small.jpg")
  ∧ Source.small (JpegSourceImage p) = sibling (stem +:+ "_small.jpg").
Proof.
  intros Hname sibling stem. split_and!; [| |reflexivity..].
  - unfold Source.large, Source.raw_large.
    rewrite !source_with_suffix by done. fold stem. fold (sibling (stem +:+ ".JPG")).
    fold (sibling (stem +:+ ".jpg")).
    destruct (Fs.exists_ w (sibling (stem +:+ ".JPG"))); [done|].
    destruct (Fs.exists_ w (sibling (stem +:+ ".jpg"))); done.
  - unfold Source.large, Source.jpeg_large, Source.processed. fold stem. simpl.
    fold (sibling (stem +:+ "_processed." +:+ "jpg")).
    fold (sibling (stem +:+ "_processed." +:+ "JPG")).
    fold (sibling (stem +:+ "_processed." +:+ "jpeg")).
    fold (sibling (stem +:+ "_processed." +:+ "JPEG")).
    repeat match goal with |- context [Fs.exists_ w ?q] => destruct (Fs.exists_ w q); [done|] end.
    done.
Qed.

Lemma large_small_paths_witness :
  let p := Examples.workdir // "DSC_0001.NEF" in
  PurePath.name p ≠ ""
  ∧ Source.large Examples.settled (RawSourceImage p)
    = inr (Examples.workdir // "DSC_0001.JPG")
  ∧ Source.small (RawSourceImage p) = Examples.workdir // "DSC_0001_small.jpg".
Proof.
  split; [done|].
  destruct (large_small_paths Examples.settled (Examples.workdir // "DSC_0001.NEF"))
    as (Hraw & _ & Hsmall & _); [done|].
  split; [rewrite Hraw; vm_compute; reflexivity | rewrite Hsmall; reflexivity].
Defined.

(** ** C10: listing what a service has not published *)

(** C10. [action_not_published] for a service whose directory is not there
    returns at once: nothing printed, nothing raised, the world as it was.
    When the directory is there it prints, once each, exactly the entries
    of that directory that are symbolic links; an entry of its [published]
    child is never printed. *)
Theorem not_published_prints (d : Directory) (service : string) (w : World) :
  let dir := rootdir d // service in
  ∃ printed,
    action_not_published d service w
    = Ok () (with_trace w (trace w ++ (Print <$> printed)))
    ∧ NoDup printed
    ∧ (∀ q, q ∈ printed
            ↔ ∃ D n t, Fs.is_dir w dir = true ∧ Fs.resolve w dir = Some D
                       ∧ q = dir // n ∧ Fs.special n = false
                       ∧ nodes w !! (D ++ [n]) = Some (Symlink t))
    ∧ (∀ x, dir // "published" // x ∉ printed)
    ∧ (Fs.exists_ w dir = false →
       printed = [] ∧ action_not_published d service w = Ok () w).
Proof.
  intros dir. unfold action_not_published. fold dir.
  unfold mbind at 1, M_bind at 1, gets at 1.
  assert (Hmem : ∀ q, q ∈ filter (λ p, Fs.is_symlink w p = true) (Fs.glob w dir pattern_any)
            ↔ ∃ D n t, Fs.is_dir w dir = true ∧ Fs.resolve w dir = Some D
                       ∧ q = dir // n ∧ Fs.special n = false
                       ∧ nodes w !! (D ++ [n]) = Some (Symlink t)).
  { intros q. rewrite list_elem_of_filter, elem_of_glob. split.
    - intros (Hl & D & n & Hd & HD & -> & _ & Hn).
      apply is_symlink_locate in Hl as (D' & n' & t & Hloc & Hs & Hnode).
      apply is_dir_node in Hd as Hd'. destruct Hd' as (D'' & t' & HD' & Hnd).
      rewrite HD in HD'. injection HD' as <-.
      rewrite (locate_child w dir n D t') in Hloc by done.
      injection Hloc as <- <-. eauto 10.
    - intros (D & n & t & Hd & HD & -> & Hs & Hnode). split.
      + apply is_symlink_locate. apply is_dir_node in Hd as (D' & t' & HD' & Hnd).
        rewrite HD in HD'. injection HD' as <-.
        exists D, n, t. by rewrite (locate_child w dir n D t').
      + exists D, n. by rewrite Hnode. }
  destruct (Fs.exists_ w dir) eqn:He; simpl.
  - exists (filter (λ p, Fs.is_symlink w p = true) (Fs.glob w dir pattern_any)).
    split_and!.
    + unfold mbind at 1, M_bind at 1, gets at 1.
      by rewrite (print_loop Fs.is_symlink).
    + apply NoDup_filter, NoDup_glob.
    + apply Hmem.
    + intros x (D & n & t & _ & _ & Heq & _)%Hmem.
      apply (f_equal parts) in Heq. simpl in Heq.
      rewrite <- app_assoc in Heq. apply app_inv_head in Heq. done.
    + done.
  - exists []. split_and!.
    + by rewrite with_trace_id.
    + constructor.
    + intros q. split; [by intros ?%elem_of_nil|].
      intros (D & n & t & Hd%is_dir_exists & _). congruence.
    + intros x. apply not_elem_of_nil.
    + intros _. split; [reflexivity|].
      unfold mbind, M_bind, gets. by rewrite He.
Qed.

(** ** C5: fresh previews *)

Section Freshness.
Variable os_system : command → World → World * Z.

(** One round of [__create_missing_small_images], case by case. *)
Lemma create_missing_small_image_cases (source : SourceImage) (w : World) :
  create_missing_small_image os_system source w
  = match Source.large w source with
    | inl e => Raise e w
    | inr large =>
        let small := Source.small source in
        if Fs.exists_ w large then
          match small_image_action w large small with
          | inl e => Raise e w
          | inr None => Ok () w
          | inr (Some a) =>
              let cmd := ConvertResize large SMALL_JPEG_WIDTH small in
              let w0 := emit (log_action a small large) w in
              let w2 := outside w0 (os_system cmd w0).1 (System cmd) in
              let ret := (os_system cmd w0).2 in
              Ok () (if ret =? 0 then w2 else emit (LogError cmd ret) w2)
          end
        else Ok () w
    end.
Proof.
  unfold create_missing_small_image, mbind, M_bind, ask, gets, tell, system, when.
  destruct (Source.large w source) as [e|large]; [done|].
  destruct (Fs.exists_ w large); [|done]. simpl.
  destruct (small_image_action w large (Source.small source)) as [e|[a|]]; try done.
  unfold log_action, SMALL_JPEG_WIDTH.
  destruct (os_system _ _) as [w1 ret]. simpl.
  by destruct (ret =? 0).
Qed.

(** The rounds of a loop, one after the other. *)
Lemma for_each_app {A} (l1 l2 : list A) (body : A → M unit) (w : World) :
  for_each (l1 ++ l2) body w = (for_each l1 body;; for_each l2 body) w.
Proof.
  revert w. induction l1 as [|x l1 IH]; intros w; [done|].
  cbn [app for_each]. unfold mbind, M_bind.
  destruct (body x w) as [[] w1|e w1]; [|done]. apply IH.
Qed.

(** C5. In the step [__create_missing_small_images], when the turn of a
    source comes whose large image exists: if the small one is missing
    the converter is run to make it; if the small one exists and its
    modification time is strictly before the large one's, the converter
    is run to make it again; if it is the same or later, nothing is
    done. The converter is run once, on the large and the small path
    with the width 1024; its failure is logged, not raised, and in every
    case the step goes on with the sources that follow. *)
Theorem preview_freshness (d : Directory) (before after : list SourceImage)
    (source : SourceImage) (w w1 : World) (large : Path) :
  sources d = before ++ source :: after →
  for_each before (create_missing_small_image os_system) w = Ok () w1 →
  Source.large w1 source = inr large →
  Fs.exists_ w1 large = true →
  let small := Source.small source in
  let cmd := ConvertResize large SMALL_JPEG_WIDTH small in
  let rest := for_each after (create_missing_small_image os_system) in
  let invoked := λ (ev : event),
    ∃ w' ret w2,
      os_system cmd (emit ev w1) = (w', ret)
      ∧ cwd w2 = cwd w1 ∧ nodes w2 = nodes w' ∧ clock w2 = clock w'
      ∧ trace w2 = trace w1 ++ [ev; System cmd]
                   ++ (if ret =? 0 then [] else [LogError cmd ret])
      ∧ create_missing_small_images os_system d w = rest w2 in
  (Fs.exists_ w1 small = false → invoked (LogCreating small large))
  ∧ (∀ ts tl,
       Fs.exists_ w1 small = true →
       Fs.st_mtime w1 small = inr ts → Fs.st_mtime w1 large = inr tl →
       (ts < tl → invoked (LogUpdating small large))
       ∧ (tl ≤ ts → create_missing_small_images os_system d w = rest w1)).
Proof.
  intros Hd Hbefore Hlarge Hex small cmd rest invoked.
  assert (Hstep : ∀ w2, create_missing_small_image os_system source w1 = Ok () w2 →
            create_missing_small_images os_system d w = rest w2).
  { intros w2 Hround. unfold create_missing_small_images.
    rewrite Hd, for_each_app. rewrite (bind_Ok _ _ _ _ _ Hbefore).
    cbn [for_each]. by rewrite (bind_Ok _ _ _ _ _ Hround). }
  assert (Hbody : ∀ a, small_image_action w1 large small = inr (Some a) →
            invoked (log_action a small large)).
  { intros a Ha. unfold invoked.
    pose proof (create_missing_small_image_cases source w1) as Hround.
    rewrite Hlarge, Hex in Hround. cbv zeta in Hround.
    fold small in Hround. rewrite Ha in Hround. fold cmd in Hround.
    destruct (os_system cmd (emit (log_action a small large) w1)) as [w' ret].
    exists w', ret. eexists. split; [reflexivity|].
    split_and!; [..|by apply Hstep]; simpl.
    - by destruct (ret =? 0).
    - by destruct (ret =? 0).
    - by destruct (ret =? 0).
    - destruct (ret =? 0); simpl; by rewrite <- ?app_assoc. }
  split.
  - intros Hs. apply (Hbody CREATE). unfold small_image_action. by rewrite Hs.
  - intros ts tl Hs Hts Htl. split.
    + intros Hlt. apply (Hbody UPDATE). unfold small_image_action.
      rewrite Hs, Hts, Htl. by rewrite (proj2 (Z.ltb_lt ts tl)).
    + intros Hle. apply Hstep.
      rewrite create_missing_small_image_cases, Hlarge, Hex.
      cbv zeta. fold small. unfold small_image_action. rewrite Hs, Hts, Htl.
      by rewrite (proj2 (Z.ltb_ge ts tl)).
Qed.
End Freshness.

Lemma preview_freshness_witness :
  let d := new_Directory Examples.workdir ["web"] Examples.repaired in
  let source := JpegSourceImage (Examples.workdir // "DSC_0002.JPG") in
  let large := Examples.workdir // "DSC_0002.JPG" in
  let small := Examples.workdir // "DSC_0002_small.jpg" in
  let cmd := ConvertResize large 1024 small in
  sources d = [] ++ source :: []
  ∧ Source.large Examples.repaired source = inr large
  ∧ Fs.exists_ Examples.repaired large = true
  ∧ ∃ w' ret w2,
      Examples.convert_writes cmd (emit (LogCreating small large) Examples.repaired)
      = (w', ret)
      ∧ nodes w2 = nodes w'
      ∧ create_missing_small_images Examples.convert_writes d Examples.repaired
        = Ok () w2.
Proof.
  intros d source large small cmd.
  assert (H0 : sources d = [] ++ source :: []) by (vm_compute; reflexivity).
  assert (H1 : Source.large Examples.repaired source = inr large)
    by (vm_compute; reflexivity).
  assert (H2 : Fs.exists_ Examples.repaired large = true)
    by (vm_compute; reflexivity).
  split; [exact H0|]. split; [exact H1|]. split; [exact H2|].
  destruct (preview_freshness Examples.convert_writes d [] [] source
              Examples.repaired Examples.repaired large H0 eq_refl H1 H2)
    as [Hcreate _].
  destruct Hcreate as (w' & ret & w2 & Hsys & _ & Hnodes & _ & _ & Hrun);
    [vm_compute; reflexivity|].
  exists w', ret, w2. split; [exact Hsys|]. split; [exact Hnodes|exact Hrun].
Defined.

(** ** C8: repairing the source links *)

(** C8. In the source-link repair step over the snapshot of a working
    directory (given by a path without links), every source whose link has
    an absolute target is given the target [../<name>] under the same name,
    and a source whose link is relative is passed over: the world is left
    as it was, whatever the target is. Nothing else in the tree changes. *)
Theorem source_links_repaired (root : Path) (subs : list string) (w : World) :
  Fs.real w root = true →
  let d := new_Directory root subs w in
  let newlink := λ s, PurePath.dotdot // PurePath.name (Source.path s) in
  (∀ s link, Fs.readlink w (Source.path s) = inr link →
             is_absolute link = false →
             fixup_source_photos_link s w = Ok () w)
  ∧ ∃ w',
      fixup_source_photos_links d w = Ok () w'
      ∧ (∀ s, s ∈ sources d →
           ∃ link, Fs.readlink w (Source.path s) = inr link
                   ∧ Fs.readlink w' (Source.path s)
                     = inr (if is_absolute link then newlink s else link))
      ∧ (∀ l, nodes w' !! l
              = repaired_node
                  ((λ s, Fs.start w root ++ parts root
                         ++ [PurePath.name (Source.path s)]) <$> sources d)
                  l (nodes w !! l)).
Proof.
  intros Hreal d newlink. split.
  - intros s link Hrl Habs. rewrite fixup_source_photos_link_cases. cbv zeta.
    by rewrite Hrl, Habs.
  - destruct (fixup_source_links_run root (sources d) w Hreal)
      as (w' & Hrun & Hk & _ & Hnodes).
    { intros s Hs. destruct (sources_links w root subs s Hreal Hs)
        as (n & t & Hp & Hsp & Hn). exists n, t. by rewrite <- app_assoc. }
    exists w'. split; [exact Hrun|]. split.
    + intros s Hs.
      destruct (sources_links w root subs s Hreal Hs) as (n & t & Hp & Hsp & Hn).
      exists t. split.
      * apply readlink_locate. exists (Fs.start w root ++ parts root), n.
        rewrite Hp, (locate_real _ _ _ Hreal). by rewrite <- app_assoc.
      * apply readlink_locate. exists (Fs.start w' root ++ parts root), n.
        rewrite Hp, (locate_real _ _ _ (real_keep _ _ _ Hk Hreal)).
        split; [done|]. split; [done|].
        replace (Fs.start w' root) with (Fs.start w root)
          by (unfold Fs.start; by rewrite (proj1 Hk)).
        rewrite Hnodes, <- app_assoc, Hn. unfold repaired_node.
        destruct (is_absolute t); [|done].
        rewrite bool_decide_eq_true_2.
        -- simpl. rewrite app_assoc, last_last. unfold newlink.
           by rewrite Hp, name_joinpath.
        -- apply list_elem_of_fmap. exists s. split; [|done].
           by rewrite Hp, name_joinpath, <- app_assoc.
    + intros l. rewrite Hnodes. f_equal. apply list_fmap_ext.
      intros _ s _. by rewrite <- app_assoc.
Qed.

Lemma source_links_repaired_witness :
  Fs.real Examples.moved Examples.workdir = true
  ∧ ∃ w',
      fixup_source_photos_links
        (new_Directory Examples.workdir ["web"] Examples.moved) Examples.moved
      = Ok () w'
      ∧ nodes w' !! (Examples.publish ++ ["DSC_0002.JPG"])
        = Some (Symlink (Examples.up1 "DSC_0002.JPG")).
Proof.
  assert (H : Fs.real Examples.moved Examples.workdir = true)
    by (vm_compute; reflexivity).
  split; [exact H|].
  destruct (source_links_repaired Examples.workdir ["web"] Examples.moved H)
    as (_ & w' & Hrun & _ & Hnodes).
  exists w'. split; [exact Hrun|]. rewrite Hnodes. vm_compute. reflexivity.
Defined.

(** ** C9: finding the working directories *)

(** The pattern of the program takes a date followed by one newline for a
    date as well. *)
Example date_match_newline :
  Application.date_match ("2022-01-01" +:+ Application.newline) = true
  ∧ Application.date_name ("2022-01-01" +:+ Application.newline) = false.
Proof. split; vm_compute; reflexivity. Qed.

(** C9. When the directories to scan (the month directories [01] to [12]
    that exist, or else the path itself) are directories, discovery visits
    the entries whose name the date pattern takes, every entry named
    YYYY-MM-DD among them, in the sorted order of their paths; for each it
    yields the parts [a] to [h] that exist, or the entry itself when none
    does; and of what it yields, [workdirs] hands out the [publish]
    directory exactly where that exists. *)
Theorem workdir_discovery (w : World) (path : Path) :
  (∀ dir, dir ∈ Application.month_workdirs w path → Fs.is_dir w dir = true) →
  let there := λ p, Fs.exists_ w p = true in
  let buckets := filter there ((λ month, path // month) <$> Application.months) in
  let scanned := if decide (buckets = []) then [path] else buckets in
  let dated := λ r, ∃ dir entries,
    dir ∈ scanned ∧ Fs.iterdir w dir = inr entries ∧ r ∈ entries
    ∧ Application.date_match (PurePath.name r) = true in
  let subroots := λ r,
    let lettered := filter there ((λ letter, r // letter) <$> Application.letters) in
    if decide (lettered = []) then [r] else lettered in
  ∃ rs,
    StronglySorted PathOrder.path_le rs
    ∧ (∀ r, r ∈ rs ↔ dated r)
    ∧ (∀ dir entries r,
         dir ∈ scanned → Fs.iterdir w dir = inr entries → r ∈ entries →
         Application.date_name (PurePath.name r) = true → r ∈ rs)
    ∧ Application.all_workdirs w path = inr (flat_map subroots rs)
    ∧ Application.workdirs w path
      = inr (filter there ((λ p, p // "publish") <$> flat_map subroots rs)).
Proof.
  intros Hdirs there buckets scanned dated subroots.
  assert (Hscanned : Application.month_workdirs w path = scanned).
  { unfold Application.month_workdirs, scanned. fold there. fold buckets.
    by destruct buckets. }
  rewrite Hscanned in Hdirs.
  destruct (roots_spec w scanned Hdirs) as (rs0 & Hroots & Hmem).
  exists (merge_sort PathOrder.path_le rs0).
  assert (Hperm : ∀ r, r ∈ merge_sort PathOrder.path_le rs0 ↔ dated r).
  { intros r. rewrite merge_sort_Permutation. apply Hmem. }
  assert (Hall : Application.all_workdirs w path
                 = inr (flat_map subroots (merge_sort PathOrder.path_le rs0))).
  { unfold Application.all_workdirs. rewrite Hscanned, Hroots. f_equal.
    apply flat_map_ext. intros r. by rewrite letter_roots_spec. }
  split_and!.
  - apply StronglySorted_merge_sort; apply _.
  - exact Hperm.
  - intros dir entries r Hdir Hen Hr Hname. apply Hperm.
    exists dir, entries. split_and!; try done. by apply date_name_match.
  - exact Hall.
  - unfold Application.workdirs. rewrite Hall. by rewrite publish_dirs_spec.
Qed.

(** The year in month directories: the days in order, the parts of a split
    day in place of the day, the day without [publish] left out. *)
Example workdirs_bucketed :
  Application.workdirs Examples.bucketed (mkPath true ["y"])
  = inr [mkPath true ["y"; "01"; "2022-01-01"; "publish"];
         mkPath true ["y"; "01"; "2022-01-02"; "a"; "publish"];
         mkPath true ["y"; "01"; "2022-01-02"; "b"; "publish"]].
Proof. vm_compute. reflexivity. Qed.

Lemma workdir_discovery_witness :
  (∀ dir, dir ∈ Application.month_workdirs Examples.bucketed (mkPath true ["y"]) →
          Fs.is_dir Examples.bucketed dir = true)
  ∧ ∃ rs,
      StronglySorted PathOrder.path_le rs
      ∧ (∀ r, r ∈ rs →
              Application.date_match (PurePath.name r) = true)
      ∧ ∃ subroots,
          Application.all_workdirs Examples.bucketed (mkPath true ["y"])
          = inr (flat_map subroots rs).
Proof.
  assert (H : ∀ dir,
            dir ∈ Application.month_workdirs Examples.bucketed (mkPath true ["y"]) →
            Fs.is_dir Examples.bucketed dir = true).
  { intros dir Hdir. vm_compute in Hdir.
    apply elem_of_cons in Hdir as [->|Hdir]; [vm_compute; reflexivity|].
    apply elem_of_cons in Hdir as [->|Hdir]; [vm_compute; reflexivity|].
    by apply elem_of_nil in Hdir. }
  split; [exact H|].
  destruct (workdir_discovery Examples.bucketed (mkPath true ["y"]) H)
    as (rs & Hsorted & Hmem & _ & Hall & _).
  exists rs. split; [exact Hsorted|]. split.
  - intros r Hr. apply Hmem in Hr as (_ & _ & _ & _ & _ & Hm). exact Hm.
  - eexists. exact Hall.
Defined.

(** ** C3: targets that are there already *)

(** The name of a service taken by a link that leads nowhere: the test of
    [missing_subdirs] does not see it, and [mkdir] raises. *)
Lemma mkdir_meets_dangling_link :
  Fs.entry Examples.dangling_service (Examples.workdir // "web")
  = Some (Symlink (mkPath true ["mnt"; "old"; "web"]))
  ∧ Fs.exists_ Examples.dangling_service (Examples.workdir // "web") = false
  ∧ fixup_workdir Examples.convert_writes Examples.git_quiet
      Examples.workdir ["web"] DummyGit Examples.dangling_service
    = Raise FileExistsError
        (emit (LogAddingDirectory (Examples.workdir // "web"))
           Examples.dangling_service).
Proof. split_and!; vm_compute; reflexivity. Qed.

(** C3, as the program has it. A directory is made only where the test
    [exists] (which follows links) found nothing: a service directory and
    a [published] child that are there are passed over, no call made and
    nothing raised. A link is handed to a service only under a name that
    matches no entry of its directory or of its [published] child, and the
    distribution step never raises [FileExistsError]. *)
Theorem existing_targets_passed_over (d : Directory) (w : World) :
  let make := λ p, tell (LogAddingDirectory p);; act (Fs.mkdir p) in
  (∀ subdir,
     let path := rootdir d // subdir in
     let pub := path // "published" in
     Fs.exists_ w path = true →
     (Fs.exists_ w pub = true → add_missing_subdir d subdir w = Ok () w)
     ∧ (Fs.exists_ w pub = false →
        add_missing_subdir d subdir w = make pub w))
  ∧ ((∀ subdir, subdir ∈ known_subdirs d →
        Fs.exists_ w (rootdir d // subdir) = true
        ∧ Fs.exists_ w (rootdir d // subdir // "published") = true) →
     add_missing_subdirs d w = Ok () w)
  ∧ (∀ all subdir n,
       has_entry w (rootdir d // subdir) n
       ∨ has_entry w (rootdir d // subdir // "published") n →
       pattern_small n = true →
       ∀ sd names, new_small_images_for d all subdir w = Some (sd, names) →
                   n ∉ names)
  ∧ (∀ e w', add_new_small_files d w = Raise e w' → e ≠ FileExistsError).
Proof.
  intros make. split_and!.
  - intros subdir path pub Hpath. rewrite add_missing_subdir_cases. cbv zeta.
    fold path. fold pub. rewrite Hpath. split; intros ->; done.
  - intros Hall. apply for_each_noop. intros subdir Hs.
    destruct (Hall subdir Hs) as [H1 H2].
    rewrite add_missing_subdir_cases. cbv zeta. by rewrite H1, H2.
  - intros all subdir n Hentry Hpat sd names. unfold new_small_images_for.
    destruct (Fs.exists_ w (rootdir d // subdir)); [|done]. simpl.
    case_bool_decide; [|done]. intros [= <- <-].
    rewrite elem_of_difference, managed_small_spec. tauto.
  - intros e w' Hrun. pose proof (add_new_small_files_outcome d w) as H.
    rewrite Hrun in H. simpl in H. by rewrite H.
Qed.

(** ** C4: previews are handed to a service once *)

(** C4. [new_small_images] yields, for each service directory that exists,
    the directory with the names of all existing previews less the names
    matching the preview pattern among the entries of that directory and
    of its [published] child, and yields nothing for it when that set is
    empty. The distribution step, which draws from it service by service,
    overwrites nothing, and every link it makes is [../<name>] for the name
    of an existing preview that named no entry of the service directory or
    of its [published] child before the step. *)
Theorem distribution_dedup (d : Directory) (w : World) :
  (∀ sd names,
     (sd, names) ∈ new_small_images d w
     ↔ ∃ subdir, subdir ∈ known_subdirs d ∧ sd = rootdir d // subdir
                 ∧ Fs.exists_ w sd = true
                 ∧ names = all_small d w ∖ managed_small w sd
                 ∧ names ≠ ∅)
  ∧ (∀ n, n ∈ all_small d w
          ↔ ∃ s, s ∈ sources d ∧ Fs.exists_ w (Source.small s) = true
                 ∧ n = PurePath.name (Source.small s))
  ∧ (∀ sd n, n ∈ managed_small w sd
             ↔ pattern_small n = true
               ∧ (has_entry w sd n ∨ has_entry w (sd // "published") n))
  ∧ (∀ w', add_new_small_files d w = Ok () w' →
       nodes w ⊆ nodes w'
       ∧ ∀ l, nodes w !! l = None → is_Some (nodes w' !! l) →
              ∃ subdir D n,
                subdir ∈ known_subdirs d
                ∧ Fs.resolve w' (rootdir d // subdir) = Some D ∧ l = D ++ [n]
                ∧ nodes w' !! l = Some (Symlink (PurePath.dotdot // n))
                ∧ n ∈ all_small d w
                ∧ ¬ has_entry w (rootdir d // subdir) n
                ∧ ¬ has_entry w (rootdir d // subdir // "published") n).
Proof.
  split_and!.
  - intros sd names. unfold new_small_images. rewrite list_elem_of_omap.
    unfold new_small_images_for. split.
    + intros (subdir & Hs & H).
      destruct (Fs.exists_ w (rootdir d // subdir)) eqn:E; [|done]. simpl in H.
      case_bool_decide; [|done]. injection H as <- <-. by exists subdir.
    + intros (subdir & Hs & -> & Hex & -> & Hne). exists subdir. split; [done|].
      rewrite Hex. simpl. by rewrite bool_decide_eq_true_2.
  - intros n. unfold all_small, existing_small.
    rewrite elem_of_list_to_set, list_elem_of_fmap. split.
    + intros (p & -> & [Hex (s & -> & Hs)%list_elem_of_fmap]%list_elem_of_filter).
      by exists s.
    + intros (s & Hs & Hex & ->). exists (Source.small s). split; [done|].
      apply list_elem_of_filter. split; [done|]. by apply list_elem_of_fmap_2.
  - apply managed_small_spec.
  - intros w' Hrun. pose proof (add_new_small_files_outcome d w) as H.
    rewrite Hrun in H. destruct H as (_ & _ & Hsub & Hnew). split; [done|].
    intros l Hl Hl'. destruct (Hnew l Hl Hl') as (subdir & D & n & Hs & HD & -> & Hx & Hn & Hm).
    exists subdir, D, n.
    split; [exact Hs|]. split; [exact HD|]. split; [reflexivity|].
    split; [exact Hx|]. split; [exact Hn|].
    rewrite managed_small_spec in Hm.
    destruct (all_small_names d w n Hn) as [Hp _]. tauto.
Qed.

(** ** C1: running the fixup again *)


(** The second of these goes the same with any converter and any
    repository. *)
Lemma fixup_twice_differs_any_converter
    (os_system : command → World → World * Z)
    (subprocess_run : command → World → option (list Path)) :
  let run := fixup_workdir os_system subprocess_run
               Examples.workdir ["web"] DummyGit in
  tree_after (run Examples.stale_preview)
  = Some (nodes Examples.stale_preview_once)
  ∧ tree_after (run (final (run Examples.stale_preview)))
    = Some (nodes Examples.stale_preview_twice).
Proof. cbv zeta. split; by_compute. Qed.

Lemma forallb_elem {A} (f : A → bool) (l : list A) (x : A) :
  forallb f l = true → x ∈ l → f x = true.
Proof.
  intros H Hx. apply (proj1 (forallb_forall f l) H). by apply list_elem_of_In.
Qed.

Section Settled.
Variable os_system : command → World → World * Z.
Variable subprocess_run : command → World → option (list Path).

Lemma add_missing_subdirs_settled (d : Directory) (w : World) :
  subdirs_there d w = true → add_missing_subdirs d w = Ok () w.
Proof.
  intros H. apply for_each_noop. intros subdir Hs.
  pose proof (forallb_elem _ _ _ H Hs) as Hb. simpl in Hb.
  apply andb_prop in Hb as [H1 H2].
  rewrite add_missing_subdir_cases. cbv zeta. by rewrite H1, H2.
Qed.

Lemma create_missing_small_images_settled (d : Directory) (w : World) :
  forallb (preview_fresh w) (sources d) = true →
  create_missing_small_images os_system d w = Ok () w.
Proof.
  intros H. apply for_each_noop. intros s Hs.
  pose proof (forallb_elem _ _ _ H Hs) as Hb. unfold preview_fresh in Hb.
  rewrite create_missing_small_image_cases.
  destruct (Source.large w s) as [e|large]; [done|]. cbv zeta.
  destruct (Fs.exists_ w large); [|done].
  apply andb_prop in Hb as [Hsmall Hb]. unfold small_image_action. rewrite Hsmall.
  destruct (Fs.st_mtime w (Source.small s)) as [|ts]; [done|].
  destruct (Fs.st_mtime w large) as [|tl]; [done|].
  apply Z.leb_le in Hb. by rewrite (proj2 (Z.ltb_ge ts tl)).
Qed.

Lemma add_new_small_files_settled (d : Directory) (w : World) :
  previews_distributed d w = true → add_new_small_files d w = Ok () w.
Proof.
  intros H. unfold add_new_small_files, mbind, M_bind, gets.
  apply for_each_noop. intros subdir Hs.
  pose proof (forallb_elem _ _ _ H Hs) as Hb. simpl in Hb.
  apply bool_decide_eq_true in Hb.
  unfold add_new_small_files_for, mbind, M_bind, gets, new_small_images_for.
  destruct (Fs.exists_ w (rootdir d // subdir)); [|done]. simpl.
  rewrite bool_decide_eq_false_2; [done|].
  intros Hne. apply Hne. apply leibniz_equiv, set_equiv. intros n.
  rewrite elem_of_difference. split; [|by intros ?%elem_of_empty].
  intros [Hn Hm]. destruct Hm. by apply Hb.
Qed.

Lemma fixup_source_photos_links_settled (d : Directory) (w : World) :
  forallb (λ s, link_relative w (Source.path s)) (sources d) = true →
  fixup_source_photos_links d w = Ok () w.
Proof.
  intros H. apply for_each_noop. intros s Hs.
  pose proof (forallb_elem _ _ _ H Hs) as Hb. simpl in Hb.
  unfold link_relative in Hb. rewrite fixup_source_photos_link_cases. cbv zeta.
  destruct (Fs.readlink w (Source.path s)) as [|link]; [done|].
  by destruct (is_absolute link).
Qed.

Lemma fixup_published_link_cases (p : Path) (w : World) :
  fixup_published_link p w
  = match Fs.readlink w p with
    | inl e => Raise e w
    | inr link =>
        if Fs.exists_ w (PurePath.join (PurePath.parent p) link) then Ok () w
        else
          let newlink := PurePath.dotdot // ".." // PurePath.name p in
          replace_link p newlink (emit (LogReplacingLink p link newlink) w)
    end.
Proof.
  unfold fixup_published_link, mbind, M_bind, ask, gets, tell, replace_link,
    mbind, M_bind.
  destruct (Fs.readlink w p) as [e|link]; [done|].
  by destruct (Fs.exists_ w (PurePath.join (PurePath.parent p) link)).
Qed.

Lemma fixup_published_links_settled (d : Directory) (w : World) :
  forallb (link_resolves w) (published_small d w) = true →
  fixup_published_links d w = Ok () w.
Proof.
  intros H. apply for_each_noop. intros subdir Hs.
  unfold fixup_published_links_for, mbind, M_bind, gets.
  destruct (Fs.exists_ w (rootdir d // subdir // "published")) eqn:Hex; [|done].
  simpl. apply for_each_noop. intros p Hp.
  assert (Hin : p ∈ published_small d w).
  { unfold published_small. apply list_elem_of_In, in_flat_map.
    exists subdir. split; [by apply list_elem_of_In|].
    rewrite Hex. by apply list_elem_of_In. }
  pose proof (forallb_elem _ _ _ H Hin) as Hb. unfold link_resolves in Hb.
  rewrite fixup_published_link_cases.
  destruct (Fs.readlink w p) as [|link]; [done|]. by rewrite Hb.
Qed.

(** Registering with the repository leaves the tree alone. *)
Lemma add_file_nodes (git : GitObj) (p : Path) (w : World) :
  nodes (final (add_file subprocess_run git p w)) = nodes w.
Proof.
  unfold add_file. destruct git as [|[files|]]; [done| |].
  - unfold mbind, M_bind, mret, M_ret, tell, execute.
    case_bool_decide; [done|].
    by destruct (subprocess_run (GitAdd p) _).
  - unfold mbind, M_bind, mret, M_ret, tell, execute.
    destruct (subprocess_run GitLsFiles w) as [files|]; [|done].
    case_bool_decide; [done|].
    by destruct (subprocess_run (GitAdd p) _).
Qed.

Lemma add_files_nodes (git : GitObj) (paths : list Path) (w : World) :
  nodes (final (add_files subprocess_run git paths w)) = nodes w.
Proof.
  revert git w. induction paths as [|p paths IH]; intros git w; [done|].
  simpl. unfold mbind at 1, M_bind at 1, gets at 1.
  unfold mbind at 1, M_bind at 1.
  destruct (Fs.is_symlink w p).
  - pose proof (add_file_nodes git p w) as H.
    destruct (add_file subprocess_run git p w) as [g w1|e w1]; simpl in *; [|done].
    by rewrite IH.
  - unfold mret, M_ret. apply IH.
Qed.

Lemma add_files_to_repository_nodes (d : Directory) (git : GitObj) (w : World) :
  nodes (final (add_files_to_repository subprocess_run d git w)) = nodes w.
Proof.
  unfold add_files_to_repository, mbind, M_bind, gets. apply add_files_nodes.
Qed.

Lemma add_files_dummy (paths : list Path) (w : World) :
  add_files subprocess_run DummyGit paths w = Ok DummyGit w.
Proof.
  induction paths as [|p paths IH]; [done|]. simpl.
  unfold mbind at 1, M_bind at 1, gets at 1. unfold mbind at 1, M_bind at 1.
  by destruct (Fs.is_symlink w p).
Qed.

End Settled.


(** ** C2: the links after a run *)

Lemma link_step_for_each {A} (l : list A) (body : A → M unit) (w w' : World) :
  (∀ x w1 w2, x ∈ l → body x w1 = Ok () w2 → link_step w1 w2) →
  for_each l body w = Ok () w' → link_step w w'.
Proof.
  intros Hbody. apply (for_each_Ok (link_step w)); [|apply link_step_refl].
  intros x w1 w2 Hx H1 H2. apply (link_step_trans _ w1); [done|]. by apply (Hbody x).
Qed.

Lemma link_step_add_missing_subdirs (d : Directory) (w w' : World) :
  add_missing_subdirs d w = Ok () w' → link_step w w'.
Proof.
  apply link_step_for_each. intros subdir w1 w2 _.
  assert (Hmake : ∀ p u1 u2,
            (tell (LogAddingDirectory p);; act (Fs.mkdir p)) u1 = Ok () u2 →
            link_step u1 u2).
  { intros p u1 u2 ([] & u & [= <-] & H)%bind_inv_Ok.
    by apply (link_step_emit_l (LogAddingDirectory p)), (link_step_mkdir p). }
  rewrite add_missing_subdir_cases. cbv zeta.
  destruct (Fs.exists_ w1 (rootdir d // subdir)).
  - destruct (Fs.exists_ w1 (rootdir d // subdir // "published")).
    + intros [= <-]. apply link_step_refl.
    + intros H. exact (Hmake _ _ _ H).
  - intros ([] & u & H1 & H2)%bind_inv_Ok.
    apply (link_step_trans _ u); [exact (Hmake _ _ _ H1)|].
    apply bind_inv_Ok in H2 as (e & u' & [= <- <-] & H2).
    destruct (Fs.exists_ u (rootdir d // subdir // "published")); simpl in H2.
    + injection H2 as <-. apply link_step_refl.
    + exact (Hmake _ _ _ H2).
Qed.

Lemma link_step_add_new_small_files (d : Directory) (w w' : World) :
  add_new_small_files d w = Ok () w' → link_step w w'.
Proof.
  intros Hrun. pose proof (add_new_small_files_outcome d w) as H.
  rewrite Hrun in H. destruct H as (Hcwd & _ & Hsub & Hnew). split_and!.
  - done.
  - intros l t Hl. exists t. by apply (lookup_weaken _ _ _ _ Hl Hsub).
  - intros l t Hl. exists t. split; [|by left].
    by apply (lookup_weaken _ _ _ _ Hl Hsub).
  - intros l t Hl. destruct (nodes w !! l) as [x|] eqn:E.
    + left. rewrite (lookup_weaken _ _ _ _ E Hsub) in Hl. by rewrite Hl in E.
    + destruct (Hnew l E) as (subdir & D & n & _ & _ & -> & Hx & _); [eauto|].
      rewrite Hx in Hl. injection Hl as <-. right. left. by rewrite last_last.
Qed.

Lemma link_step_fixup_source_photos_links (d : Directory) (w w' : World) :
  fixup_source_photos_links d w = Ok () w' → link_step w w'.
Proof.
  apply link_step_for_each. intros s w1 w2 _.
  rewrite fixup_source_photos_link_cases. cbv zeta.
  destruct (Fs.readlink w1 (Source.path s)) as [e|link]; [done|].
  destruct (is_absolute link).
  - intros H. apply link_step_emit_l with (e := LogReplacingLink (Source.path s) link
       (PurePath.dotdot // PurePath.name (Source.path s))).
    apply (link_step_replace_link (Source.path s) _ _ _ (or_introl eq_refl) H).
  - intros [= <-]. apply link_step_refl.
Qed.

Lemma link_step_fixup_published_links (d : Directory) (w w' : World) :
  fixup_published_links d w = Ok () w' → link_step w w'.
Proof.
  apply link_step_for_each. intros subdir w1 w2 _.
  unfold fixup_published_links_for.
  intros (e & u & [= <- <-] & H)%bind_inv_Ok.
  destruct (Fs.exists_ w1 (rootdir d // subdir // "published")); simpl in H.
  2: { injection H as <-. apply link_step_refl. }
  apply bind_inv_Ok in H as (paths & u & [= <- <-] & H).
  revert H. apply link_step_for_each. intros p u1 u2 _.
  rewrite fixup_published_link_cases.
  destruct (Fs.readlink u1 p) as [e|link]; [done|].
  destruct (Fs.exists_ u1 (PurePath.join (PurePath.parent p) link)).
  - intros [= <-]. apply link_step_refl.
  - cbv zeta. intros H.
    apply link_step_emit_l with (e := LogReplacingLink p link
       (PurePath.dotdot // ".." // PurePath.name p)).
    apply (link_step_replace_link p _ _ _ (or_intror eq_refl) H).
Qed.

Section Links.
Variable os_system : command → World → World * Z.
Variable subprocess_run : command → World → option (list Path).
Hypothesis files_only : writes_files_only os_system.

Lemma link_step_create_missing_small_images (d : Directory) (w w' : World) :
  create_missing_small_images os_system d w = Ok () w' → link_step w w'.
Proof.
  apply link_step_for_each. intros s w1 w2 _.
  rewrite create_missing_small_image_cases.
  destruct (Source.large w1 s) as [e|large]; [done|]. cbv zeta.
  destruct (Fs.exists_ w1 large); [|intros [= <-]; apply link_step_refl].
  destruct (small_image_action w1 large (Source.small s)) as [e|[a|]];
    [done| |intros [= <-]; apply link_step_refl].
  set (w0 := emit (log_action a (Source.small s) large) w1).
  set (cmd := ConvertResize large SMALL_JPEG_WIDTH (Source.small s)).
  intros [= <-].
  destruct (files_only cmd w0) as [Hd Hl].
  assert (Hstep : ∀ u, cwd u = cwd w1 → nodes u = nodes (os_system cmd w0).1 →
                       link_step w1 u).
  { intros u Hc Hn. unfold link_step. rewrite Hc, Hn. split_and!.
    - done.
    - intros l t Ht. by apply (Hd l t).
    - intros l t Ht. exists t. split; [by apply Hl|by left].
    - intros l t Ht. left. by apply Hl. }
  destruct (_ =? 0); by apply Hstep.
Qed.

Lemma add_file_cwd (git : GitObj) (p : Path) (w : World) :
  cwd (final (add_file subprocess_run git p w)) = cwd w.
Proof.
  unfold add_file. destruct git as [|[files|]]; [done| |].
  - unfold mbind, M_bind, mret, M_ret, tell, execute.
    case_bool_decide; [done|].
    by destruct (subprocess_run (GitAdd p) _).
  - unfold mbind, M_bind, mret, M_ret, tell, execute.
    destruct (subprocess_run GitLsFiles w) as [files|]; [|done].
    case_bool_decide; [done|].
    by destruct (subprocess_run (GitAdd p) _).
Qed.

Lemma add_files_cwd (git : GitObj) (paths : list Path) (w : World) :
  cwd (final (add_files subprocess_run git paths w)) = cwd w.
Proof.
  revert git w. induction paths as [|p paths IH]; intros git w; [done|].
  simpl. unfold mbind at 1, M_bind at 1, gets at 1.
  unfold mbind at 1, M_bind at 1.
  destruct (Fs.is_symlink w p).
  - pose proof (add_file_cwd git p w) as H.
    destruct (add_file subprocess_run git p w) as [g w1|e w1]; simpl in *; [|done].
    by rewrite IH.
  - unfold mret, M_ret. apply IH.
Qed.

Lemma link_step_add_files_to_repository (d : Directory) (git g : GitObj)
    (w w' : World) :
  add_files_to_repository subprocess_run d git w = Ok g w' → link_step w w'.
Proof.
  intros H. apply link_step_same_tree.
  - pose proof (add_files_cwd git (Fs.rglob w (rootdir d) pattern_dotted) w) as Hc.
    unfold add_files_to_repository, mbind, M_bind, gets in H. by rewrite H in Hc.
  - pose proof (add_files_to_repository_nodes subprocess_run d git w) as Hn.
    by rewrite H in Hn.
Qed.

End Links.


Section Links_after.
Variable os_system : command → World → World * Z.
Variable subprocess_run : command → World → option (list Path).


End Links_after.

Lemma convert_fails_files_only : writes_files_only Examples.convert_fails.
Proof. intros cmd w. split; [eauto|done]. Qed.


(** * Further properties *)

(** ** The snapshot of a working directory *)

Lemma scan_source_spec (w : World) (q : Path) (s : SourceImage) :
  scan_source w q = Some s
  ↔ Fs.is_dir w q = false ∧ Fs.is_symlink w q = true
    ∧ (s = RawSourceImage q
       ∧ Str.lower (PurePath.suffix q) ∈ [".nef"; ".cr3"]
       ∨ s = JpegSourceImage q
         ∧ Str.lower (PurePath.suffix q) ∈ [".jpg"; ".jpeg"]).
Proof.
  unfold scan_source, classify.
  destruct (Fs.is_dir w q); simpl; [split; [done|by intros [? _]]|].
  destruct (Fs.is_symlink w q); [|split; [done|by intros (_ & ? & _)]].
  generalize (Str.lower (PurePath.suffix q)). intros ext.
  repeat case_bool_decide; mem; split;
    try (intros [= <-]); intuition (subst; congruence).
Qed.

Lemma NoDup_scan (w : World) (l : list Path) :
  NoDup l → NoDup (Source.path <$> omap (scan_source w) l).
Proof.
  induction 1 as [|q l Hq Hnd IH]; simpl; [constructor|].
  destruct (scan_source w q) as [s|] eqn:E; [|done].
  rewrite fmap_cons. apply NoDup_cons. split; [|done].
  apply scan_source_inv in E as (Hp & _). rewrite Hp.
  intros (s' & -> & (q' & Hq' & Hs')%list_elem_of_omap)%list_elem_of_fmap.
  apply scan_source_inv in Hs' as (Hp' & _). by rewrite Hp' in Hq.
Qed.

Lemma sources_spec (root : Path) (subs : list string) (w : World)
    (s : SourceImage) :
  s ∈ sources (new_Directory root subs w)
  ↔ ∃ n, has_entry w root n
         ∧ Fs.is_symlink w (root // n) = true
         ∧ Fs.is_dir w (root // n) = false
         ∧ (s = RawSourceImage (root // n)
            ∧ Str.lower (PurePath.suffix (root // n)) ∈ [".nef"; ".cr3"]
            ∨ s = JpegSourceImage (root // n)
              ∧ Str.lower (PurePath.suffix (root // n)) ∈ [".jpg"; ".jpeg"]).
Proof.
  simpl. rewrite list_elem_of_omap.
  setoid_rewrite scan_source_spec. setoid_rewrite elem_of_glob. split.
  - intros (q & (D & n & Hd & HD & -> & _ & Hn) & Hnd & Hl & Hs).
    exists n. split; [by exists D|done].
  - intros (n & (D & Hd & HD & Hn) & Hl & Hnd & Hs).
    exists (root // n). split; [|done]. by exists D, n.
Qed.

(** X1. [Directory.__init__] keeps the root and the service names it is
    given, and collects as sources exactly the entries of the root that
    are symbolic links, do not lead to a directory, and carry a raw or
    jpeg suffix (case ignored): as a raw source for [.nef] and [.cr3],
    as a jpeg source for [.jpg] and [.jpeg]. No path is collected twice,
    and a root that is not a directory gives no source at all. *)
Theorem snapshot_sources (root : Path) (subs : list string) (w : World) :
  let d := new_Directory root subs w in
  rootdir d = root ∧ known_subdirs d = subs
  ∧ (∀ s, s ∈ sources d
          ↔ ∃ n, has_entry w root n
                 ∧ Fs.is_symlink w (root // n) = true
                 ∧ Fs.is_dir w (root // n) = false
                 ∧ (s = RawSourceImage (root // n)
                    ∧ Str.lower (PurePath.suffix (root // n)) ∈ [".nef"; ".cr3"]
                    ∨ s = JpegSourceImage (root // n)
                      ∧ Str.lower (PurePath.suffix (root // n))
                        ∈ [".jpg"; ".jpeg"]))
  ∧ NoDup (Source.path <$> sources d)
  ∧ (Fs.is_dir w root = false → sources d = []).
Proof.
  intros d. split; [done|]. split; [done|]. split_and!.
  - apply sources_spec.
  - apply NoDup_scan, NoDup_glob.
  - intros Hd. unfold d, new_Directory, Fs.glob. simpl. by rewrite Hd.
Qed.

(** A classified entry has a name, so its large image is always
    defined. *)
Lemma snapshot_large (root : Path) (subs : list string) (w w' : World)
    (s : SourceImage) :
  s ∈ sources (new_Directory root subs w) →
  ∃ large, Source.large w' s = inr large.
Proof.
  intros Hs. apply sources_spec in Hs as (n & _ & _ & _ & Hs).
  destruct Hs as [[-> Hext]|[-> Hext]]; simpl; [|eauto].
  assert (Hname : PurePath.name (root // n) ≠ "").
  { apply suffix_name. intros E. rewrite E in Hext. revert Hext. mem.
    intuition discriminate. }
  rewrite !source_with_suffix by done.
  repeat destruct (Fs.exists_ w' _); eauto.
Qed.

Lemma large_missing_trace (w : World) (tr : list event) (s : SourceImage) :
  large_missing (with_trace w tr) s = large_missing w s.
Proof. reflexivity. Qed.

Lemma print_missing_body (s : SourceImage) (w : World) (large : Path) :
  Source.large w s = inr large →
  (large ← ask (λ w, Source.large w s);
   e ← gets (λ w, Fs.exists_ w large);
   when (negb e) (tell (Print (Source.path s)))) w
  = Ok () (if large_missing w s then emit (Print (Source.path s)) w else w).
Proof.
  intros Hlarge. unfold large_missing, mbind, M_bind, ask, gets.
  rewrite Hlarge. by destruct (Fs.exists_ w large).
Qed.

Lemma print_missing_loop (srcs : list SourceImage) (w : World) :
  (∀ s, s ∈ srcs → ∃ large, Source.large w s = inr large) →
  action_print_missing (mkDirectory (mkPath false []) [] srcs) w
  = Ok () (with_trace w
             (trace w ++ (Print <$> (Source.path <$> filter (λ s, large_missing w s = true) srcs)))).
Proof.
  unfold action_print_missing. cbn [sources].
  revert w. induction srcs as [|s srcs IH]; intros w Hl; cbn [for_each].
  - rewrite filter_nil. cbn [fmap list_fmap]. by rewrite with_trace_id.
  - destruct (Hl s) as [large Hlarge]; [left|].
    rewrite (bind_Ok _ _ w _ ()) by (by apply (print_missing_body s w large)).
    rewrite filter_cons.
    destruct (large_missing w s) eqn:E.
    + rewrite (IH (emit (Print (Source.path s)) w)).
      * rewrite decide_True by done.
        f_equal. unfold with_trace, emit. cbn [cwd nodes clock trace]. f_equal.
        rewrite !fmap_cons, <- app_assoc. reflexivity.
      * intros s' Hs'. apply (Hl s'). by right.
    + rewrite decide_False by done. apply IH. intros s' Hs'. apply Hl. by right.
Qed.

Lemma jpeg_large_missing (w : World) (p : Path) (exts : list string) :
  Fs.exists_ w (Source.jpeg_large w p exts) = false
  ↔ Fs.exists_ w p = false
    ∧ ∀ ext, ext ∈ exts → Fs.exists_ w (Source.processed p ext) = false.
Proof.
  induction exts as [|e exts IH]; simpl.
  - split; [|tauto]. intros H. split; [done|]. intros ext. by mem.
  - destruct (Fs.exists_ w (Source.processed p e)) eqn:E.
    + rewrite E. split; [done|]. intros [_ H]. rewrite <- E.
      apply H. by left.
    + rewrite IH. split; intros [Hp H]; (split; [done|]); intros ext.
      * mem. intros [->|Hext]; [done|by apply H].
      * intros Hext. apply H. by right.
Qed.

(** X2. When the names of the working directory are within the limits
    of the system, [Directory.action_print_missing] on a fresh snapshot
    returns and changes nothing but the output. It prints, in the order
    of the sources, the path of each source whose large image is not
    there: a raw source when neither [stem.JPG] nor [stem.jpg] exists
    beside it, a jpeg source when none of its four processed variants
    exists and the source link itself leads nowhere. *)
Theorem print_missing_snapshot (root : Path) (subs : list string) (w : World) :
  within_limits (new_Directory root subs w) w = true →
  let d := new_Directory root subs w in
  let printed := Source.path <$> filter (λ s, large_missing w s = true) (sources d) in
  action_print_missing d w = Ok () (with_trace w (trace w ++ (Print <$> printed)))
  ∧ (∀ p, RawSourceImage p ∈ sources d →
          (p ∈ printed
           ↔ ∀ ext, ext ∈ [".JPG"; ".jpg"] →
               Fs.exists_ w (PurePath.parent p // (PurePath.stem p +:+ ext)) = false))
  ∧ (∀ p, JpegSourceImage p ∈ sources d →
          (p ∈ printed
           ↔ Fs.exists_ w p = false
             ∧ ∀ ext, ext ∈ ["jpg"; "JPG"; "jpeg"; "JPEG"] →
                 Fs.exists_ w (Source.processed p ext) = false)).
Proof.
  intros _ d printed.
  assert (Hone : ∀ s, s ∈ sources d →
            (Source.path s ∈ printed ↔ large_missing w s = true)).
  { intros s Hs. unfold printed. rewrite list_elem_of_fmap. split.
    - intros (s' & Hp & (Hm & Hs')%list_elem_of_filter).
      assert (s' = s); [|by subst].
      apply sources_spec in Hs as (n & _ & _ & _ & Hn),
                            Hs' as (n' & _ & _ & _ & Hn').
      destruct Hn as [[-> Hn]|[-> Hn]], Hn' as [[-> Hn']|[-> Hn']];
        simpl in Hp; rewrite <- ?Hp in *; try done;
        revert Hn Hn'; mem; intuition congruence.
    - intros Hm. exists s. split; [done|]. by apply list_elem_of_filter. }
  split_and!.
  - destruct d as [r k srcs] eqn:Ed. 
    change (action_print_missing (mkDirectory r k srcs))
      with (action_print_missing (mkDirectory (mkPath false []) [] srcs)).
    apply print_missing_loop. intros s Hs.
    apply (snapshot_large root subs w w s). unfold d in Ed. 
    change (sources (new_Directory root subs w)) with (sources d). unfold d at 1. by rewrite Ed.
  - intros p Hp. rewrite (Hone _ Hp). simpl.
    assert (Hname : PurePath.name p ≠ "").
    { apply sources_spec in Hp as (n & _ & _ & _ & [[[= ->] Hext]|[[=] _]]).
      apply suffix_name. intros E. rewrite E in Hext. revert Hext. mem.
      intuition discriminate. }
    unfold large_missing. simpl. rewrite !source_with_suffix by done.
    destruct (Fs.exists_ w (_ // (_ +:+ ".JPG"))) eqn:E1;
      [|destruct (Fs.exists_ w (_ // (_ +:+ ".jpg"))) eqn:E2]; simpl;
      rewrite ?E1, ?E2; simpl; split; try done.
    + intros H. rewrite <- E1. symmetry. apply H. mem. tauto.
    + intros H. rewrite <- E2. symmetry. apply H. mem. tauto.
    + intros _ ext. mem. intuition congruence.
  - intros p Hp. rewrite (Hone _ Hp). unfold large_missing.
    cbn [Source.large]. rewrite negb_true_iff.
    exact (jpeg_large_missing w p _).
Qed.

Lemma print_missing_snapshot_witness :
  let d := new_Directory Examples.workdir ["web"] Examples.lost in
  within_limits d Examples.lost = true
  ∧ action_print_missing d Examples.lost
    = Ok () (with_trace Examples.lost
               (trace Examples.lost
                ++ (Print <$> (Source.path
                      <$> filter (λ s, large_missing Examples.lost s = true)
                            (sources d))))).
Proof.
  intros d.
  assert (H : within_limits d Examples.lost = true) by (vm_compute; reflexivity).
  split; [exact H|].
  exact (proj1 (print_missing_snapshot Examples.workdir ["web"] Examples.lost H)).
Defined.

(** ** Handing the links to [git] *)

Section Repository.
Variable subprocess_run : command → World → option (list Path).

Lemma add_files_cached (files paths : list Path) (w : World) (tr : list event) :
  let wanted := filter (λ p, Fs.is_symlink w p = true ∧ p ∉ files) paths in
  match add_files subprocess_run (Git (Some files)) paths (with_trace w tr) with
  | Ok g w' =>
      g = Git (Some files)
      ∧ w' = with_trace w (tr ++ git_add_events wanted)
  | Raise e w' =>
      e = ProgramError
      ∧ ∃ done p rest,
          wanted = done ++ p :: rest
          ∧ w' = with_trace w (tr ++ git_add_events (done ++ [p]))
          ∧ subprocess_run (GitAdd p)
              (with_trace w (tr ++ git_add_events done ++ [LogAddingToGit p]))
            = None
  end.
Proof.
  revert tr. induction paths as [|p paths IH]; intros tr; cbn zeta.
  - simpl. unfold mret, M_ret, git_add_events. simpl. by rewrite app_nil_r.
  - rewrite filter_cons. cbn [add_files].
    unfold mbind at 1, M_bind at 1, gets at 1.
    change (Fs.is_symlink (with_trace w tr) p) with (Fs.is_symlink w p).
    destruct (Fs.is_symlink w p) eqn:El.
    + unfold mbind at 1, M_bind at 1. cbn [add_file].
      unfold mbind at 1, M_bind at 1, mret at 1, M_ret at 1.
      case_bool_decide as Hin.
      * unfold mret at 1, M_ret at 1.
        rewrite decide_False by (intros [_ ?]; done). apply IH.
      * rewrite decide_True by done.
        unfold mbind at 1, M_bind at 1, tell at 1.
        unfold mbind at 1, M_bind at 1, execute at 1.
        change (emit (LogAddingToGit p) (with_trace w tr))
          with (with_trace w (tr ++ [LogAddingToGit p])).
        destruct (subprocess_run (GitAdd p) _) as [out|] eqn:Erun.
        -- unfold mret at 1, M_ret at 1.
           change (emit (System (GitAdd p)) (with_trace w (tr ++ [LogAddingToGit p])))
             with (with_trace w ((tr ++ [LogAddingToGit p]) ++ [System (GitAdd p)])).
           rewrite <- app_assoc. cbn [app].
           specialize (IH (tr ++ [LogAddingToGit p; System (GitAdd p)])).
           cbn zeta in IH.
           destruct (add_files _ _ _ _) as [g w'|e w'].
           ++ destruct IH as [-> ->]. split; [done|]. f_equal.
              rewrite <- app_assoc. reflexivity.
           ++ destruct IH as (-> & dn & q & rest & Hw & -> & Hq).
              split; [done|]. exists (p :: dn), q, rest.
              split_and!.
              ** by rewrite Hw.
              ** f_equal. rewrite <- app_assoc. reflexivity.
              ** rewrite <- Hq. f_equal. f_equal.
                 rewrite <- !app_assoc. reflexivity.
        -- split; [done|]. eexists [], p, _.
           split_and!; [reflexivity| |].
           ++ unfold emit, with_trace. simpl. by rewrite <- app_assoc.
           ++ done.
    + rewrite decide_False by (intros [? _]; done).
      unfold mbind at 1, M_bind at 1, mret at 1, M_ret at 1. apply IH.
Qed.


Lemma add_files_listing (paths : list Path) (w : World) :
  add_files subprocess_run (Git None) paths w
  = if forallb (λ p, negb (Fs.is_symlink w p)) paths then Ok (Git None) w
    else match subprocess_run GitLsFiles w with
         | Some files =>
             add_files subprocess_run (Git (Some files)) paths
               (emit (System GitLsFiles) w)
         | None => Raise ProgramError (emit (System GitLsFiles) w)
         end.
Proof.
  induction paths as [|p paths IH]; [done|].
  cbn [add_files forallb].
  unfold mbind at 1, M_bind at 1, gets at 1.
  destruct (Fs.is_symlink w p) eqn:El; cbn [negb andb].
  - unfold mbind at 1, M_bind at 1. cbn [add_file].
    unfold mbind at 1, M_bind at 1, execute at 1.
    destruct (subprocess_run GitLsFiles w) as [files|]; [|done].
    unfold mbind at 3, M_bind at 3, gets at 1.
    change (Fs.is_symlink (emit (System GitLsFiles) w) p) with (Fs.is_symlink w p).
    rewrite El. reflexivity.
  - unfold mbind at 1, M_bind at 1, mret at 1, M_ret at 1. rewrite IH.
    destruct (forallb _ paths); [done|].
    destruct (subprocess_run GitLsFiles w); [|done].
    unfold mbind at 1, M_bind at 1, gets at 1.
    change (Fs.is_symlink (emit (System GitLsFiles) w) p) with (Fs.is_symlink w p).
    rewrite El. reflexivity.
Qed.

(** X3. [Directory.__add_files_to_repository] with a [Git] whose listing
    is known: the listing is not asked again and is not extended by what
    is added. [git add] is run, after its log line, for exactly the
    symbolic links with a dotted name below the root that the listing
    does not have, in the order they are found. The first [git add] that
    fails ends the step with [ProgramError], the links before it added
    and the ones after it not tried. *)
Theorem repository_cached (d : Directory) (files : list Path) (w : World) :
  let wanted := untracked_links w (rootdir d) files in
  match add_files_to_repository subprocess_run d (Git (Some files)) w with
  | Ok g w' =>
      g = Git (Some files)
      ∧ w' = with_trace w (trace w ++ git_add_events wanted)
  | Raise e w' =>
      e = ProgramError
      ∧ ∃ done p rest,
          wanted = done ++ p :: rest
          ∧ w' = with_trace w (trace w ++ git_add_events (done ++ [p]))
          ∧ subprocess_run (GitAdd p)
              (with_trace w
                 (trace w ++ git_add_events done ++ [LogAddingToGit p]))
            = None
  end.
Proof.
  unfold add_files_to_repository, untracked_links, mbind, M_bind, gets.
  pose proof (add_files_cached files (Fs.rglob w (rootdir d) pattern_dotted)
                w (trace w)) as H.
  replace (with_trace w (trace w)) with w in H by (by destruct w).
  exact H.
Qed.

(** X4. [Directory.__add_files_to_repository] never touches the tree.
    With [DummyGit] it does nothing at all. With a [Git] that has not yet
    listed its files, [git ls-files] is run once, when the first symbolic
    link is met, and the step goes on as with the listing known; it is
    not run when there is no symbolic link with a dotted name below the
    root, and its failure ends the step with [ProgramError]. *)
Theorem repository_listing (d : Directory) (git : GitObj) (w : World) :
  let links := filter (λ p, Fs.is_symlink w p = true)
                      (Fs.rglob w (rootdir d) pattern_dotted) in
  let asked := emit (System GitLsFiles) w in
  (let w' := final (add_files_to_repository subprocess_run d git w) in
   nodes w' = nodes w ∧ cwd w' = cwd w)
  ∧ add_files_to_repository subprocess_run d DummyGit w = Ok DummyGit w
  ∧ (links = [] →
     add_files_to_repository subprocess_run d (Git None) w = Ok (Git None) w)
  ∧ (links ≠ [] →
     add_files_to_repository subprocess_run d (Git None) w
     = match subprocess_run GitLsFiles w with
       | Some files =>
           add_files_to_repository subprocess_run d (Git (Some files)) asked
       | None => Raise ProgramError asked
       end).
Proof.
  intros links asked.
  assert (Hall : forallb (λ p, negb (Fs.is_symlink w p))
                   (Fs.rglob w (rootdir d) pattern_dotted) = true
                 ↔ links = []).
  { unfold links. generalize (Fs.rglob w (rootdir d) pattern_dotted).
    intros l. induction l as [|p l IH]; [done|]. cbn [forallb].
    rewrite filter_cons. case_decide as Hp; rewrite ?Hp; cbn [negb andb].
    - done.
    - destruct (Fs.is_symlink w p); [done|]. apply IH. }
  split_and!.
  - split; [apply add_files_to_repository_nodes|].
    unfold add_files_to_repository, mbind, M_bind, gets. apply add_files_cwd.
  - unfold add_files_to_repository, mbind, M_bind, gets. apply add_files_dummy.
  - intros Hl. unfold add_files_to_repository, mbind, M_bind, gets.
    rewrite add_files_listing. apply Hall in Hl. by rewrite Hl.
  - intros Hl. unfold add_files_to_repository, mbind, M_bind, gets.
    rewrite add_files_listing.
    destruct (forallb _ _); [|reflexivity]. destruct Hl. by apply Hall.
Qed.

End Repository.

(** ** Making the service directories *)

(** One more component after a directory. *)
Lemma walk_snoc (m : gmap loc node) (b : nat) (cur : loc) (ps : list string)
    (D : loc) (n : string) (t t' : Z) :
  Fs.walk b m cur ps = Some D → Fs.node_at m D = Some (Dir t) →
  Fs.special n = false → m !! (D ++ [n]) = Some (Dir t') →
  Fs.walk b m cur (ps ++ [n]) = Some (D ++ [n]).
Proof.
  intros Hw HD Hs Hn. unfold Fs.special in Hs. apply bool_decide_eq_false in Hs.
  revert cur ps Hw.
  induction b as [|b IHb]; intros cur ps; revert cur;
    induction ps as [|p rest IH]; intros cur; simpl.
  1,3: intros [= ->];
    (destruct (decide (n = "..")); [tauto|]);
    (destruct (decide (n = ".")); [tauto|]); by rewrite Hn.
  - destruct (decide (p = "..")); [apply IH|].
    destruct (decide (p = ".")); [apply IH|].
    destruct (m !! (cur ++ [p])) as [[]|] eqn:E; [|apply IH|done..].
    destruct rest; [|done]. intros [= <-].
    unfold Fs.node_at in HD. destruct (cur ++ [p]) eqn:E'; [by destruct cur|].
    congruence.
  - destruct (decide (p = "..")); [apply IH|].
    destruct (decide (p = ".")); [apply IH|].
    destruct (m !! (cur ++ [p])) as [[]|] eqn:E; [|apply IH| |done].
    + destruct rest; [|done]. intros [= <-].
      unfold Fs.node_at in HD. destruct (cur ++ [p]) eqn:E'; [by destruct cur|].
      congruence.
    + intros H. rewrite app_assoc. by apply IHb.
Qed.

Lemma parts_parent (p : Path) :
  parts p ≠ [] → parts p = parts (PurePath.parent p) ++ [PurePath.name p].
Proof.
  intros H. unfold PurePath.parent, PurePath.name. simpl.
  by apply app_removelast_last.
Qed.

(** A directory just made is there. *)
Lemma mkdir_is_dir (p : Path) (w w' : World) :
  Fs.mkdir p w = inr w' →
  Fs.is_dir w' p = true ∧ dirs_added w w'.
Proof.
  intros (D & n & Hloc & Hs & Hnone & ->)%create_inv.
  assert (Hsub : nodes w ⊆ <[D ++ [n] := Dir (clock w)]> (nodes w))
    by (by apply insert_subseteq).
  split.
  - unfold Fs.locate in Hloc.
    destruct (parts p) as [|q qs] eqn:Hp; [done|].
    destruct (Fs.resolve w (PurePath.parent p)) as [D'|] eqn:HD; [|done].
    destruct (Fs.node_at (nodes w) D') as [[]|] eqn:HD'; try done.
    injection Hloc as -> <-.
    apply is_dir_node. exists (D ++ [PurePath.name p]), (clock w).
    split.
    + unfold Fs.resolve, Fs.start in *. simpl.
      rewrite (parts_parent p) by (by rewrite Hp).
      apply (walk_snoc _ _ _ _ _ _ mtime (clock w)); [|by apply (node_at_mono (nodes w))|done|].
      * by apply (walk_mono (nodes w)).
      * by rewrite lookup_insert_eq.
    + unfold Fs.node_at. simpl.
      destruct (D ++ [PurePath.name p]) eqn:E; [by destruct D|].
      by rewrite <- E, lookup_insert_eq.
  - split; [done|]. split; [done|]. simpl. intros l x Hl.
    destruct (decide (l = D ++ [n])) as [->|Hne].
    + rewrite lookup_insert_eq. intros [= <-]. eauto.
    + rewrite lookup_insert_ne by done. congruence.
Qed.

Lemma dirs_added_refl (w : World) : dirs_added w w.
Proof. split; [done|]. split; [done|]. congruence. Qed.

Lemma dirs_added_trans (w1 w2 w3 : World) :
  dirs_added w1 w2 → dirs_added w2 w3 → dirs_added w1 w3.
Proof.
  intros (Hc & Hs & Hn) (Hc' & Hs' & Hn').
  split; [congruence|]. split; [by etrans|].
  intros l x H1 H3. destruct (nodes w2 !! l) as [y|] eqn:E.
  - rewrite (lookup_weaken _ _ _ _ E Hs') in H3. injection H3 as <-. eauto.
  - eauto.
Qed.

Lemma dirs_added_emit (e : event) (w w' : World) :
  dirs_added (emit e w) w' → dirs_added w w'.
Proof. done. Qed.

Lemma create_errors (x : node) (p : Path) (w : World) (e : exn) :
  Fs.create x p w = inl e →
  e ∈ [FileExistsError; FileNotFoundError; NotADirectoryError].
Proof.
  unfold Fs.create, Fs.locate. mem.
  destruct (parts p); [intros [= <-]; tauto|].
  destruct (Fs.resolve w (PurePath.parent p)); [|intros [= <-]; tauto].
  destruct (Fs.node_at (nodes w) l0) as [[]|]; try (intros [= <-]; tauto).
  destruct (Fs.special _); [intros [= <-]; tauto|].
  destruct (nodes w !! _); [intros [= <-]; tauto|done].
Qed.

Lemma make_dir_cases (p : Path) (w : World) :
  match (tell (LogAddingDirectory p);; act (Fs.mkdir p)) w with
  | Ok _ w' => Fs.is_dir w' p = true ∧ dirs_added w w'
  | Raise e w' =>
      e ∈ [FileExistsError; FileNotFoundError; NotADirectoryError]
      ∧ dirs_added w w'
  end.
Proof.
  unfold mbind, M_bind, tell, act.
  destruct (Fs.mkdir p (emit (LogAddingDirectory p) w)) as [e|w'] eqn:E.
  - split; [by apply create_errors in E|exact (dirs_added_refl w)].
  - apply mkdir_is_dir in E as [H1 H2]. done.
Qed.

Lemma add_missing_subdir_outcome (d : Directory) (subdir : string) (w : World) :
  match add_missing_subdir d subdir w with
  | Ok _ w' =>
      dirs_added w w'
      ∧ Fs.exists_ w' (rootdir d // subdir) = true
      ∧ Fs.exists_ w' (rootdir d // subdir // "published") = true
  | Raise e w' =>
      e ∈ [FileExistsError; FileNotFoundError; NotADirectoryError]
      ∧ dirs_added w w'
  end.
Proof.
  rewrite add_missing_subdir_cases. cbv zeta.
  destruct (Fs.exists_ w (rootdir d // subdir)) eqn:E1.
  - destruct (Fs.exists_ w (rootdir d // subdir // "published")) eqn:E2.
    + split; [apply dirs_added_refl|done].
    + pose proof (make_dir_cases (rootdir d // subdir // "published") w) as H.
      destruct ((tell (LogAddingDirectory (rootdir d // subdir // "published"));;
                 act (Fs.mkdir (rootdir d // subdir // "published"))) w)
        as [[] w'|e w']; [|done].
      destruct H as [Hd Ha]. split; [done|].
      split; [|by apply is_dir_exists].
      destruct Ha as (Hc & Hs & _). by apply (exists_mono w).
  - unfold mbind at 1, M_bind at 1.
    pose proof (make_dir_cases (rootdir d // subdir) w) as H.
    destruct ((tell (LogAddingDirectory (rootdir d // subdir));;
               act (Fs.mkdir (rootdir d // subdir))) w)
      as [[] w1|e w1]; [|done].
    destruct H as [Hd Ha]. apply is_dir_exists in Hd.
    unfold mbind at 1, M_bind at 1, gets at 1.
    destruct (Fs.exists_ w1 (rootdir d // subdir // "published")) eqn:E2; cbn [negb when].
    + done.
    + pose proof (make_dir_cases (rootdir d // subdir // "published") w1) as H.
      destruct ((tell (LogAddingDirectory (rootdir d // subdir // "published"));;
                 act (Fs.mkdir (rootdir d // subdir // "published"))) w1)
        as [[] w'|e w'].
      * destruct H as [Hd' Ha']. split; [by apply (dirs_added_trans w w1)|].
        split; [|by apply is_dir_exists].
        destruct Ha' as (Hc & Hs & _). by apply (exists_mono w1).
      * destruct H as [He Ha']. split; [done|]. by apply (dirs_added_trans w w1).
Qed.

Lemma add_missing_subdirs_outcome (d : Directory) (subs : list string) (w : World) :
  match for_each subs (add_missing_subdir d) w with
  | Ok _ w' =>
      dirs_added w w'
      ∧ ∀ subdir, subdir ∈ subs →
          Fs.exists_ w' (rootdir d // subdir) = true
          ∧ Fs.exists_ w' (rootdir d // subdir // "published") = true
  | Raise e w' =>
      e ∈ [FileExistsError; FileNotFoundError; NotADirectoryError]
      ∧ dirs_added w w'
  end.
Proof.
  revert w. induction subs as [|s subs IH]; intros w; cbn [for_each].
  - split; [apply dirs_added_refl|]. intros ?. by mem.
  - unfold mbind, M_bind.
    pose proof (add_missing_subdir_outcome d s w) as H.
    destruct (add_missing_subdir d s w) as [[] w1|e w1]; [|done].
    destruct H as (Ha & H1 & H2). specialize (IH w1).
    destruct (for_each subs _ w1) as [[] w'|e w'].
    + destruct IH as [Ha' IH]. split; [by apply (dirs_added_trans w w1)|].
      intros subdir. mem. intros [->|Hs]; [|by apply IH].
      destruct Ha' as (Hc & Hs & _).
      split; by apply (exists_mono w1).
    + destruct IH as [He Ha']. split; [done|]. by apply (dirs_added_trans w w1).
Qed.


(** ** Every service gets every preview *)

Lemma round_complete (d : Directory) (all : gset string) (subdir : string)
    (w w' : World) :
  (∀ n, n ∈ all → pattern_small n = true ∧ Fs.special n = false) →
  add_new_small_files_for d all subdir w = Ok () w' →
  Fs.exists_ w (rootdir d // subdir) = true →
  all ⊆ managed_small w' (rootdir d // subdir).
Proof.
  intros Hall. unfold add_new_small_files_for, new_small_images_for.
  unfold mbind at 1, M_bind at 1, gets at 1.
  set (sd := rootdir d // subdir). intros Hrun Hex. rewrite Hex in Hrun.
  cbn [negb] in Hrun. set (new := all ∖ managed_small w sd) in *.
  case_bool_decide as Hnew.
  - destruct (Fs.is_dir w sd) eqn:Hdir.
    + apply is_dir_node in Hdir as Hdir'. destruct Hdir' as (D & t & HD & Ht).
      destruct (add_new_small_files_dir sd (elements new) w D t)
        as (w1 & Hrun1 & Hcwd & Hclock & Hsub & Hnodes); try done.
      { apply NoDup_elements. }
      { intros n [Hn Hm]%elem_of_elements%elem_of_difference.
        split; [by apply Hall|].
        destruct (nodes w !! (D ++ [n])) as [x|] eqn:E; [|done].
        exfalso. apply Hm. apply managed_small_spec. split; [by apply Hall|].
        left. exists D. eauto. }
      rewrite Hrun1 in Hrun. injection Hrun as <-.
      intros n Hn. destruct (decide (n ∈ managed_small w sd)) as [Hm|Hm].
      * by apply (managed_small_mono w w1).
      * apply managed_small_spec. split; [by apply Hall|]. left.
        exists D. split; [by apply (is_dir_mono w)|].
        split; [by apply (resolve_mono w)|].
        rewrite Hnodes. unfold with_links.
        rewrite bool_decide_eq_true_2; [done|].
        apply list_elem_of_fmap. exists n. split; [done|].
        apply elem_of_elements. by apply elem_of_difference.
    + destruct (elements new) as [|n names] eqn:Hel.
      { apply elements_empty_inv in Hel. apply leibniz_equiv in Hel. done. }
      simpl in Hrun.
      by rewrite (bind_Raise _ _ _ _ _ (add_new_small_file_not_dir sd n w Hex Hdir))
        in Hrun.
  - injection Hrun as <-. intros n Hn.
    destruct (decide (n ∈ managed_small w sd)) as [Hm|Hm]; [done|].
    assert (n ∈ new) as Hin by (by apply elem_of_difference).
    rewrite Hnew in Hin. by apply not_elem_of_empty in Hin.
Qed.

Lemma rounds_complete (d : Directory) (all : gset string) (subs : list string)
    (w w' : World) :
  (∀ n, n ∈ all → pattern_small n = true ∧ Fs.special n = false) →
  for_each subs (add_new_small_files_for d all) w = Ok () w' →
  cwd w' = cwd w ∧ nodes w ⊆ nodes w'
  ∧ ∀ subdir, subdir ∈ subs → Fs.exists_ w (rootdir d // subdir) = true →
              all ⊆ managed_small w' (rootdir d // subdir).
Proof.
  intros Hall. revert w. induction subs as [|s subs IH]; intros w; cbn [for_each].
  - intros [= <-]. split; [done|]. split; [done|]. intros ?. by mem.
  - intros ([] & w1 & H1 & Hrest)%bind_inv_Ok.
    pose proof (add_new_small_files_round d all s w Hall) as Hr.
    rewrite H1 in Hr. destruct Hr as (Hc1 & _ & Hs1 & _).
    destruct (IH _ Hrest) as (Hc & Hs & Hman).
    split; [congruence|]. split; [by etrans|].
    intros subdir. mem. intros [->|Hin] Hex.
    + etrans; [by apply (round_complete d all s w w1)|].
      by apply managed_small_mono.
    + apply Hman; [done|]. by apply (exists_mono w).
Qed.

(** X6. When [Directory.__add_new_small_files] returns, every service
    directory that was there manages the name of every preview that
    existed when the step began, as an entry of its own or of its
    [published] child. When the names of the working directory are
    within the limits of the system, the step raises nothing but
    [NotADirectoryError] from a system call of its own, and that only
    when one of the service paths does not lead to a directory. *)
Theorem previews_handed_out (d : Directory) (w : World) :
  within_limits d w = true →
  match add_new_small_files d w with
  | Ok _ w' =>
      ∀ subdir, subdir ∈ known_subdirs d →
        Fs.exists_ w (rootdir d // subdir) = true →
        all_small d w ⊆ managed_small w' (rootdir d // subdir)
  | Raise e w' =>
      e = NotADirectoryError
      ∧ ∃ subdir, subdir ∈ known_subdirs d
                  ∧ Fs.is_dir w (rootdir d // subdir) = false
  end.
Proof.
  intros _.
  pose proof (add_new_small_files_outcome d w) as Hout.
  assert (Hall : ∀ n, n ∈ all_small d w →
                      pattern_small n = true ∧ Fs.special n = false)
    by apply all_small_names.
  unfold add_new_small_files in *.
  unfold mbind at 1, M_bind at 1, gets at 1 in Hout.
  unfold mbind at 1, M_bind at 1, gets at 1.
  destruct (for_each (known_subdirs d) _ w) as [[] w'|e w'] eqn:Hrun.
  - by apply (rounds_complete d _ _ w w' Hall Hrun).
  - split; [exact Hout|].
    set (inv := λ w1, cwd w1 = cwd w ∧ nodes w ⊆ nodes w1).
    assert (Hstep : ∀ subdir w1 w2, subdir ∈ known_subdirs d → inv w1 →
              add_new_small_files_for d (all_small d w) subdir w1 = Ok () w2 →
              inv w2).
    { intros subdir w1 w2 _ [Hc Hs] Hr.
      pose proof (add_new_small_files_round d _ subdir w1 Hall) as Hr'.
      rewrite Hr in Hr'. destruct Hr' as (Hc' & _ & Hs' & _).
      split; [congruence|by etrans]. }
    destruct (for_each_Raise inv _ _ _ _ _ Hstep (conj eq_refl (reflexivity _)) Hrun)
      as (subdir & w1 & Hin & [Hc Hs] & Hr).
    exists subdir. split; [done|].
    pose proof (add_new_small_files_round d _ subdir w1 Hall) as Hr'.
    rewrite Hr in Hr'. destruct Hr' as (_ & _ & Hnd & _).
    destruct (Fs.is_dir w (rootdir d // subdir)) eqn:E; [|done].
    by rewrite (is_dir_mono w w1) in Hnd.
Qed.

Lemma previews_handed_out_witness :
  let d := new_Directory Examples.workdir ["web"] Examples.repaired in
  within_limits d Examples.repaired = true
  ∧ match add_new_small_files d Examples.repaired with
    | Ok _ w' =>
        ∀ subdir, subdir ∈ known_subdirs d →
          Fs.exists_ Examples.repaired (rootdir d // subdir) = true →
          all_small d Examples.repaired ⊆ managed_small w' (rootdir d // subdir)
    | Raise e w' =>
        e = NotADirectoryError
        ∧ ∃ subdir, subdir ∈ known_subdirs d
                    ∧ Fs.is_dir Examples.repaired (rootdir d // subdir) = false
    end.
Proof.
  intros d.
  assert (H : within_limits d Examples.repaired = true)
    by (vm_compute; reflexivity).
  split; [exact H|]. exact (previews_handed_out d Examples.repaired H).
Defined.

(** ** Repairing one published link *)

Lemma path_parent_name (p : Path) :
  parts p ≠ [] → p = PurePath.parent p // PurePath.name p.
Proof.
  intros H. destruct p as [a ps]. unfold PurePath.joinpath. simpl in *.
  f_equal. by apply app_removelast_last.
Qed.

(** X7. One round of [Directory.__fixup_published_links]. A link whose
    target, read from the link's own directory with every link on the
    way followed, exists is left alone and nothing is logged. A link
    whose target does not exist is replaced, in a directory without
    links on its path, by [../../<name>] under the same name, and
    nothing else in the tree changes; whether the new target exists is
    not looked at. An entry that is no symbolic link ends the step with
    [OSError]. *)
Theorem published_link_repair (p : Path) (w : World) :
  let newlink := PurePath.dotdot // ".." // PurePath.name p in
  (∀ link, Fs.readlink w p = inr link →
     Fs.exists_ w (PurePath.join (PurePath.parent p) link) = true →
     fixup_published_link p w = Ok () w)
  ∧ (∀ link, Fs.readlink w p = inr link →
       Fs.exists_ w (PurePath.join (PurePath.parent p) link) = false →
       Fs.real w (PurePath.parent p) = true →
       ∃ w', fixup_published_link p w = Ok () w'
             ∧ Fs.readlink w' p = inr newlink
             ∧ trace w' = trace w ++ [LogReplacingLink p link newlink]
             ∧ ∀ l x, nodes w' !! l ≠ nodes w !! l →
                      nodes w !! l = Some x →
                      x = Symlink link ∧ nodes w' !! l = Some (Symlink newlink))
  ∧ (∀ x, Fs.entry w p = Some x → (∀ t, x ≠ Symlink t) →
          fixup_published_link p w = Raise OSError w).
Proof.
  intros newlink. split_and!.
  - intros link Hl Hex. rewrite fixup_published_link_cases. by rewrite Hl, Hex.
  - intros link Hl Hex Hreal. rewrite fixup_published_link_cases.
    rewrite Hl, Hex. cbv zeta. fold newlink.
    set (w0 := emit (LogReplacingLink p link newlink) w).
    apply readlink_locate in Hl as (D & n & Hloc & Hsp & Hn).
    assert (Hparts : parts p ≠ []).
    { unfold Fs.locate in Hloc. by destruct (parts p). }
    rewrite (replace_link_real w0 p newlink link D n); try done.
    eexists. split; [reflexivity|].
    set (w' := set_nodes w0 (<[D ++ [n] := Symlink newlink]> (nodes w0))).
    assert (Hk : keeps_dirs w w').
    { split; [done|]. intros l t Hlt. exists t. simpl.
      rewrite lookup_insert_ne; [done|]. intros <-. congruence. }
    split_and!.
    + apply readlink_locate. exists D, n. split_and!; [|done|].
      * pose proof (path_parent_name p Hparts) as Hp.
        pose proof (locate_real w _ (PurePath.name p) Hreal) as H1.
        pose proof (locate_real w' _ (PurePath.name p)
                      (real_keep _ _ _ Hk Hreal)) as H2.
        rewrite <- Hp in H1, H2. rewrite H2. rewrite H1 in Hloc. exact Hloc.
      * simpl. by rewrite lookup_insert_eq.
    + done.
    + simpl. intros l x Hne Hx.
      destruct (decide (l = D ++ [n])) as [->|Hl].
      * rewrite lookup_insert_eq. split; congruence.
      * by rewrite lookup_insert_ne in Hne.
  - intros x Hx Hnl. rewrite fixup_published_link_cases.
    unfold Fs.readlink. rewrite Hx. by destruct x; [..|destruct (Hnl target)].
Qed.

(** ** When discovery fails *)

Lemma fault_kinds (b : nat) (m : gmap loc node) (cur : loc) (ps : list string) :
  Fs.fault b m cur ps = FileNotFoundError
  ∨ Fs.fault b m cur ps = NotADirectoryError
  ∨ Fs.fault b m cur ps = OSError.
Proof.
  revert cur ps. induction b as [|b IHb]; intros cur ps; revert cur;
    induction ps as [|p rest IH]; intros cur; simpl; auto;
    repeat case_decide; auto;
    destruct (m !! (cur ++ [p])) as [[]|]; auto; destruct rest; auto.
Qed.

Lemma iterdir_cases (w : World) (p : Path) :
  match Fs.iterdir w p with
  | inr _ => Fs.is_dir w p = true
  | inl e =>
      Fs.is_dir w p = false
      ∧ e = if Fs.exists_ w p then NotADirectoryError
            else Fs.fault Fs.MAXSYMLINKS (nodes w) (Fs.start w p) (parts p)
  end.
Proof.
  unfold Fs.iterdir, Fs.is_dir, Fs.exists_, Fs.stat.
  destruct (Fs.resolve w p) as [D|]; simpl; [|done].
  by destruct (Fs.node_at (nodes w) D) as [[]|].
Qed.

Lemma roots_cases (w : World) (dirs : list Path) :
  match Application.roots w dirs with
  | inr _ => ∀ dir, dir ∈ dirs → Fs.is_dir w dir = true
  | inl e =>
      ∃ dir, dir ∈ dirs ∧ Fs.is_dir w dir = false
             ∧ e = if Fs.exists_ w dir then NotADirectoryError
                   else Fs.fault Fs.MAXSYMLINKS (nodes w) (Fs.start w dir)
                          (parts dir)
  end.
Proof.
  induction dirs as [|dir dirs IH]; simpl.
  - intros ?. by mem.
  - pose proof (iterdir_cases w dir) as Hd.
    destruct (Fs.iterdir w dir) as [e|entries].
    + exists dir. split; [left|done].
    + destruct (Application.roots w dirs) as [e|rs].
      * destruct IH as (dir' & Hin & H). exists dir'. split; [by right|done].
      * intros dir'. mem. intros [->|Hin]; [done|by apply IH].
Qed.

(** X8. In a state whose names are within the limits of the system,
    discovery ([Application.all_workdirs], and [workdirs] with it) comes
    to an end exactly when everything it scans is a directory, and
    nothing is handed out before a failure. It fails with
    [NotADirectoryError] when a month entry, or else the path itself, is
    there and is not a directory. Otherwise it fails when neither the
    path nor a month entry is there, with the error of the system for the
    path: [FileNotFoundError] at a missing component,
    [NotADirectoryError] at a component below a regular file, [OSError]
    at too many links. *)
Theorem discovery_errors (w : World) (path : Path) :
  short_names w = true →
  short_path path = true →
  match Application.workdirs w path with
  | inr _ =>
      ∀ dir, dir ∈ Application.month_workdirs w path → Fs.is_dir w dir = true
  | inl e =>
      Application.all_workdirs w path = inl e
      ∧ (e = NotADirectoryError
         ∧ (∃ dir, dir ∈ Application.month_workdirs w path
                   ∧ Fs.exists_ w dir = true ∧ Fs.is_dir w dir = false)
         ∨ Fs.exists_ w path = false
           ∧ (∀ month, month ∈ Application.months →
                       Fs.exists_ w (path // month) = false)
           ∧ e = Fs.fault Fs.MAXSYMLINKS (nodes w) (Fs.start w path)
                   (parts path)
           ∧ (e = FileNotFoundError ∨ e = NotADirectoryError ∨ e = OSError))
  end.
Proof.
  intros _ _.
  unfold Application.workdirs, Application.all_workdirs.
  pose proof (roots_cases w (Application.month_workdirs w path)) as H.
  destruct (Application.roots w _) as [e|rs]; [|done].
  split; [done|]. destruct H as (dir & Hin & Hnd & ->).
  destruct (Fs.exists_ w dir) eqn:Hex; [left; eauto|]. right.
  unfold Application.month_workdirs in Hin.
  destruct (filter _ _) as [|q qs] eqn:Hf.
  - revert Hin. mem. intros [->|[]]. split_and!; [done| |done|apply fault_kinds].
    intros month Hm.
    destruct (Fs.exists_ w (path // month)) eqn:E; [|done].
    assert (path // month ∈ @nil Path) as Hbad; [|by apply elem_of_nil in Hbad].
    rewrite <- Hf. apply list_elem_of_filter. split; [done|].
    apply list_elem_of_fmap. eauto.
  - rewrite <- Hf in Hin. apply list_elem_of_filter in Hin as [Hex' _].
    congruence.
Qed.

Lemma discovery_errors_witness :
  let path := mkPath true ["arch"; "2022-01-01"; "DSC_0002.JPG"; "x"] in
  short_names Examples.settled = true
  ∧ short_path path = true
  ∧ Application.workdirs Examples.settled path = inl NotADirectoryError
  ∧ Application.all_workdirs Examples.settled path = inl NotADirectoryError.
Proof.
  intros path.
  assert (H1 : short_names Examples.settled = true) by (vm_compute; reflexivity).
  assert (H2 : short_path path = true) by (vm_compute; reflexivity).
  assert (H3 : Application.workdirs Examples.settled path
               = inl NotADirectoryError) by (vm_compute; reflexivity).
  split; [exact H1|]. split; [exact H2|]. split; [exact H3|].
  pose proof (discovery_errors Examples.settled path H1 H2) as H.
  rewrite H3 in H. exact (proj1 H).
Defined.

(** ** The loop over the working directories *)

Lemma same_tree_refl (w : World) : same_tree w w.
Proof. done. Qed.

Lemma same_tree_trans (w1 w2 w3 : World) :
  same_tree w1 w2 → same_tree w2 w3 → same_tree w1 w3.
Proof. intros [H1 H2] [H3 H4]. split; congruence. Qed.

Lemma exists_same_tree (w w' : World) (p : Path) :
  same_tree w w' → Fs.exists_ w' p = Fs.exists_ w p.
Proof.
  intros [Hn Hc]. unfold Fs.exists_, Fs.stat, Fs.resolve, Fs.start.
  by rewrite Hn, Hc.
Qed.

Lemma fold_each_app {A S} (l1 l2 : list A) (body : A → S → M S) (s : S)
    (w : World) :
  fold_each (l1 ++ l2) body s w
  = (s' ← fold_each l1 body s; fold_each l2 body s') w.
Proof.
  revert s w. induction l1 as [|x l1 IH]; intros s w; [done|].
  cbn [app fold_each]. unfold mbind, M_bind.
  destruct (body x s w) as [s1 w1|e w1]; [|done]. apply IH.
Qed.

Section Lazy.
Context {S : Type} (body : Path → S → M S).
Hypothesis body_reads : reads_only body.

Lemma fold_each_reads (l : list Path) (s : S) (w : World) :
  same_tree w (final (fold_each l body s w)).
Proof.
  revert s w. induction l as [|x l IH]; intros s w; [done|].
  cbn [fold_each]. unfold mbind, M_bind.
  pose proof (body_reads x s w) as H.
  destruct (body x s w) as [s1 w1|e w1]; [|done].
  apply (same_tree_trans w w1); [done|apply IH].
Qed.

Lemma visit_publish (w w1 : World) (p : Path) (s : S) :
  same_tree w w1 →
  visit p body s w1 = fold_each (Application.publish_dirs w [p]) body s w1.
Proof.
  intros Hw. unfold visit, mbind, M_bind, gets. cbn [Application.publish_dirs].
  rewrite (exists_same_tree w w1 _ Hw).
  destruct (Fs.exists_ w (p // "publish")); [|done].
  cbn [fold_each]. unfold mbind, M_bind.
  by destruct (body (p // "publish") s w1).
Qed.

Lemma for_letters_found (w w1 : World) (r : Path) (ls : list string)
    (b : bool) (s : S) :
  same_tree w w1 →
  for_letters r ls b body s w1
  = (s' ← fold_each
            (Application.publish_dirs w
               (filter (λ p, Fs.exists_ w p = true) ((λ l, r // l) <$> ls)))
            body s;
     mret (b || bool_decide
                  (filter (λ p, Fs.exists_ w p = true) ((λ l, r // l) <$> ls)
                   ≠ []), s')) w1.
Proof.
  revert b s w1. induction ls as [|l ls IH]; intros b s w1 Hw.
  - cbn [for_letters]. unfold mbind, M_bind. cbn. by rewrite orb_false_r.
  - cbn [for_letters]. unfold mbind at 1, M_bind at 1, gets at 1.
    rewrite (exists_same_tree w w1 _ Hw), fmap_cons, filter_cons.
    destruct (Fs.exists_ w (r // l)) eqn:E.
    + rewrite decide_True by done.
      rewrite (bool_decide_eq_true_2 (_ :: _ ≠ [])) by done.
      rewrite orb_true_r. cbn [Application.publish_dirs].
      unfold visit. unfold mbind at 1 2, M_bind at 1 2, gets at 1.
      rewrite (exists_same_tree w w1 _ Hw).
      destruct (Fs.exists_ w (r // l // "publish")) eqn:E2.
      * cbn [fold_each]. unfold mbind at 1 2, M_bind at 1 2.
        pose proof (body_reads (r // l // "publish") s w1) as Hb.
        destruct (body (r // l // "publish") s w1) as [s2 w2|e w2]; [|done].
        rewrite IH by (by apply (same_tree_trans w w1)).
        unfold mbind, M_bind. by destruct (fold_each _ body s2 w2).
      * unfold mret at 1, M_ret at 1. rewrite IH by done.
        unfold mbind, M_bind. by destruct (fold_each _ body s w1).
    + rewrite decide_False by done. by apply IH.
Qed.

Lemma for_roots_snapshot (w w1 : World) (rs : list Path) (s : S) :
  same_tree w w1 →
  for_roots rs body s w1
  = fold_each
      (Application.publish_dirs w
         (flat_map (λ r, Application.letter_roots w r Application.letters false) rs))
      body s w1.
Proof.
  revert s w1. induction rs as [|r rs IH]; intros s w1 Hw; [done|].
  cbn [for_roots flat_map].
  rewrite publish_dirs_spec, fmap_app, filter_app, <- !publish_dirs_spec.
  rewrite fold_each_app.
  unfold mbind at 1, M_bind at 1.
  rewrite (for_letters_found w w1 _ _ _ _ Hw).
  rewrite letter_roots_spec. cbn zeta.
  set (found := filter (λ p, Fs.exists_ w p = true)
                  ((λ l, r // l) <$> Application.letters)).
  destruct (decide (found = [])) as [Hf|Hf].
  - rewrite Hf. change (Application.publish_dirs w []) with (@nil Path).
    cbn [fold_each].
    rewrite (bool_decide_eq_false_2 ([] ≠ [])) by (by intros ?).
    unfold mbind at 1, M_bind at 1, mret at 1 2, M_ret at 1 2.
    cbn [orb fst snd]. unfold mbind at 1 2, M_bind at 1 2.
    rewrite (visit_publish w w1 _ _ Hw).
    pose proof (fold_each_reads (Application.publish_dirs w [r]) s w1) as Hr.
    destruct (fold_each (Application.publish_dirs w [r]) body s w1)
      as [s2 w2|e w2]; [|done].
    apply IH. by apply (same_tree_trans w w1).
  - rewrite (bool_decide_eq_true_2 (found ≠ [])) by done.
    unfold mbind at 1 3, M_bind at 1 3.
    pose proof (fold_each_reads (Application.publish_dirs w found) s w1) as Hr.
    destruct (fold_each (Application.publish_dirs w found) body s w1)
      as [s2 w2|e w2]; [|done].
    unfold mret at 1, M_ret at 1.
    cbn [orb fst snd]. unfold mbind at 1, M_bind at 1, mret at 1, M_ret at 1.
    apply IH. by apply (same_tree_trans w w1).
Qed.

Lemma for_workdirs_snapshot (path : Path) (s : S) (w : World) :
  for_workdirs path body s w
  = match Application.workdirs w path with
    | inl e => Raise e w
    | inr dirs => fold_each dirs body s w
    end.
Proof.
  unfold for_workdirs, Application.workdirs, Application.all_workdirs.
  unfold mbind, M_bind, ask.
  destruct (Application.roots w _) as [e|rs]; [done|].
  by apply for_roots_snapshot.
Qed.

(** X9. A loop over [Application.workdirs] whose body leaves the tree as
    it is visits exactly the working directories that discovery finds
    on the state the loop starts in, in their order; when discovery
    fails the loop raises before its first round. *)
Theorem workdirs_read_only (path : Path) (s : S) (w : World) :
  for_workdirs path body s w
  = match Application.workdirs w path with
    | inl e => Raise e w
    | inr dirs => fold_each dirs body s w
    end
  ∧ same_tree w (final (for_workdirs path body s w)).
Proof.
  split; [apply for_workdirs_snapshot|]. rewrite for_workdirs_snapshot.
  destruct (Application.workdirs w path) as [e|dirs]; [done|].
  apply fold_each_reads.
Qed.

End Lazy.

(** A loop of bodies that print. *)
Lemma fold_each_print (f : Path → list Path) (body : Path → unit → M unit)
    (dirs : list Path) (w : World) (tr : list event) :
  (∀ dir tr, body dir () (with_trace w tr)
             = Ok () (with_trace w (tr ++ (Print <$> f dir)))) →
  fold_each dirs body () (with_trace w tr)
  = Ok () (with_trace w (tr ++ (Print <$> flat_map f dirs))).
Proof.
  intros Hbody. revert tr. induction dirs as [|dir dirs IH]; intros tr.
  - cbn. by rewrite app_nil_r.
  - cbn [fold_each flat_map]. unfold mbind, M_bind. rewrite Hbody, IH.
    by rewrite fmap_app, app_assoc.
Qed.

Lemma with_trace_trace (w : World) : with_trace w (trace w) = w.
Proof. by destruct w. Qed.

Lemma print_missing_run (root : Path) (subs : list string) (w : World) :
  action_print_missing (new_Directory root subs w) w
  = Ok () (with_trace w (trace w ++ (Print <$> missing_of w subs root))).
Proof.
  apply (print_missing_loop (sources (new_Directory root subs w)) w).
  intros s Hs. by apply (snapshot_large root subs w w).
Qed.

Lemma not_published_run (d : Directory) (service : string) (w : World) :
  action_not_published d service w
  = Ok () (with_trace w
             (trace w ++ (Print <$> not_published_of w service (rootdir d)))).
Proof.
  unfold action_not_published, not_published_of.
  unfold mbind at 1, M_bind at 1, gets at 1.
  destruct (Fs.exists_ w (rootdir d // service)); cbn [negb].
  - unfold mbind at 1, M_bind at 1, gets at 1.
    by rewrite (print_loop Fs.is_symlink).
  - cbn. by rewrite with_trace_id.
Qed.

(** A loop over the working directories whose body only prints. *)
Lemma print_action_all (f : World → Path → list Path)
    (body : Path → unit → M unit) (path : Path) (w : World) :
  (∀ w dir tr, body dir () (with_trace w tr)
               = Ok () (with_trace w (tr ++ (Print <$> f w dir)))) →
  for_workdirs path body () w
  = match Application.workdirs w path with
    | inl e => Raise e w
    | inr dirs =>
        Ok () (with_trace w (trace w ++ (Print <$> flat_map (f w) dirs)))
    end.
Proof.
  intros Hbody. rewrite for_workdirs_snapshot.
  - destruct (Application.workdirs w path) as [e|dirs]; [done|].
    rewrite <- (with_trace_trace w) at 1.
    apply (fold_each_print (f w)). apply Hbody.
  - intros p [] w1. rewrite <- (with_trace_trace w1) at 2.
    by rewrite (Hbody w1 p (trace w1)).
Qed.

Lemma print_missing_round (services : list string) (w : World) (dir : Path)
    (tr : list event) :
  (d ← gets (new_Directory dir services); action_print_missing d)
    (with_trace w tr)
  = Ok () (with_trace w (tr ++ (Print <$> missing_of w services dir))).
Proof.
  unfold mbind, M_bind, gets.
  exact (print_missing_run dir services (with_trace w tr)).
Qed.

Lemma not_published_round (services : list string) (service : string)
    (w : World) (dir : Path) (tr : list event) :
  (d ← gets (new_Directory dir services); action_not_published d service)
    (with_trace w tr)
  = Ok () (with_trace w (tr ++ (Print <$> not_published_of w service dir))).
Proof.
  unfold mbind, M_bind, gets.
  exact (not_published_run (new_Directory dir services (with_trace w tr))
           service (with_trace w tr)).
Qed.

(** X10. When the names of the archive are within the limits of the
    system, [Application.action_print_missing] changes nothing in the
    tree and fails only when discovery fails. Otherwise it prints,
    working directory by working directory in the order of discovery,
    the sources of each whose large image is not there. *)
Theorem missing_printed (path : Path) (services : list string) (w : World) :
  short_names w = true →
  short_path path = true →
  forallb short_name services = true →
  Application_action_print_missing path services w
  = match Application.workdirs w path with
    | inl e => Raise e w
    | inr dirs =>
        Ok () (with_trace w
                 (trace w ++ (Print <$> flat_map (missing_of w services) dirs)))
    end.
Proof.
  intros _ _ _. unfold Application_action_print_missing.
  apply (print_action_all (λ w, missing_of w services)).
  intros w0 dir tr. apply print_missing_round.
Qed.

Lemma missing_printed_witness :
  let path := mkPath true ["arch"] in
  short_names Examples.lost = true
  ∧ short_path path = true
  ∧ forallb short_name ["web"] = true
  ∧ Application_action_print_missing path ["web"] Examples.lost
    = match Application.workdirs Examples.lost path with
      | inl e => Raise e Examples.lost
      | inr dirs =>
          Ok () (with_trace Examples.lost
                   (trace Examples.lost
                    ++ (Print <$> flat_map (missing_of Examples.lost ["web"]) dirs)))
      end.
Proof.
  intros path.
  assert (H1 : short_names Examples.lost = true) by (vm_compute; reflexivity).
  assert (H2 : short_path path = true) by (vm_compute; reflexivity).
  assert (H3 : forallb short_name ["web"] = true) by (vm_compute; reflexivity).
  split; [exact H1|]. split; [exact H2|]. split; [exact H3|].
  exact (missing_printed path ["web"] Examples.lost H1 H2 H3).
Defined.

Lemma not_published_reads (services : list string) (service : string) :
  reads_only (λ workdir (_ : unit),
                d ← gets (new_Directory workdir services);
                action_not_published d service).
Proof.
  intros p [] w. unfold mbind, M_bind, gets. by rewrite not_published_run.
Qed.

Lemma workdirs_read_only_witness :
  reads_only (λ workdir (_ : unit),
                d ← gets (new_Directory workdir ["web"]);
                action_not_published d "web")
  ∧ same_tree Examples.bucketed
      (final (for_workdirs (mkPath true ["y"])
                (λ workdir (_ : unit),
                   d ← gets (new_Directory workdir ["web"]);
                   action_not_published d "web")
                () Examples.bucketed)).
Proof.
  split; [apply not_published_reads|].
  apply (workdirs_read_only _ (not_published_reads ["web"] "web")
           (mkPath true ["y"]) () Examples.bucketed).
Defined.


(** ** Nothing is removed *)

Lemma same_kind_refl (x : node) : same_kind x x.
Proof. by destruct x. Qed.

Lemma same_kind_trans (x y z : node) :
  same_kind x y → same_kind y z → same_kind x z.
Proof. by destruct x, y, z. Qed.

Lemma keeps_entries_refl (w : World) : keeps_entries w w.
Proof. intros l x H. exists x. split; [done|apply same_kind_refl]. Qed.

Lemma keeps_entries_trans (w1 w2 w3 : World) :
  keeps_entries w1 w2 → keeps_entries w2 w3 → keeps_entries w1 w3.
Proof.
  intros H1 H2 l x Hx. destruct (H1 l x Hx) as (y & Hy & Hxy).
  destruct (H2 l y Hy) as (z & Hz & Hyz). exists z.
  split; [done|by apply (same_kind_trans x y z)].
Qed.

Lemma keeps_entries_sub (w w' : World) :
  nodes w ⊆ nodes w' → keeps_entries w w'.
Proof.
  intros Hsub l x Hx. exists x.
  split; [by apply (lookup_weaken _ _ _ _ Hx Hsub)|apply same_kind_refl].
Qed.

Lemma keeps_entries_for_each {A} (l : list A) (body : A → M unit) (w w' : World) :
  (∀ x w1 w2, x ∈ l → body x w1 = Ok () w2 → keeps_entries w1 w2) →
  for_each l body w = Ok () w' → keeps_entries w w'.
Proof.
  intros Hbody. apply (for_each_Ok (keeps_entries w)); [|apply keeps_entries_refl].
  intros x w1 w2 Hx H1 Hr. apply (keeps_entries_trans w w1); [done|].
  by apply (Hbody x).
Qed.

(** A link replaced is still a link. *)
Lemma keeps_entries_replace_link (p target t : Path) (w w' : World) :
  Fs.readlink w p = inr t →
  replace_link p target w = Ok () w' → keeps_entries w w'.
Proof.
  intros (D & n & Hloc & Hs & Hn)%readlink_locate
         (D' & n' & x & Hloc' & _ & _ & _ & ->)%replace_link_Ok.
  rewrite Hloc in Hloc'. injection Hloc' as <- <-.
  intros l y Hy. simpl. destruct (decide (l = D ++ [n])) as [->|Hne].
  - rewrite lookup_insert_eq. eexists. split; [done|].
    rewrite Hn in Hy. by injection Hy as <-.
  - rewrite lookup_insert_ne by done. exists y. split; [done|apply same_kind_refl].
Qed.

Lemma keeps_entries_add_missing_subdirs (d : Directory) (w w' : World) :
  add_missing_subdirs d w = Ok () w' → keeps_entries w w'.
Proof.
  intros H. pose proof (add_missing_subdirs_outcome d (known_subdirs d) w) as Ho.
  unfold add_missing_subdirs in H. rewrite H in Ho.
  destruct Ho as [(_ & Hsub & _) _]. by apply keeps_entries_sub.
Qed.

Lemma keeps_entries_add_new_small_files (d : Directory) (w w' : World) :
  add_new_small_files d w = Ok () w' → keeps_entries w w'.
Proof.
  intros H. pose proof (add_new_small_files_outcome d w) as Ho.
  rewrite H in Ho. destruct Ho as (_ & _ & Hsub & _). by apply keeps_entries_sub.
Qed.

Lemma keeps_entries_fixup_source_photos_links (d : Directory) (w w' : World) :
  fixup_source_photos_links d w = Ok () w' → keeps_entries w w'.
Proof.
  apply keeps_entries_for_each. intros s w1 w2 _.
  rewrite fixup_source_photos_link_cases. cbv zeta.
  destruct (Fs.readlink w1 (Source.path s)) as [e|link] eqn:Hl; [done|].
  destruct (is_absolute link); [|intros [= <-]; apply keeps_entries_refl].
  intros Hr. by apply (keeps_entries_replace_link _ _ link) in Hr.
Qed.

Lemma keeps_entries_fixup_published_links (d : Directory) (w w' : World) :
  fixup_published_links d w = Ok () w' → keeps_entries w w'.
Proof.
  apply keeps_entries_for_each. intros subdir w1 w2 _.
  unfold fixup_published_links_for, mbind, M_bind, gets.
  destruct (Fs.exists_ w1 _); cbn [negb]; [|intros [= <-]; apply keeps_entries_refl].
  apply keeps_entries_for_each. intros p w3 w4 _.
  rewrite fixup_published_link_cases.
  destruct (Fs.readlink w3 p) as [e|link] eqn:Hl; [done|].
  destruct (Fs.exists_ w3 _); [intros [= <-]; apply keeps_entries_refl|].
  intros Hr. by apply (keeps_entries_replace_link _ _ link) in Hr.
Qed.

Section Kept.
Variable os_system : command → World → World * Z.
Variable subprocess_run : command → World → option (list Path).
Hypothesis converter_keeps : keeps_kinds os_system.

Lemma keeps_entries_create_missing_small_images (d : Directory) (w w' : World) :
  create_missing_small_images os_system d w = Ok () w' → keeps_entries w w'.
Proof.
  apply keeps_entries_for_each. intros s w1 w2 _.
  rewrite create_missing_small_image_cases.
  destruct (Source.large w1 s) as [e|large]; [done|]. cbv zeta.
  destruct (Fs.exists_ w1 large); [|intros [= <-]; apply keeps_entries_refl].
  destruct (small_image_action w1 large (Source.small s)) as [e|[a|]];
    [done| |intros [= <-]; apply keeps_entries_refl].
  intros [= <-].
  pose proof (converter_keeps
                (ConvertResize large SMALL_JPEG_WIDTH (Source.small s))
                (emit (log_action a (Source.small s) large) w1)) as Hk.
  by destruct (_ =? 0).
Qed.

Lemma keeps_entries_action_fixup (d : Directory) (git g : GitObj) (w w' : World) :
  action_fixup os_system subprocess_run d git w = Ok g w' → keeps_entries w w'.
Proof.
  unfold action_fixup.
  intros ([] & w1 & H1 & H)%bind_inv_Ok.
  apply bind_inv_Ok in H as ([] & w2 & H2 & H).
  apply bind_inv_Ok in H as ([] & w3 & H3 & H).
  apply bind_inv_Ok in H as ([] & w4 & H4 & H).
  apply bind_inv_Ok in H as ([] & w5 & H5 & H6).
  apply keeps_entries_add_missing_subdirs in H1.
  apply keeps_entries_create_missing_small_images in H2.
  apply keeps_entries_add_new_small_files in H3.
  apply keeps_entries_fixup_source_photos_links in H4.
  apply keeps_entries_fixup_published_links in H5.
  pose proof (add_files_to_repository_nodes subprocess_run d git w5) as H7.
  rewrite H6 in H7. simpl in H7.
  assert (keeps_entries w5 w') by (intros l x; rewrite H7; apply keeps_entries_refl).
  repeat (eapply keeps_entries_trans; [eassumption|]). apply keeps_entries_refl.
Qed.


(** What every round keeps, the loop over the working directories
    keeps. *)
Section Rounds.
Context {S : Type} (P : S → World → Prop) (body : Path → S → M S).
Hypothesis body_keeps :
  ∀ p s1 w1 s2 w2, P s1 w1 → body p s1 w1 = Ok s2 w2 → P s2 w2.

Lemma visit_Ok (p : Path) (s s' : S) (w w' : World) :
  P s w → visit p body s w = Ok s' w' → P s' w'.
Proof.
  intros HP. unfold visit, mbind, M_bind, gets.
  destruct (Fs.exists_ w (p // "publish")).
  - by apply body_keeps.
  - by intros [= <- <-].
Qed.

Lemma for_letters_Ok (r : Path) (ls : list string) (b : bool) (s : S)
    (r' : bool * S) (w w' : World) :
  P s w → for_letters r ls b body s w = Ok r' w' → P r'.2 w'.
Proof.
  revert b s w. induction ls as [|l ls IH]; intros b s w HP; cbn [for_letters].
  - by intros [= <- <-].
  - unfold mbind at 1, M_bind at 1, gets at 1.
    destruct (Fs.exists_ w (r // l)); [|by apply IH].
    intros (s1 & w1 & H1 & H2)%bind_inv_Ok.
    apply (IH true s1 w1); [|done]. by apply (visit_Ok (r // l) s s1 w).
Qed.

Lemma for_roots_Ok (rs : list Path) (s s' : S) (w w' : World) :
  P s w → for_roots rs body s w = Ok s' w' → P s' w'.
Proof.
  revert s w. induction rs as [|r rs IH]; intros s w HP; cbn [for_roots].
  - by intros [= <- <-].
  - intros ([b s1] & w1 & H1 & H2)%bind_inv_Ok.
    apply bind_inv_Ok in H2 as (s2 & w2 & H2 & H3).
    apply (for_letters_Ok _ _ _ _ _ w) in H1; [|done].
    apply (IH s2 w2); [|done]. cbn [fst snd] in H1, H2. destruct b.
    + by injection H2 as <- <-.
    + by apply (visit_Ok r s1 s2 w1).
Qed.

Lemma for_workdirs_Ok (path : Path) (s s' : S) (w w' : World) :
  P s w → for_workdirs path body s w = Ok s' w' → P s' w'.
Proof.
  intros HP. unfold for_workdirs, mbind, M_bind, ask.
  destruct (Application.roots w _) as [e|rs]; [done|].
  by apply for_roots_Ok.
Qed.

End Rounds.

(** X12. [Application.action_fixup], when it comes to its end, has
    removed no entry of the tree and has turned none into an entry of
    another kind, provided the converter does neither: every regular
    file is still a regular file, every directory a directory, and
    every symbolic link a symbolic link, in every working directory the
    run went through and outside of them. *)
Theorem fixup_keeps_entries (path : Path) (services : list string)
    (git g : GitObj) (w w' : World) :
  Application_action_fixup os_system subprocess_run path services git w
  = Ok g w' →
  keeps_entries w w'.
Proof.
  apply (for_workdirs_Ok (λ _, keeps_entries w)); [|apply keeps_entries_refl].
  intros p g1 w1 g2 w2 H1 H2. apply (keeps_entries_trans w w1); [done|].
  unfold fixup_workdir, mbind, M_bind, gets in H2.
  by apply keeps_entries_action_fixup in H2.
Qed.

End Kept.

Lemma convert_fails_keeps : keeps_kinds Examples.convert_fails.
Proof. intros cmd w. apply keeps_entries_refl. Qed.

Lemma fixup_keeps_entries_witness :
  keeps_kinds Examples.convert_fails
  ∧ ∃ g w',
      Application_action_fixup Examples.convert_fails Examples.git_quiet
        (mkPath true ["arch"]) ["web"] DummyGit Examples.moved = Ok g w'
      ∧ keeps_entries Examples.moved w'.
Proof.
  split; [exact convert_fails_keeps|].
  destruct (Application_action_fixup Examples.convert_fails Examples.git_quiet
              (mkPath true ["arch"]) ["web"] DummyGit Examples.moved)
    as [g w'|e w'] eqn:E.
  - exists g, w'. split; [reflexivity|].
    apply (fixup_keeps_entries Examples.convert_fails Examples.git_quiet
             convert_fails_keeps (mkPath true ["arch"]) ["web"] DummyGit g
             Examples.moved w' E).
  - exfalso.
    assert (H : is_Ok (Application_action_fixup Examples.convert_fails
                         Examples.git_quiet (mkPath true ["arch"]) ["web"]
                         DummyGit Examples.moved) = true)
      by (vm_compute; reflexivity).
    rewrite E in H. discriminate H.
Defined.

(** ** The views [missing_large] and [missing_small] *)

Lemma missing_large_spec (srcs : list SourceImage) (w : World) :
  (∀ s, s ∈ srcs → ∃ large, Source.large w s = inr large) →
  ∃ ls, missing_large (mkDirectory (mkPath false []) [] srcs) w = inr ls
        ∧ ∀ p, p ∈ ls ↔ ∃ s, s ∈ srcs ∧ Source.large w s = inr p
                             ∧ Fs.exists_ w p = false.
Proof.
  unfold missing_large. cbn [sources].
  induction srcs as [|s srcs IH]; intros Hl.
  - exists []. split; [done|]. intros p. split; [by mem|].
    intros (s & Hs & _). revert Hs. by mem.
  - destruct IH as (ls & Hls & Hmem); [intros s' Hs'; apply Hl; by right|].
    destruct (Hl s) as [large Hlarge]; [left|].
    cbn [foldr]. rewrite Hls, Hlarge.
    eexists. split; [reflexivity|]. intros p.
    destruct (Fs.exists_ w large) eqn:E.
    + rewrite Hmem. split.
      * intros (s' & Hs' & H). exists s'. split; [by right|done].
      * intros (s' & [->|Hs']%elem_of_cons & Hp & Hex); [|by eauto].
        rewrite Hlarge in Hp. injection Hp as <-. congruence.
    + rewrite elem_of_cons, Hmem. split.
      * intros [->|(s' & Hs' & H)]; [exists s; split; [left|done]|].
        exists s'. split; [by right|done].
      * intros (s' & [->|Hs']%elem_of_cons & Hp & Hex); [|by eauto].
        rewrite Hlarge in Hp. injection Hp as <-. by left.
Qed.

Lemma missing_small_spec (srcs : list SourceImage) (w : World) :
  (∀ s, s ∈ srcs → ∃ large, Source.large w s = inr large) →
  ∃ ps, missing_small (mkDirectory (mkPath false []) [] srcs) w = inr ps
        ∧ ∀ large small,
            (large, small) ∈ ps
            ↔ ∃ s, s ∈ srcs ∧ Source.large w s = inr large
                   ∧ small = Source.small s
                   ∧ Fs.exists_ w large = true ∧ Fs.exists_ w small = false.
Proof.
  unfold missing_small. cbn [sources].
  induction srcs as [|s srcs IH]; intros Hl.
  - exists []. split; [done|]. intros p q. split; [by mem|].
    intros (s & Hs & _). revert Hs. by mem.
  - destruct IH as (ps & Hps & Hmem); [intros s' Hs'; apply Hl; by right|].
    destruct (Hl s) as [large Hlarge]; [left|].
    cbn [foldr]. rewrite Hps, Hlarge. cbv zeta.
    eexists. split; [reflexivity|]. intros p q.
    destruct (Fs.exists_ w large) eqn:E1;
      [destruct (Fs.exists_ w (Source.small s)) eqn:E2|]; cbn [andb negb].
    + rewrite Hmem. split.
      * intros (s' & Hs' & H). exists s'. split; [by right|done].
      * intros (s' & [->|Hs']%elem_of_cons & Hp & -> & Hex & Hex'); [|by eauto 10].
        congruence.
    + rewrite elem_of_cons, Hmem. split.
      * intros [[= -> ->]|(s' & Hs' & H)]; [exists s; split; [left|done]|].
        exists s'. split; [by right|done].
      * intros (s' & [->|Hs']%elem_of_cons & Hp & -> & Hex & Hex'); [|by eauto 10].
        rewrite Hlarge in Hp. injection Hp as <-. by left.
    + rewrite Hmem. split.
      * intros (s' & Hs' & H). exists s'. split; [by right|done].
      * intros (s' & [->|Hs']%elem_of_cons & Hp & -> & Hex & Hex'); [|by eauto 10].
        rewrite Hlarge in Hp. injection Hp as <-. congruence.
Qed.

(** X13. When the names of the working directory are within the limits
    of the system, the views [missing_large] and [missing_small] of a
    fresh snapshot come to their end. [missing_large] lists the large image
    of exactly the sources that [action_print_missing] prints, and none
    of the images it lists exists. [missing_small] lists the pair of
    large and small image of exactly the sources for which
    [__create_missing_small_images] decides to create a preview: the
    large image is there and the small one is not. *)
Theorem views_of_snapshot (root : Path) (subs : list string) (w : World) :
  within_limits (new_Directory root subs w) w = true →
  let d := new_Directory root subs w in
  ∃ ls ps,
    missing_large d w = inr ls ∧ missing_small d w = inr ps
    ∧ (∀ p, p ∈ ls ↔ ∃ s, s ∈ sources d ∧ Source.large w s = inr p
                          ∧ Source.path s ∈ missing_of w subs root)
    ∧ (∀ p, p ∈ ls → Fs.exists_ w p = false)
    ∧ (∀ large small,
         (large, small) ∈ ps
         ↔ ∃ s, s ∈ sources d ∧ Source.large w s = inr large
                ∧ small = Source.small s ∧ Fs.exists_ w large = true
                ∧ small_image_action w large small = inr (Some CREATE)).
Proof.
  intros _ d.
  assert (Hl : ∀ s, s ∈ sources d → ∃ large, Source.large w s = inr large)
    by (intros s Hs; by apply (snapshot_large root subs w w)).
  destruct (missing_large_spec (sources d) w Hl) as (ls & Hls & Hlmem).
  destruct (missing_small_spec (sources d) w Hl) as (ps & Hps & Hpmem).
  exists ls, ps. split_and!; [done..| | |].
  - intros p. rewrite Hlmem. split.
    + intros (s & Hs & Hp & Hex). exists s. split_and!; [done..|].
      unfold missing_of. apply list_elem_of_fmap. exists s. split; [done|].
      apply list_elem_of_filter. split; [|done].
      unfold large_missing. by rewrite Hp, Hex.
    + intros (s & Hs & Hp & Hin). exists s. split_and!; [done..|].
      unfold missing_of in Hin.
      apply list_elem_of_fmap in Hin as (s' & Hpath & (Hm & Hs')%list_elem_of_filter).
      assert (s' = s) as ->.
      { apply sources_spec in Hs as (n & _ & _ & _ & Hn),
                               Hs' as (n' & _ & _ & _ & Hn').
        destruct Hn as [[-> Hn]|[-> Hn]], Hn' as [[-> Hn']|[-> Hn']];
          simpl in Hpath; rewrite <- ?Hpath in *; try done;
          revert Hn Hn'; mem; intuition congruence. }
      unfold large_missing in Hm. rewrite Hp in Hm.
      by destruct (Fs.exists_ w p).
  - intros p (s & _ & _ & Hex)%Hlmem. done.
  - intros large small. rewrite Hpmem. split.
    + intros (s & Hs & Hp & -> & Hex & Hex'). exists s. split_and!; [done..|].
      unfold small_image_action. by rewrite Hex'.
    + intros (s & Hs & Hp & -> & Hex & Ha). exists s. split_and!; [done..|].
      unfold small_image_action in Ha.
      destruct (Fs.exists_ w (Source.small s)); [|done].
      destruct (Fs.st_mtime w (Source.small s)), (Fs.st_mtime w large); try done.
      by destruct (_ <? _).
Qed.

Lemma views_of_snapshot_witness :
  let d := new_Directory Examples.workdir ["web"] Examples.repaired in
  within_limits d Examples.repaired = true
  ∧ ∃ ls ps, missing_large d Examples.repaired = inr ls
             ∧ missing_small d Examples.repaired = inr ps.
Proof.
  intros d.
  assert (H : within_limits d Examples.repaired = true)
    by (vm_compute; reflexivity).
  split; [exact H|].
  destruct (views_of_snapshot Examples.workdir ["web"] Examples.repaired H)
    as (ls & ps & Hls & Hps & _).
  exists ls, ps. split; [exact Hls|exact Hps].
Defined.

(** ** The order of the roots *)

Lemma lex_cmp_prefix {A} (cmp : A → A → comparison) (l a b : list A) :
  (∀ x, cmp x x = Eq) →
  PathOrder.lex_cmp cmp (l ++ a) (l ++ b) = PathOrder.lex_cmp cmp a b.
Proof.
  intros Hrefl. induction l as [|x l IH]; [done|]. simpl. by rewrite Hrefl.
Qed.

Lemma str_cmp_refl (s : string) : PathOrder.str_cmp s s = Eq.
Proof. by apply str_cmp_eq. Qed.

Lemma cparts_joinpath (p : Path) (n : string) :
  PathOrder.cparts (p // n) = PathOrder.cparts p ++ [n].
Proof. unfold PathOrder.cparts. simpl. by rewrite app_assoc. Qed.

Lemma path_cmp_siblings (dir : Path) (n1 n2 : string) :
  PathOrder.path_cmp (dir // n1) (dir // n2) = PathOrder.str_cmp n1 n2.
Proof.
  unfold PathOrder.path_cmp. rewrite !cparts_joinpath.
  rewrite lex_cmp_prefix by apply str_cmp_refl. simpl.
  by destruct (PathOrder.str_cmp n1 n2).
Qed.

Lemma path_cmp_buckets (path : Path) (m1 m2 n1 n2 : string) :
  PathOrder.str_cmp m1 m2 = Lt →
  PathOrder.path_cmp (path // m1 // n1) (path // m2 // n2) = Lt.
Proof.
  intros H. unfold PathOrder.path_cmp. rewrite !cparts_joinpath, <- !app_assoc.
  rewrite lex_cmp_prefix by apply str_cmp_refl. simpl. by rewrite H.
Qed.

Lemma months_ordered (i j : nat) (m1 m2 : string) :
  Application.months !! i = Some m1 → Application.months !! j = Some m2 →
  (i < j)%nat → PathOrder.str_cmp m1 m2 = Lt.
Proof.
  intros H1 H2 Hij.
  assert (Hall : forallb (λ i, forallb (λ j,
            if (i <? j)%nat
            then bool_decide
                   (PathOrder.str_cmp (nth i Application.months "")
                                      (nth j Application.months "") = Lt)
            else true) (seq 0 12)) (seq 0 12) = true)
    by (vm_compute; reflexivity).
  pose proof (lookup_lt_Some _ _ _ H1) as Hi.
  pose proof (lookup_lt_Some _ _ _ H2) as Hj.
  change (length Application.months) with 12%nat in Hi, Hj.
  rewrite forallb_forall in Hall. specialize (Hall i).
  rewrite in_seq in Hall. specialize (Hall ltac:(lia)).
  rewrite forallb_forall in Hall. specialize (Hall j).
  rewrite in_seq in Hall. specialize (Hall ltac:(lia)).
  apply Nat.ltb_lt in Hij. rewrite Hij in Hall.
  apply bool_decide_eq_true in Hall.
  rewrite (nth_lookup_Some _ _ _ _ H1), (nth_lookup_Some _ _ _ _ H2) in Hall.
  done.
Qed.

Lemma path_le_antisym (p q : Path) :
  is_absolute p = is_absolute q →
  PathOrder.path_le p q → PathOrder.path_le q p → p = q.
Proof.
  unfold PathOrder.path_le, PathOrder.path_cmp. intros Habs H1 H2.
  rewrite (lex_cmp_antisym _ str_cmp_antisym) in H2.
  destruct (PathOrder.lex_cmp _ (PathOrder.cparts p) (PathOrder.cparts q)) eqn:E;
    try done.
  apply (lex_cmp_eq _ str_cmp_eq) in E. unfold PathOrder.cparts in E.
  rewrite Habs in E. apply app_inv_head in E.
  destruct p, q. simpl in *. by subst.
Qed.

(** X14. The roots that discovery has found are visited in the order
    of [sorted]: each of them once, an earlier one never after a later
    one in the order of paths, and in the same order in whatever order
    the system has listed them. Under one directory that is the order
    of the names, character by character; and every root under an
    earlier month directory comes before every root under a later one,
    whatever their names, so that across month directories the order is
    by month first. *)
Theorem roots_order (rs : list Path) :
  let sorted := merge_sort PathOrder.path_le rs in
  sorted ≡ₚ rs
  ∧ (∀ i j r1 r2, sorted !! i = Some r1 → sorted !! j = Some r2 →
                  (i < j)%nat → PathOrder.path_le r1 r2)
  ∧ (∀ rs' a, rs' ≡ₚ rs → Forall (λ r, is_absolute r = a) rs →
              merge_sort PathOrder.path_le rs' = sorted)
  ∧ (∀ dir n1 n2,
       PathOrder.path_le (dir // n1) (dir // n2)
       ↔ PathOrder.str_cmp n1 n2 ≠ Gt)
  ∧ (∀ path i j m1 m2 n1 n2,
       Application.months !! i = Some m1 →
       Application.months !! j = Some m2 → (i < j)%nat →
       PathOrder.path_le (path // m1 // n1) (path // m2 // n2)
       ∧ ¬ PathOrder.path_le (path // m2 // n2) (path // m1 // n1)).
Proof.
  intros sorted. split_and!.
  - apply merge_sort_Permutation.
  - intros i j r1 r2 H1 H2 Hij.
    pose proof (StronglySorted_merge_sort PathOrder.path_le rs) as Hs.
    fold sorted in Hs. clearbody sorted. clear rs.
    revert i j H1 H2 Hij. induction Hs as [|x l Hs IH Hx]; intros i j H1 H2 Hij.
    + done.
    + destruct j as [|j]; [lia|]. destruct i as [|i].
      * injection H1 as <-. simpl in H2. rewrite Forall_forall in Hx.
        apply Hx. by apply (list_elem_of_lookup_2 _ j).
      * simpl in H1, H2. apply (IH i j); [done..|lia].
  - intros rs' a Hperm Habs.
    apply (StronglySorted_unique_strong PathOrder.path_le);
      [|apply StronglySorted_merge_sort; apply _..|].
    + intros x1 x2 H1 H2. rewrite Forall_forall in Habs.
      apply path_le_antisym.
      rewrite (Habs x1), (Habs x2); [done|..].
      * unfold sorted in H2. by rewrite merge_sort_Permutation in H2.
      * by rewrite merge_sort_Permutation, Hperm in H1.
    + unfold sorted. by rewrite !merge_sort_Permutation.
  - intros dir n1 n2. unfold PathOrder.path_le. by rewrite path_cmp_siblings.
  - intros path i j m1 m2 n1 n2 H1 H2 Hij.
    pose proof (months_ordered i j m1 m2 H1 H2 Hij) as Hlt.
    unfold PathOrder.path_le. split.
    + by rewrite (path_cmp_buckets path m1 m2 n1 n2 Hlt).
    + unfold PathOrder.path_cmp.
      rewrite (lex_cmp_antisym _ str_cmp_antisym).
      fold (PathOrder.path_cmp (path // m1 // n1) (path // m2 // n2)).
      rewrite (path_cmp_buckets path m1 m2 n1 n2 Hlt). simpl. by intros H.
Qed.

(** ** What a run asks of [git] *)

Lemma git_commands_app (evs evs' : list event) :
  git_commands (evs ++ evs') = git_commands evs ++ git_commands evs'.
Proof. apply omap_app. Qed.

Lemma git_use_refl (git : GitObj) : git_use git git [].
Proof.
  destruct git as [|[files|]]; simpl; [done| |by left].
  split; [done|]. apply not_elem_of_nil.
Qed.

Lemma git_use_trans (g0 g1 g2 : GitObj) (c1 c2 : list command) :
  git_use g0 g1 c1 → git_use g1 g2 c2 → git_use g0 g2 (c1 ++ c2).
Proof.
  destruct g0 as [|[f0|]]; simpl.
  - intros [-> ->] [-> ->]. done.
  - intros [-> H1] [-> H2]. split; [done|]. rewrite elem_of_app. tauto.
  - intros [[-> ->]|(f & adds & -> & -> & Ha)]; simpl.
    + done.
    + intros [-> H2]. right. exists f, (adds ++ c2). split_and!; [done..|].
      rewrite elem_of_app. tauto.
Qed.

Lemma git_commands_adds (paths : list Path) :
  GitLsFiles ∉ git_commands (git_add_events paths).
Proof.
  induction paths as [|p paths IH]; simpl; [apply not_elem_of_nil|].
  rewrite elem_of_cons. intros [?|?]; [done|]. by apply IH.
Qed.

Section Asked.
Variable os_system : command → World → World * Z.
Variable subprocess_run : command → World → option (list Path).

Lemma add_files_git_use (git g : GitObj) (paths : list Path) (w w' : World) :
  add_files subprocess_run git paths w = Ok g w' →
  ∃ evs, trace w' = trace w ++ evs ∧ git_use git g (git_commands evs).
Proof.
  destruct git as [|[files|]].
  - rewrite add_files_dummy. intros [= <- <-]. exists [].
    split; [by rewrite app_nil_r|done].
  - pose proof (add_files_cached subprocess_run files paths w (trace w)) as H.
    rewrite with_trace_trace in H. cbn zeta in H. intros Hr. rewrite Hr in H.
    destruct H as [-> ->]. eexists. split; [reflexivity|].
    split; [done|apply git_commands_adds].
  - rewrite add_files_listing.
    destruct (forallb _ paths).
    { intros [= <- <-]. exists []. split; [by rewrite app_nil_r|by left]. }
    destruct (subprocess_run GitLsFiles w) as [files|]; [|done].
    pose proof (add_files_cached subprocess_run files paths w
                  (trace w ++ [System GitLsFiles])) as H.
    cbn zeta in H.
    change (with_trace w (trace w ++ [System GitLsFiles]))
      with (emit (System GitLsFiles) w) in H.
    intros Hr. rewrite Hr in H. destruct H as [-> ->].
    eexists. split; [simpl; rewrite <- app_assoc; reflexivity|].
    right. eexists files, _. split; [done|]. split; [reflexivity|].
    apply git_commands_adds.
Qed.

Lemma no_git_refl (w : World) : no_git w w.
Proof. exists []. by rewrite app_nil_r. Qed.

Lemma no_git_trans (w1 w2 w3 : World) : no_git w1 w2 → no_git w2 w3 → no_git w1 w3.
Proof.
  intros (e1 & H1 & G1) (e2 & H2 & G2). exists (e1 ++ e2).
  split; [by rewrite H2, H1, app_assoc|]. by rewrite git_commands_app, G1, G2.
Qed.

Lemma no_git_same_trace (w w' : World) : trace w' = trace w → no_git w w'.
Proof. intros H. exists []. by rewrite app_nil_r. Qed.

Lemma no_git_for_each {A} (l : list A) (body : A → M unit) (w w' : World) :
  (∀ x w1 w2, x ∈ l → body x w1 = Ok () w2 → no_git w1 w2) →
  for_each l body w = Ok () w' → no_git w w'.
Proof.
  intros Hbody. apply (for_each_Ok (no_git w)); [|apply no_git_refl].
  intros x w1 w2 Hx H1 Hr. apply (no_git_trans w w1); [done|].
  by apply (Hbody x).
Qed.

Lemma create_trace (x : node) (p : Path) (w w' : World) :
  Fs.create x p w = inr w' → trace w' = trace w.
Proof. by intros (D & n & _ & _ & _ & ->)%create_inv. Qed.

Lemma replace_link_trace (p t : Path) (w w' : World) :
  replace_link p t w = Ok () w' → trace w' = trace w.
Proof. by intros (D & n & x & _ & _ & _ & _ & ->)%replace_link_Ok. Qed.

Lemma no_git_make_dir (p : Path) (w w' : World) :
  (tell (LogAddingDirectory p);; act (Fs.mkdir p)) w = Ok () w' → no_git w w'.
Proof.
  unfold mbind, M_bind, tell, act.
  destruct (Fs.mkdir p _) as [e|w1] eqn:E; [done|]. intros [= <-].
  apply create_trace in E. exists [LogAddingDirectory p]. by rewrite E.
Qed.

Lemma no_git_add_missing_subdirs (d : Directory) (w w' : World) :
  add_missing_subdirs d w = Ok () w' → no_git w w'.
Proof.
  apply no_git_for_each. intros subdir w1 w2 _.
  rewrite add_missing_subdir_cases. cbv zeta.
  destruct (Fs.exists_ w1 (rootdir d // subdir)).
  - destruct (Fs.exists_ w1 _); [intros [= <-]; apply no_git_refl|].
    intros H. exact (no_git_make_dir _ _ _ H).
  - intros ([] & w3 & H1 & H2)%bind_inv_Ok.
    pose proof (no_git_make_dir _ _ _ H1) as H1'.
    apply (no_git_trans w1 w3); [done|].
    unfold mbind at 1, M_bind at 1, gets at 1 in H2.
    destruct (Fs.exists_ w3 _); cbn [negb when] in H2.
    + injection H2 as <-. apply no_git_refl.
    + exact (no_git_make_dir _ _ _ H2).
Qed.

Lemma no_git_create_missing_small_images (d : Directory) (w w' : World) :
  create_missing_small_images os_system d w = Ok () w' → no_git w w'.
Proof.
  apply no_git_for_each. intros s w1 w2 _.
  rewrite create_missing_small_image_cases.
  destruct (Source.large w1 s) as [e|large]; [done|]. cbv zeta.
  destruct (Fs.exists_ w1 large); [|intros [= <-]; apply no_git_refl].
  destruct (small_image_action w1 large (Source.small s)) as [e|[a|]];
    [done| |intros [= <-]; apply no_git_refl].
  intros [= <-]. destruct (_ =? 0).
  - eexists [_; _]. simpl. rewrite <- app_assoc. split; [reflexivity|].
    by destruct a.
  - eexists [_; _; _]. simpl. rewrite <- !app_assoc. split; [reflexivity|].
    by destruct a.
Qed.

Lemma no_git_add_new_small_files (d : Directory) (w w' : World) :
  add_new_small_files d w = Ok () w' → no_git w w'.
Proof.
  unfold add_new_small_files. unfold mbind at 1, M_bind at 1, gets at 1.
  apply no_git_for_each. intros subdir w1 w2 _.
  unfold add_new_small_files_for. unfold mbind at 1, M_bind at 1, gets at 1.
  destruct (new_small_images_for _ _ _ _) as [[sd names]|];
    [|intros [= <-]; apply no_git_refl].
  apply no_git_for_each. intros n w3 w4 _.
  unfold add_new_small_file, mbind, M_bind, tell, act.
  destruct (Fs.symlink_to _ _ _) as [e|w5] eqn:E; [done|]. intros [= <-].
  apply create_trace in E. eexists [_]. by rewrite E.
Qed.

Lemma no_git_fixup_source_photos_links (d : Directory) (w w' : World) :
  fixup_source_photos_links d w = Ok () w' → no_git w w'.
Proof.
  apply no_git_for_each. intros s w1 w2 _.
  rewrite fixup_source_photos_link_cases. cbv zeta.
  destruct (Fs.readlink w1 (Source.path s)) as [e|link]; [done|].
  destruct (is_absolute link); [|intros [= <-]; apply no_git_refl].
  intros Hr%replace_link_trace. eexists [_]. by rewrite Hr.
Qed.

Lemma no_git_fixup_published_links (d : Directory) (w w' : World) :
  fixup_published_links d w = Ok () w' → no_git w w'.
Proof.
  apply no_git_for_each. intros subdir w1 w2 _.
  unfold fixup_published_links_for, mbind, M_bind, gets.
  destruct (Fs.exists_ w1 _); cbn [negb]; [|intros [= <-]; apply no_git_refl].
  apply no_git_for_each. intros p w3 w4 _.
  rewrite fixup_published_link_cases.
  destruct (Fs.readlink w3 p) as [e|link]; [done|].
  destruct (Fs.exists_ w3 _); [intros [= <-]; apply no_git_refl|].
  intros Hr%replace_link_trace. eexists [_]. by rewrite Hr.
Qed.

Lemma action_fixup_git_use (d : Directory) (git g : GitObj) (w w' : World) :
  action_fixup os_system subprocess_run d git w = Ok g w' →
  ∃ evs, trace w' = trace w ++ evs ∧ git_use git g (git_commands evs).
Proof.
  unfold action_fixup.
  intros ([] & w1 & H1 & H)%bind_inv_Ok.
  apply bind_inv_Ok in H as ([] & w2 & H2 & H).
  apply bind_inv_Ok in H as ([] & w3 & H3 & H).
  apply bind_inv_Ok in H as ([] & w4 & H4 & H).
  apply bind_inv_Ok in H as ([] & w5 & H5 & H6).
  apply no_git_add_missing_subdirs in H1.
  apply no_git_create_missing_small_images in H2.
  apply no_git_add_new_small_files in H3.
  apply no_git_fixup_source_photos_links in H4.
  apply no_git_fixup_published_links in H5.
  assert (no_git w w5) as (evs & Hevs & Hg).
  { repeat (eapply no_git_trans; [eassumption|]). apply no_git_refl. }
  unfold add_files_to_repository, mbind, M_bind, gets in H6.
  apply add_files_git_use in H6 as (evs6 & Hevs6 & Hg6).
  exists (evs ++ evs6). split; [by rewrite Hevs6, Hevs, app_assoc|].
  rewrite git_commands_app, Hg. done.
Qed.

(** X15. What [Application.action_fixup] asks of [git], over all working
    directories of a run that comes to its end. With [DummyGit] no
    [git] command is run. With a [Git] object the listing is taken at
    most once, before every [git add], and serves all working
    directories after it: a [Git] that starts without a listing either
    runs nothing or runs [git ls-files] first and never again, and a
    [Git] that has its listing keeps it and does not list again. *)
Theorem fixup_git_use (path : Path) (services : list string)
    (git g : GitObj) (w w' : World) :
  Application_action_fixup os_system subprocess_run path services git w
  = Ok g w' →
  ∃ evs, trace w' = trace w ++ evs ∧ git_use git g (git_commands evs).
Proof.
  apply (for_workdirs_Ok
           (λ g1 w1, ∃ evs, trace w1 = trace w ++ evs
                            ∧ git_use git g1 (git_commands evs))).
  - intros p g1 w1 g2 w2 (evs & Hevs & Hg) Hr.
    unfold fixup_workdir, mbind, M_bind, gets in Hr.
    apply action_fixup_git_use in Hr as (evs' & Hevs' & Hg').
    exists (evs ++ evs'). split; [by rewrite Hevs', Hevs, app_assoc|].
    rewrite git_commands_app. by apply (git_use_trans git g1 g2).
  - exists []. split; [by rewrite app_nil_r|apply git_use_refl].
Qed.

End Asked.

Lemma fixup_git_use_witness :
  ∃ g w',
    Application_action_fixup Examples.convert_fails Examples.git_quiet
      (mkPath true ["arch"]) ["web"] (Git None) Examples.moved = Ok g w'
    ∧ ∃ evs, trace w' = trace Examples.moved ++ evs
             ∧ git_use (Git None) g (git_commands evs).
Proof.
  destruct (Application_action_fixup Examples.convert_fails Examples.git_quiet
              (mkPath true ["arch"]) ["web"] (Git None) Examples.moved)
    as [g w'|e w'] eqn:E.
  - exists g, w'. split; [reflexivity|].
    apply (fixup_git_use Examples.convert_fails Examples.git_quiet
             (mkPath true ["arch"]) ["web"] (Git None) g Examples.moved w' E).
  - exfalso.
    assert (H : is_Ok (Application_action_fixup Examples.convert_fails
                         Examples.git_quiet (mkPath true ["arch"]) ["web"]
                         (Git None) Examples.moved) = true)
      by (vm_compute; reflexivity).
    rewrite E in H. discriminate H.
Defined.

(** ** The names taken for dates *)

Lemma date_name_length (s : string) :
  Application.date_name s = true → String.length s = 10%nat.
Proof.
  unfold Application.date_name.
  do 11 (destruct s as [|? s]; [by simpl|]). by simpl.
Qed.

Lemma length_append (s t : string) :
  String.length (s +:+ t) = (String.length s + String.length t)%nat.
Proof.
  induction s as [|a s IH]; [done|].
  change (String a s +:+ t) with (String a (s +:+ t)). simpl. by rewrite IH.
Qed.

(** X16. The pattern by which [all_workdirs] picks the roots takes a
    name exactly when it is four digits, a hyphen, two digits, a hyphen
    and two digits, or that followed by one newline, which [$] lets
    pass: ten or eleven characters. The digits are not read as a date:
    any month and day will do. *)
Theorem date_pattern (s : string) :
  (Application.date_match s = true
   ↔ Application.date_name s = true
     ∨ ∃ s0, Application.date_name s0 = true ∧ s = s0 +:+ Application.newline)
  ∧ (Application.date_match s = true →
     String.length s = 10%nat ∨ String.length s = 11%nat)
  ∧ (∀ y1 y2 y3 y4 m1 m2 d1 d2,
       Forall (λ c, Str.is_digit c = true) [y1; y2; y3; y4; m1; m2; d1; d2] →
       Application.date_match
         (string_of_list_ascii
            [y1; y2; y3; y4; "-"%char; m1; m2; "-"%char; d1; d2]) = true).
Proof.
  split_and!.
  - apply date_match_spec.
  - intros [H|(s0 & H & ->)]%date_match_spec.
    + left. by apply date_name_length.
    + right. rewrite length_append, (date_name_length _ H). done.
  - intros y1 y2 y3 y4 m1 m2 d1 d2 H.
    repeat (apply Forall_cons in H as [? H]).
    apply date_name_match. unfold Application.date_name. simpl.
    repeat match goal with H : Str.is_digit _ = true |- _ => rewrite H; clear H end.
    done.
Qed.

(** ** Where the links that are made lead *)

Lemma MAXSYMLINKS_pos : ∃ b, Fs.MAXSYMLINKS = Datatypes.S b.
Proof. exists 39%nat. exact eq_refl. Qed.

(** Resolution goes through a real prefix component by component. *)
Lemma walk_real_prefix (m : gmap loc node) (b : nat) (cur : loc)
    (ps rest : list string) :
  Fs.real_from m cur ps = true →
  Fs.walk b m cur (ps ++ rest) = Fs.walk b m (cur ++ ps) rest.
Proof.
  revert cur. induction ps as [|p ps IH]; intros cur; simpl.
  - by rewrite app_nil_r.
  - intros H. apply andb_prop in H as [H Hrest]. apply andb_prop in H as [Hsp Hdir].
    unfold Fs.special in Hsp. apply negb_true_iff, bool_decide_eq_false in Hsp.
    destruct (m !! (cur ++ [p])) as [[]|] eqn:E; try done.
    specialize (IH _ Hrest). rewrite <- app_assoc in IH. simpl in IH.
    destruct b; simpl;
      (destruct (decide (p = "..")); [tauto|]);
      (destruct (decide (p = ".")); [tauto|]); by rewrite E.
Qed.

(** A link [../n] or [../../n] in a real directory leads to the entry
    [n] one or two levels up, when that is a regular file. *)
Lemma walk_up_link (m : gmap loc node) (b : nat) (D : loc) (n n' : string)
    (ups : list string) (t : Z) :
  Fs.special n = false → Fs.special n' = false →
  Forall (λ u, u = "..") ups →
  m !! (D ++ [n]) = Some (Symlink (mkPath false (ups ++ [n']))) →
  m !! (Nat.iter (length ups) (@removelast string) D ++ [n']) = Some (File t) →
  Fs.walk (Datatypes.S b) m D [n]
  = Some (Nat.iter (length ups) (@removelast string) D ++ [n']).
Proof.
  intros Hs Hs' Hups Hl Hf.
  unfold Fs.special in Hs, Hs'. apply bool_decide_eq_false in Hs, Hs'.
  assert (Hgo : ∀ cur, m !! (Nat.iter (length ups) (@removelast string) cur ++ [n']) = Some (File t) →
            Fs.walk b m cur (ups ++ [n'])
            = Some (Nat.iter (length ups) (@removelast string) cur ++ [n'])).
  { clear Hl Hf. induction Hups as [|u ups -> Hups IH]; intros cur Hf.
    - simpl in *. destruct b; simpl;
        (destruct (decide (n' = "..")); [tauto|]);
        (destruct (decide (n' = ".")); [tauto|]); by rewrite Hf.
    - cbn [length app] in *. rewrite Nat.iter_succ_r in Hf |- *.
      specialize (IH _ Hf). destruct b; simpl in *; exact IH. }
  simpl.
  destruct (decide (n = "..")); [tauto|].
  destruct (decide (n = ".")); [tauto|].
  rewrite Hl. cbn [is_absolute parts]. rewrite app_nil_r. by apply Hgo.
Qed.

Lemma real_joinpath (w : World) (p : Path) (n : string) :
  Fs.real w (p // n) = true →
  Fs.real w p = true ∧ Fs.special n = false
  ∧ ∃ t, nodes w !! (Fs.start w p ++ parts p ++ [n]) = Some (Dir t).
Proof.
  unfold Fs.real. change (Fs.start w (p // n)) with (Fs.start w p).
  cbn [parts PurePath.joinpath]. intros [Hs H]%andb_prop. rewrite Hs.
  generalize dependent (Fs.start w p). intros cur _.
  induction (parts p) as [|q ps IH] in cur |- *; simpl.
  - intros [[Hsp Hd]%andb_prop _]%andb_prop.
    apply negb_true_iff in Hsp.
    destruct (nodes w !! (cur ++ [n])) as [[]|]; try done. eauto.
  - intros [[Hsp Hd]%andb_prop Hrest]%andb_prop. rewrite Hsp, Hd.
    destruct (IH _ Hrest) as (Hr & Hn & t & Ht). simpl in Hr. rewrite Hr.
    split; [done|]. split; [done|].
    exists t. by rewrite <- app_assoc in Ht.
Qed.

Lemma link_leads_up (w : World) (dir : Path) (n n' : string)
    (ups : list string) (t : Z) :
  Fs.real w dir = true → Fs.special n = false → Fs.special n' = false →
  Forall (λ u, u = "..") ups →
  nodes w !! (Fs.start w dir ++ parts dir ++ [n])
  = Some (Symlink (mkPath false (ups ++ [n']))) →
  nodes w !! (Nat.iter (length ups) (@removelast string)
                (Fs.start w dir ++ parts dir) ++ [n']) = Some (File t) →
  Fs.stat w (dir // n) = Some (File t).
Proof.
  intros Hreal Hs Hs' Hups Hl Hf. unfold Fs.stat, Fs.resolve.
  change (Fs.start w (dir // n)) with (Fs.start w dir).
  cbn [parts PurePath.joinpath].
  apply andb_prop in Hreal as [_ Hreal].
  rewrite (walk_real_prefix _ _ _ _ _ Hreal).
  destruct MAXSYMLINKS_pos as [b ->].
  rewrite app_assoc in Hl.
  rewrite (walk_up_link _ b _ n n' ups t Hs Hs' Hups Hl Hf).
  cbn [mbind option_bind]. rewrite <- Hf. unfold Fs.node_at.
  by destruct (Nat.iter _ _ _).
Qed.

Lemma entry_real (w : World) (p : Path) (n : string) (x : node) :
  Fs.real w p = true → Fs.entry w (p // n) = Some x →
  Fs.special n = false ∧ nodes w !! (Fs.start w p ++ parts p ++ [n]) = Some x.
Proof.
  intros Hreal. unfold Fs.entry. rewrite (locate_real _ _ _ Hreal).
  destruct (Fs.special n); [done|]. by rewrite app_assoc.
Qed.

(** X17. A link that [Directory.__add_new_small_files] hands to a
    service whose directory is a real directory inside the working
    directory leads to the preview: it reads [../<name>], and followed
    it arrives at the regular file of that name in the working
    directory. *)
Theorem handed_link_leads (root : Path) (subdir n : string) (t : Z)
    (w w' : World) :
  Fs.real w (root // subdir) = true →
  Fs.entry w (root // n) = Some (File t) →
  add_new_small_file (root // subdir) n w = Ok () w' →
  Fs.readlink w' (root // subdir // n) = inr (PurePath.dotdot // n)
  ∧ Fs.stat w' (root // subdir // n) = Some (File t).
Proof.
  intros Hsd Hprev Hrun.
  destruct (real_joinpath _ _ _ Hsd) as (Hroot & Hsub & t0 & Hdir).
  destruct (entry_real _ _ _ _ Hroot Hprev) as [Hn Hfile].
  unfold add_new_small_file, mbind, M_bind, tell, act in Hrun.
  destruct (Fs.symlink_to _ _ _) as [e|w1] eqn:E; [done|]. injection Hrun as <-.
  apply create_inv in E as (D & n0 & Hloc & _ & Hfree & ->).
  set (w0 := emit (LogAddingLink n (PurePath.name (root // subdir))) w) in *.
  rewrite (locate_real w0 (root // subdir) n Hsd) in Hloc.
  injection Hloc as <- <-.
  set (w1 := set_nodes w0 _).
  assert (Hk : keeps_dirs w w1).
  { split; [done|]. intros l t1 Hl. exists t1. simpl.
    rewrite lookup_insert_ne; [done|]. intros <-. simpl in Hfree. congruence. }
  pose proof (real_keep _ _ _ Hk Hsd) as Hsd1.
  assert (Hlink : nodes w1 !! (Fs.start w1 (root // subdir)
                               ++ parts (root // subdir) ++ [n])
                  = Some (Symlink (mkPath false ([".."] ++ [n])))).
  { simpl. rewrite app_assoc. apply lookup_insert_eq. }
  split.
  - apply readlink_locate. eexists _, n.
    split; [by apply locate_real|]. split; [done|].
    rewrite <- app_assoc. exact Hlink.
  - apply (link_leads_up w1 (root // subdir) n n [".."] t Hsd1 Hn Hn);
      [by repeat constructor|exact Hlink|].
    simpl. rewrite lookup_insert_ne.
    + change (Fs.start w1 (root // subdir)) with (Fs.start w root).
      rewrite (app_assoc _ _ [subdir]), removelast_last, <- app_assoc.
      exact Hfile.
    + change (Fs.start w1 (root // subdir)) with (Fs.start w root).
      change (Fs.start w0 (root // subdir)) with (Fs.start w root).
      rewrite (app_assoc _ _ [subdir]), removelast_last.
      intros Heq%(f_equal length). rewrite !length_app in Heq. simpl in Heq. lia.
Qed.

Lemma handed_link_leads_witness :
  Fs.real Examples.stale_preview (Examples.workdir // "web") = true
  ∧ Fs.entry Examples.stale_preview (Examples.workdir // "a_small_small.jpg")
    = Some (File 5)
  ∧ ∃ w',
      add_new_small_file (Examples.workdir // "web") "a_small_small.jpg"
        Examples.stale_preview = Ok () w'
      ∧ Fs.stat w' (Examples.workdir // "web" // "a_small_small.jpg")
        = Some (File 5).
Proof.
  assert (H1 : Fs.real Examples.stale_preview (Examples.workdir // "web") = true)
    by (vm_compute; reflexivity).
  assert (H2 : Fs.entry Examples.stale_preview
                 (Examples.workdir // "a_small_small.jpg") = Some (File 5))
    by (vm_compute; reflexivity).
  split; [exact H1|]. split; [exact H2|].
  destruct (add_new_small_file (Examples.workdir // "web") "a_small_small.jpg"
              Examples.stale_preview) as [[] w'|e w'] eqn:E.
  - exists w'. split; [reflexivity|].
    apply (handed_link_leads Examples.workdir "web" "a_small_small.jpg" 5
             Examples.stale_preview w' H1 H2 E).
  - exfalso.
    assert (H : is_Ok (add_new_small_file (Examples.workdir // "web")
                         "a_small_small.jpg" Examples.stale_preview) = true)
      by (vm_compute; reflexivity).
    rewrite E in H. discriminate H.
Defined.

(** A link replaced in a real directory by a relative one that climbs
    to a regular file of its own name leads to that file. *)
Lemma replaced_link_leads (dir : Path) (n : string) (ups : list string)
    (old : Path) (t : Z) (w : World) :
  Fs.real w dir = true → Forall (λ u, u = "..") ups →
  Fs.readlink w (dir // n) = inr old →
  nodes w !! (Nat.iter (length ups) (@removelast string)
                (Fs.start w dir ++ parts dir) ++ [n]) = Some (File t) →
  ∃ w', replace_link (dir // n) (mkPath false (ups ++ [n])) w = Ok () w'
        ∧ Fs.readlink w' (dir // n) = inr (mkPath false (ups ++ [n]))
        ∧ Fs.stat w' (dir // n) = Some (File t).
Proof.
  intros Hreal Hups (D & n0 & Hloc & Hs & Hn)%readlink_locate Hf.
  rewrite (locate_real _ _ _ Hreal) in Hloc. injection Hloc as <- <-.
  eexists. split.
  { apply (replace_link_real w _ _ old (Fs.start w dir ++ parts dir) n);
      [|by apply locate_real|done..].
    by rewrite parent_joinpath. }
  set (w' := set_nodes w _).
  assert (Hk : keeps_dirs w w').
  { split; [done|]. intros l t1 Hl. exists t1. simpl.
    rewrite lookup_insert_ne; [done|]. intros <-. congruence. }
  pose proof (real_keep _ _ _ Hk Hreal) as Hreal'.
  assert (Hlink : nodes w' !! (Fs.start w' dir ++ parts dir ++ [n])
                  = Some (Symlink (mkPath false (ups ++ [n])))).
  { simpl. rewrite app_assoc. apply lookup_insert_eq. }
  split.
  - apply readlink_locate. eexists _, n.
    split; [by apply locate_real|]. split; [done|].
    rewrite <- app_assoc. exact Hlink.
  - apply (link_leads_up w' dir n n ups t Hreal' Hs Hs Hups Hlink).
    change (Fs.start w' dir) with (Fs.start w dir).
    simpl. rewrite lookup_insert_ne; [exact Hf|].
    intros Heq. rewrite <- Heq in Hf. congruence.
Qed.

(** X18. A source link with an absolute target, in a working directory
    that is a real directory, is replaced by
    [Directory.__fixup_source_photos_links] with [../<name>]; when the
    directory above the working directory holds a regular file of that
    name, the repaired link leads to it. *)
Theorem repaired_link_leads (updir : Path) (wd name : string)
    (s : SourceImage) (link : Path) (t : Z) (w : World) :
  Fs.real w (updir // wd) = true →
  Source.path s = updir // wd // name →
  Fs.readlink w (Source.path s) = inr link → is_absolute link = true →
  Fs.entry w (updir // name) = Some (File t) →
  ∃ w', fixup_source_photos_link s w = Ok () w'
        ∧ Fs.readlink w' (Source.path s) = inr (PurePath.dotdot // name)
        ∧ Fs.stat w' (Source.path s) = Some (File t).
Proof.
  intros Hwd Hp Hl Habs Hfile.
  destruct (real_joinpath _ _ _ Hwd) as (Hup & _ & _).
  destruct (entry_real _ _ _ _ Hup Hfile) as [Hn Hnode].
  rewrite fixup_source_photos_link_cases. cbv zeta. rewrite Hl, Habs, Hp.
  rewrite name_joinpath. rewrite Hp in Hl.
  apply (replaced_link_leads (updir // wd) name [".."] link t
           (emit (LogReplacingLink (updir // wd // name) link
                    (PurePath.dotdot // name)) w));
    [done|by repeat constructor|done|].
  simpl. change (Fs.start _ (updir // wd)) with (Fs.start w updir).
  by rewrite (app_assoc _ _ [wd]), removelast_last, <- app_assoc.
Qed.

(** X19. A published link whose target does not exist, in a
    [published] directory that is a real directory two levels below
    the working directory, is replaced by
    [Directory.__fixup_published_links] with [../../<name>]; when the
    working directory holds a regular file of that name, the repaired
    link leads to it. *)
Theorem published_link_leads (root : Path) (subdir n : string) (link : Path)
    (t : Z) (w : World) :
  let p := root // subdir // "published" // n in
  Fs.real w (root // subdir // "published") = true →
  Fs.readlink w p = inr link →
  Fs.exists_ w (PurePath.join (PurePath.parent p) link) = false →
  Fs.entry w (root // n) = Some (File t) →
  ∃ w', fixup_published_link p w = Ok () w'
        ∧ Fs.readlink w' p = inr (PurePath.dotdot // ".." // n)
        ∧ Fs.stat w' p = Some (File t).
Proof.
  intros p Hpub Hl Hex Hfile.
  destruct (real_joinpath _ _ _ Hpub) as (Hsd & _ & _).
  destruct (real_joinpath _ _ _ Hsd) as (Hroot & _ & _).
  destruct (entry_real _ _ _ _ Hroot Hfile) as [Hn Hnode].
  rewrite fixup_published_link_cases. rewrite Hl, Hex. cbv zeta.
  unfold p. rewrite name_joinpath.
  apply (replaced_link_leads (root // subdir // "published") n [".."; ".."]
           link t
           (emit (LogReplacingLink p link (PurePath.dotdot // ".." // n)) w));
    [done|by repeat constructor|done|].
  simpl. change (Fs.start _ (root // subdir // "published")) with (Fs.start w root).
  rewrite (app_assoc _ _ ["published"]), removelast_last.
  by rewrite (app_assoc _ _ [subdir]), removelast_last, <- app_assoc.
Qed.

Lemma repaired_link_leads_witness :
  ∃ w',
    fixup_source_photos_link
      (JpegSourceImage (Examples.workdir // "DSC_0002.JPG")) Examples.moved
    = Ok () w'
    ∧ Fs.stat w' (Examples.workdir // "DSC_0002.JPG") = Some (File 2).
Proof.
  destruct (repaired_link_leads (mkPath true Examples.date_dir) "publish"
              "DSC_0002.JPG"
              (JpegSourceImage (Examples.workdir // "DSC_0002.JPG"))
              (mkPath true ["mnt"; "old"; "2022-01-01"; "DSC_0002.JPG"]) 2
              Examples.moved)
    as (w' & H1 & _ & H3); [vm_compute; reflexivity..|].
  exists w'. split; [exact H1|exact H3].
Defined.

Lemma published_link_leads_witness :
  ∃ w',
    fixup_published_link
      (Examples.workdir // "web" // "published" // "DSC_0002_small.jpg")
      Examples.stale_published
    = Ok () w'
    ∧ Fs.stat w'
        (Examples.workdir // "web" // "published" // "DSC_0002_small.jpg")
      = Some (File 20).
Proof.
  destruct (published_link_leads Examples.workdir "web" "DSC_0002_small.jpg"
              (mkPath true ["mnt"; "old"; "2022-01-01"; "publish";
                            "DSC_0002_small.jpg"]) 20
              Examples.stale_published)
    as (w' & H1 & _ & H3); [vm_compute; reflexivity..|].
  exists w'. split; [exact H1|exact H3].
Defined.

(** ** The backup of the source links *)

Lemma real_joinpath_intro (w : World) (p : Path) (n : string) (t : Z) :
  Fs.real w p = true → Fs.special n = false →
  nodes w !! (Fs.start w p ++ parts p ++ [n]) = Some (Dir t) →
  Fs.real w (p // n) = true.
Proof.
  unfold Fs.real. change (Fs.start w (p // n)) with (Fs.start w p).
  cbn [parts PurePath.joinpath]. intros [Hs H]%andb_prop Hn. rewrite Hs.
  generalize dependent (Fs.start w p). intros cur _.
  induction (parts p) as [|q ps IH] in cur |- *; simpl.
  - intros _ Hd. by rewrite Hn, Hd.
  - intros [[Hsp Hd]%andb_prop Hrest]%andb_prop Ht. rewrite Hsp, Hd. simpl.
    apply (IH _ Hrest). by rewrite <- app_assoc.
Qed.

(** Under a real directory a name that is no entry leads nowhere. *)
Lemma exists_absent (w : World) (p : Path) (n : string) :
  Fs.real w p = true → Fs.special n = false →
  nodes w !! (Fs.start w p ++ parts p ++ [n]) = None →
  Fs.exists_ w (p // n) = false.
Proof.
  intros Hreal Hs Hn. unfold Fs.exists_, Fs.stat, Fs.resolve.
  change (Fs.start w (p // n)) with (Fs.start w p).
  cbn [parts PurePath.joinpath].
  apply andb_prop in Hreal as [_ Hreal].
  rewrite (walk_real_prefix _ _ _ _ _ Hreal).
  unfold Fs.special in Hs. apply bool_decide_eq_false in Hs.
  rewrite app_assoc in Hn.
  destruct MAXSYMLINKS_pos as [b ->]. simpl.
  destruct (decide (n = "..")); [tauto|].
  destruct (decide (n = ".")); [tauto|]. by rewrite Hn.
Qed.

Lemma link_to_real (w : World) (dir bak : Path) (n : string) (x : node) :
  Fs.real w dir = true → Fs.real w bak = true → Fs.special n = false →
  nodes w !! (Fs.start w dir ++ parts dir ++ [n]) = Some x →
  (∀ t, x ≠ Dir t) →
  nodes w !! (Fs.start w bak ++ parts bak ++ [n]) = None →
  link_to (dir // n) (bak // n) w
  = inr (set_nodes w (<[Fs.start w bak ++ parts bak ++ [n] := x]> (nodes w))).
Proof.
  intros Hdir Hbak Hs Hx Hnd Hfree. unfold link_to, link_source.
  rewrite (locate_real _ _ _ Hdir), (locate_real _ _ _ Hbak), Hs.
  rewrite <- !app_assoc, Hx, Hfree.
  destruct x; [done|by destruct (Hnd mtime)|done].
Qed.

Lemma backup_run (root : Path) (srcs : list SourceImage) (w : World) :
  let bak := root // ".backup" in
  let D := Fs.start w root ++ parts root in
  Fs.real w bak = true →
  NoDup (Source.path <$> srcs) →
  (∀ s, s ∈ srcs →
     ∃ n t, Source.path s = root // n ∧ Fs.special n = false
            ∧ nodes w !! (D ++ [n]) = Some (Symlink t)
            ∧ nodes w !! (D ++ [".backup"; n]) = None) →
  ∃ w', for_each srcs (backup_source_photo bak) w = Ok () w'
        ∧ cwd w' = cwd w ∧ nodes w ⊆ nodes w'
        ∧ (∀ s, s ∈ srcs →
             nodes w' !! (D ++ [".backup"; PurePath.name (Source.path s)])
             = nodes w !! (D ++ [PurePath.name (Source.path s)]))
        ∧ (∀ l, nodes w !! l = None → is_Some (nodes w' !! l) →
                ∃ s, s ∈ srcs
                     ∧ l = D ++ [".backup"; PurePath.name (Source.path s)]).
Proof.
  intros bak D. subst D. revert w.
  induction srcs as [|s srcs IH]; intros w Hbak Hnd Hsrc.
  - exists w. split_and!; [done..| |].
    + intros s. by mem.
    + intros l Hl [x Hx]. congruence.
  - rewrite fmap_cons in Hnd. apply NoDup_cons in Hnd as [Hnotin Hnd].
    destruct (Hsrc s) as (n & t & Hp & Hsp & Hn & Hfree); [left|].
    destruct (real_joinpath _ _ _ Hbak) as (Hroot & _ & tb & Hdirb).
    set (D := Fs.start w root ++ parts root) in *.
    set (w0 := emit (LogAddingHardlink (root // n) (bak // n)) w).
    set (w1 := set_nodes w0 (<[D ++ [".backup"; n] := Symlink t]> (nodes w))).
    assert (Hkey : Fs.start w bak ++ parts bak ++ [n] = D ++ [".backup"; n]).
    { unfold bak, D. change (Fs.start w (root // ".backup")) with (Fs.start w root).
      cbn [parts PurePath.joinpath]. by rewrite <- !app_assoc. }
    assert (Hstep : backup_source_photo bak s w = Ok () w1).
    { unfold backup_source_photo, mbind, M_bind, gets, tell, act.
      rewrite Hp, name_joinpath.
      rewrite (exists_absent w bak n Hbak Hsp) by (by rewrite Hkey).
      fold w0.
      rewrite (link_to_real w0 root bak n (Symlink t)); try done.
      - unfold w1. do 3 f_equal. exact Hkey.
      - by rewrite app_assoc.
      - change (Fs.start w0 bak) with (Fs.start w bak). by rewrite Hkey. }
    assert (Hk : keeps_dirs w w1).
    { split; [done|]. intros l t' Hl. exists t'. simpl.
      rewrite lookup_insert_ne; [done|]. intros <-. congruence. }
    assert (Hsub : nodes w ⊆ nodes w1) by (by apply insert_subseteq).
    destruct (IH w1) as (w' & Hrun & Hcwd & Hsub' & Hlinks & Hnew).
    { by apply (real_keep w). }
    { done. }
    { intros s' Hs'. destruct (Hsrc s') as (n' & t' & Hp' & Hsp' & Hn' & Hfree');
        [by right|].
      exists n', t'. change (Fs.start w1 root) with (Fs.start w root). fold D.
      split_and!; [done..| |].
      - by apply (lookup_weaken _ _ _ _ Hn' Hsub).
      - simpl. rewrite lookup_insert_ne; [done|].
        intros Heq%app_inv_head. injection Heq as ->.
        apply Hnotin. apply list_elem_of_fmap. exists s'.
        split; [congruence|done]. }
    change (Fs.start w1 root) with (Fs.start w root) in Hlinks, Hnew. fold D in Hlinks, Hnew.
    exists w'. split_and!.
    + cbn [for_each]. by rewrite (bind_Ok _ _ _ _ _ Hstep).
    + by rewrite Hcwd.
    + by etrans.
    + intros s'. mem. intros [->|Hs'].
      * rewrite Hp, name_joinpath, Hn.
        apply (lookup_weaken _ _ _ _ (lookup_insert_eq _ _ _) Hsub').
      * rewrite (Hlinks s' Hs'). simpl.
        destruct (Hsrc s') as (n' & t' & Hp' & _ & Hn' & _); [by right|].
        rewrite Hp', name_joinpath, Hn'.
        by apply (lookup_weaken _ _ _ _ Hn' Hsub).
    + intros l Hl Hl'. destruct (nodes w1 !! l) as [x|] eqn:E.
      * simpl in E. destruct (decide (l = D ++ [".backup"; n])) as [->|Hne].
        -- exists s. split; [left|]. by rewrite Hp, name_joinpath.
        -- rewrite lookup_insert_ne in E by done. congruence.
      * destruct (Hnew l E Hl') as (s' & Hs' & ->). exists s'. split; [by right|done].
Qed.

Lemma well_formed_parent (w : World) (l : loc) (n : string) (x : node) :
  well_formed w = true → nodes w !! (l ++ [n]) = Some x →
  l = [] ∨ ∃ t, nodes w !! l = Some (Dir t).
Proof.
  unfold well_formed. rewrite forallb_forall. intros Hwf Hx.
  specialize (Hwf (l ++ [n], x)).
  rewrite <- list_elem_of_In, elem_of_map_to_list in Hwf.
  specialize (Hwf Hx). cbn [fst] in Hwf. rewrite removelast_last in Hwf.
  destruct (l ++ [n]) eqn:E; [by destruct l|].
  destruct l as [|a l]; [by left|]. right.
  destruct (nodes w !! (a :: l)) as [[]|]; try done. eauto.
Qed.

Lemma special_backup : Fs.special ".backup" = false.
Proof. apply bool_decide_eq_false. by intros [?|?]. Qed.

(** X20. [Directory.action_backup_source_photos] on a fresh snapshot of
    a working directory that is a real directory and has no [.backup]
    yet, in a tree where every entry lies in a directory: the action
    comes to its end, makes the directory [.backup] and in it, under
    the name of each source, a link with the target of the source link,
    and changes nothing else. *)
Theorem backup_made (root : Path) (subs : list string) (w : World) :
  well_formed w = true → Fs.real w root = true →
  Fs.entry w (root // ".backup") = None →
  let d := new_Directory root subs w in
  let B := Fs.start w root ++ parts root ++ [".backup"] in
  ∃ w', action_backup_source_photos d w = Ok () w'
        ∧ nodes w ⊆ nodes w'
        ∧ Fs.is_dir w' (root // ".backup") = true
        ∧ (∀ s, s ∈ sources d →
             ∃ t, Fs.readlink w (Source.path s) = inr t
                  ∧ Fs.readlink w'
                      (root // ".backup" // PurePath.name (Source.path s))
                    = inr t)
        ∧ (∀ l, nodes w !! l = None → is_Some (nodes w' !! l) →
                l = B ∨ ∃ s, s ∈ sources d
                             ∧ l = B ++ [PurePath.name (Source.path s)]).
Proof.
  intros Hwf Hreal Hentry d B.
  set (D := Fs.start w root ++ parts root).
  set (bak := root // ".backup").
  assert (HB : B = D ++ [".backup"]) by (unfold B, D; by rewrite app_assoc).
  assert (Hfree : nodes w !! (D ++ [".backup"]) = None).
  { unfold Fs.entry in Hentry. rewrite (locate_real _ _ _ Hreal) in Hentry.
    by rewrite special_backup in Hentry. }
  set (w0 := emit (LogAddingDirectory bak) w).
  set (w1 := set_nodes w0 (<[D ++ [".backup"] := Dir (clock w0)]> (nodes w0))).
  assert (Hex : Fs.exists_ w bak = false).
  { apply (exists_absent w root ".backup" Hreal special_backup).
    by rewrite app_assoc. }
  assert (Hmk : (tell (LogAddingDirectory bak);; act (Fs.mkdir bak)) w
                = Ok () w1).
  { unfold mbind, M_bind, tell, act, Fs.mkdir. fold w0.
    by rewrite (create_new w0 bak D ".backup");
      [|by apply (locate_real w0)|apply special_backup|]. }
  assert (Hsub1 : nodes w ⊆ nodes w1) by (by apply insert_subseteq).
  assert (Hk1 : keeps_dirs w w1).
  { split; [done|]. intros l t Hl. exists t.
    by apply (lookup_weaken _ _ _ _ Hl Hsub1). }
  assert (Hbak1 : Fs.real w1 bak = true).
  { apply (real_joinpath_intro w1 root ".backup" (clock w0));
      [by apply (real_keep w)|apply special_backup|].
    simpl. rewrite app_assoc. apply lookup_insert_eq. }
  destruct (backup_run root (sources d) w1 Hbak1)
    as (w' & Hrun & Hcwd & Hsub' & Hlinks & Hnew).
  { apply NoDup_scan, NoDup_glob. }
  { intros s Hs.
    destruct (sources_links w root subs s Hreal Hs) as (n & t & Hp & Hsp & Hn).
    exists n, t. change (Fs.start w1 root) with (Fs.start w root). fold D.
    rewrite app_assoc in Hn. fold D in Hn.
    split_and!; [done..| |].
    - by apply (lookup_weaken _ _ _ _ Hn Hsub1).
    - simpl. rewrite lookup_insert_ne.
      + destruct (nodes w !! (D ++ [".backup"; n])) as [x|] eqn:E; [|done].
        change (D ++ [".backup"; n]) with (D ++ [".backup"] ++ [n]) in E.
        rewrite app_assoc in E.
        destruct (well_formed_parent w _ _ _ Hwf E) as [Hnil|[t' Ht']].
        * by apply app_eq_nil in Hnil as [_ ?].
        * congruence.
      + intros Heq%app_inv_head. done. }
  change (Fs.start w1 root) with (Fs.start w root) in Hlinks, Hnew.
  fold D in Hlinks, Hnew.
  assert (Hk' : keeps_dirs w1 w').
  { split; [done|]. intros l t Hl. exists t.
    by apply (lookup_weaken _ _ _ _ Hl Hsub'). }
  pose proof (real_keep _ _ _ Hk' Hbak1) as Hbak'.
  exists w'. split_and!.
  - unfold action_backup_source_photos.
    change (rootdir d // ".backup") with bak. cbv zeta.
    unfold mbind at 1, M_bind at 1, gets at 1. rewrite Hex. cbn [negb when].
    by rewrite (bind_Ok _ _ _ _ _ Hmk).
  - by etrans.
  - destruct (real_resolve _ _ Hbak') as [HR [t Ht]].
    apply is_dir_node. eauto.
  - intros s Hs.
    destruct (sources_links w root subs s Hreal Hs) as (n & t & Hp & Hsp & Hn).
    rewrite app_assoc in Hn. fold D in Hn.
    exists t. split.
    + apply readlink_locate. exists D, n. rewrite Hp.
      split; [by apply locate_real|done].
    + apply readlink_locate. exists (D ++ [".backup"]), n.
      rewrite Hp, name_joinpath. split_and!; [|done|].
      * rewrite (locate_real w' bak n Hbak'). do 2 f_equal.
        unfold bak, D, Fs.start. rewrite Hcwd.
        cbn [parts PurePath.joinpath is_absolute cwd set_nodes emit w1 w0].
        by rewrite app_assoc.
      * specialize (Hlinks s Hs). rewrite Hp, name_joinpath in Hlinks.
        rewrite <- app_assoc. cbn [app]. rewrite Hlinks.
        by apply (lookup_weaken _ _ _ _ Hn Hsub1).
  - intros l Hl Hl'. rewrite HB.
    destruct (nodes w1 !! l) as [x|] eqn:E.
    + left. simpl in E. destruct (decide (l = D ++ [".backup"])) as [->|Hne]; [done|].
      rewrite lookup_insert_ne in E by done. congruence.
    + right. destruct (Hnew l E Hl') as (s & Hs & ->). exists s.
      split; [done|]. by rewrite <- app_assoc.
Qed.

Lemma backup_made_witness :
  ∃ w',
    action_backup_source_photos
      (new_Directory Examples.workdir [] Examples.moved) Examples.moved
    = Ok () w'
    ∧ Fs.is_dir w' (Examples.workdir // ".backup") = true.
Proof.
  destruct (backup_made Examples.workdir [] Examples.moved)
    as (w' & H1 & _ & H3 & _); [vm_compute; reflexivity..|].
  exists w'. split; [exact H1|exact H3].
Defined.

Lemma backup_source_photo_again (bak : Path) (s : SourceImage) (w : World) :
  Fs.is_symlink w (Source.path s) = true →
  is_Some (Fs.entry w (bak // PurePath.name (Source.path s))) →
  backup_source_photo bak s w
  = if Fs.exists_ w (bak // PurePath.name (Source.path s)) then Ok () w
    else Raise FileExistsError
           (emit (LogAddingHardlink (Source.path s)
                    (bak // PurePath.name (Source.path s))) w).
Proof.
  intros (D & n & t & Hloc & Hs & Hn)%is_symlink_locate [x Hx].
  unfold backup_source_photo, mbind, M_bind, gets, tell, act.
  destruct (Fs.exists_ w _); [done|].
  unfold link_to, link_source.
  change (Fs.locate (emit ?e w) ?p) with (Fs.locate w p).
  cbn [nodes emit]. rewrite Hloc, Hs, Hn.
  unfold Fs.entry in Hx.
  destruct (Fs.locate w (bak // _)) as [e|[D' n']]; [done|].
  destruct (Fs.special n'); [done|]. by rewrite Hx.
Qed.

(** X21. [Directory.action_backup_source_photos] where [.backup] is
    there and holds an entry under the name of every source: a source
    whose backup, with every link followed, exists is passed over, and
    when that holds for all of them the action does nothing. A backup
    that is there but leads nowhere, as the copy of a source link that
    leads nowhere does, is not recognised: the action tries to link
    again and ends with [FileExistsError], the tree unchanged. *)
Theorem backup_again (d : Directory) (w : World) :
  let backup := λ s, rootdir d // ".backup" // PurePath.name (Source.path s) in
  Fs.exists_ w (rootdir d // ".backup") = true →
  (∀ s, s ∈ sources d →
        Fs.is_symlink w (Source.path s) = true
        ∧ is_Some (Fs.entry w (backup s))) →
  match action_backup_source_photos d w with
  | Ok _ w' => w' = w ∧ ∀ s, s ∈ sources d → Fs.exists_ w (backup s) = true
  | Raise e w' =>
      e = FileExistsError ∧ nodes w' = nodes w
      ∧ ∃ s, s ∈ sources d ∧ Fs.exists_ w (backup s) = false
  end.
Proof.
  intros backup Hex Hsrc. unfold action_backup_source_photos. cbv zeta.
  unfold mbind at 1, M_bind at 1, gets at 1. rewrite Hex. cbn [negb when].
  unfold mbind at 1, M_bind at 1, mret at 1, M_ret at 1.
  induction (sources d) as [|s srcs IH]; cbn [for_each].
  - split; [done|]. intros s. by mem.
  - destruct (Hsrc s) as [Hl He]; [left|].
    unfold mbind, M_bind.
    rewrite (backup_source_photo_again _ s w Hl He). fold (backup s).
    destruct (Fs.exists_ w (backup s)) eqn:E.
    + assert (Hsrc' : ∀ s', s' ∈ srcs →
                Fs.is_symlink w (Source.path s') = true
                ∧ is_Some (Fs.entry w (backup s')))
        by (intros s' Hs'; apply Hsrc; by right).
      specialize (IH Hsrc').
      destruct (for_each srcs _ w) as [[] w'|e w'].
      * destruct IH as [-> IH]. split; [done|].
        intros s'. mem. intros [->|Hs']; [done|by apply IH].
      * destruct IH as (-> & Hn & s' & Hs' & Hf). split_and!; [done..|].
        exists s'. split; [by right|done].
    + split_and!; [done..|]. exists s. split; [left|done].
Qed.

Lemma backup_again_witness :
  ∃ w',
    action_backup_source_photos
      (new_Directory Examples.workdir [] Examples.backed_up) Examples.backed_up
    = Raise FileExistsError w'.
Proof.
  assert (H1 : Fs.exists_ Examples.backed_up
                 (rootdir (new_Directory Examples.workdir [] Examples.backed_up)
                  // ".backup") = true)
    by (vm_compute; reflexivity).
  assert (H2 : ∀ s,
            s ∈ sources (new_Directory Examples.workdir [] Examples.backed_up) →
            Fs.is_symlink Examples.backed_up (Source.path s) = true
            ∧ is_Some (Fs.entry Examples.backed_up
                         (rootdir (new_Directory Examples.workdir []
                                     Examples.backed_up)
                          // ".backup" // PurePath.name (Source.path s)))).
  { intros s Hs. vm_compute in Hs.
    apply elem_of_cons in Hs as [Hs|Hs].
    - rewrite Hs. split; [vm_compute; reflexivity|].
      vm_compute. eexists. reflexivity.
    - apply elem_of_nil in Hs. destruct Hs. }
  pose proof (backup_again
                (new_Directory Examples.workdir [] Examples.backed_up)
                Examples.backed_up H1 H2) as H.
  assert (Hr : is_Ok (action_backup_source_photos
                        (new_Directory Examples.workdir [] Examples.backed_up)
                        Examples.backed_up) = false)
    by (vm_compute; reflexivity).
  destruct (action_backup_source_photos _ Examples.backed_up)
    as [[] w'|e w'].
  - discriminate Hr.
  - exists w'. f_equal. exact (proj1 H).
Defined.

(** ** The backup only adds *)

Lemma only_adds_refl (w : World) : only_adds w w.
Proof. split; [done|]. congruence. Qed.

Lemma only_adds_trans (w1 w2 w3 : World) :
  only_adds w1 w2 → only_adds w2 w3 → only_adds w1 w3.
Proof.
  intros [Hs1 Hn1] [Hs2 Hn2]. split; [by etrans|].
  intros l x Hl Hx. destruct (nodes w2 !! l) as [y|] eqn:E.
  - rewrite (lookup_weaken _ _ _ _ E Hs2) in Hx. injection Hx as <-. eauto.
  - destruct (Hn2 l x E Hx) as [?|[Hnd [l0 Hl0]]]; [by left|].
    destruct (nodes w1 !! l0) as [z|] eqn:E0.
    + rewrite (lookup_weaken _ _ _ _ E0 Hs1) in Hl0. injection Hl0 as ->.
      right. eauto.
    + destruct (Hn1 l0 x E0 Hl0) as [[t ->]|?]; [by destruct (Hnd t)|by right].
Qed.

Lemma only_adds_emit (e : event) (w : World) : only_adds w (emit e w).
Proof. exact (only_adds_refl w). Qed.

Lemma link_to_inv (src dst : Path) (w w' : World) :
  link_to src dst w = inr w' →
  ∃ k l0 x, nodes w !! k = None ∧ nodes w !! l0 = Some x ∧ (∀ t, x ≠ Dir t)
            ∧ w' = set_nodes w (<[k := x]> (nodes w)).
Proof.
  unfold link_to, link_source.
  destruct (Fs.locate w src) as [[]|[D n]]; try done.
  - destruct (Fs.locate w dst) as [|[D' n']]; [done|].
    destruct (Fs.special n'); [done|]. by destruct (nodes w !! (D' ++ [n'])).
  - destruct (Fs.special n).
    { destruct (Fs.locate w dst) as [|[D' n']]; [done|].
      destruct (Fs.special n'); [done|]. by destruct (nodes w !! (D' ++ [n'])). }
    destruct (nodes w !! (D ++ [n])) as [x|] eqn:Ex; [|done].
    destruct (Fs.locate w dst) as [|[D' n']]; [by destruct x|].
    destruct (Fs.special n'); [by destruct x|].
    destruct (nodes w !! (D' ++ [n'])) eqn:E'; [by destruct x|].
    destruct x; [|done|]; intros [= <-]; eauto 10.
Qed.

Lemma only_adds_for_each {A} (l : list A) (body : A → M unit) (w : World) :
  (∀ x w1, x ∈ l → only_adds w1 (final (body x w1))) →
  only_adds w (final (for_each l body w)).
Proof.
  revert w. induction l as [|x l IH]; intros w Hbody; [apply only_adds_refl|].
  cbn [for_each]. unfold mbind, M_bind.
  assert (Hx : only_adds w (final (body x w))) by (apply Hbody; left).
  destruct (body x w) as [[] w1|e w1]; [|done].
  apply (only_adds_trans w w1); [done|]. apply IH.
  intros y w2 Hy. apply Hbody. by right.
Qed.

Lemma only_adds_backup (d : Directory) (w : World) :
  only_adds w (final (action_backup_source_photos d w)).
Proof.
  unfold action_backup_source_photos. cbv zeta.
  unfold mbind at 1, M_bind at 1, gets at 1.
  assert (Hloop : ∀ w1, only_adds w1
            (final (for_each (sources d)
                      (backup_source_photo (rootdir d // ".backup")) w1))).
  { intros w1. apply only_adds_for_each. intros s w2 _.
    unfold backup_source_photo, mbind, M_bind, gets, tell, act.
    destruct (Fs.exists_ w2 _); [apply only_adds_refl|].
    destruct (link_to _ _ _) as [e|w3] eqn:E; [apply only_adds_emit|].
    apply link_to_inv in E as (k & l0 & x & Hk & Hl0 & Hnd & ->).
    split; [by apply insert_subseteq|]. simpl in *.
    intros l y Hl.
    destruct (decide (l = k)) as [->|Hne].
    - rewrite lookup_insert_eq. intros [= <-]. right. eauto.
    - rewrite lookup_insert_ne by done. congruence. }
  destruct (Fs.exists_ w _); cbn [negb when].
  - unfold mbind, M_bind, mret, M_ret. apply Hloop.
  - unfold mbind at 1, M_bind at 1. unfold mbind at 1, M_bind at 1, tell at 1, act.
    destruct (Fs.mkdir _ _) as [e|w1] eqn:E; [apply only_adds_emit|].
    apply (only_adds_trans w w1); [|apply Hloop].
    apply create_inv in E as (D & n & _ & _ & Hfree & ->).
    split; [by apply insert_subseteq|]. simpl. intros l y Hl.
    destruct (decide (l = D ++ [n])) as [->|Hne].
    + rewrite lookup_insert_eq. intros [= <-]. left. eauto.
    + rewrite lookup_insert_ne by done. congruence.
Qed.

(** X22. [Directory.action_backup_source_photos] only adds to the tree,
    whether it comes to its end or fails on the way: every entry that
    was there is there unchanged, and what is new is a directory or a
    second entry for something that was there. The same holds for
    [Application.action_backup_source_photos] over all working
    directories when it comes to its end. *)
Theorem backup_only_adds (d : Directory) (w : World) :
  only_adds w (final (action_backup_source_photos d w))
  ∧ ∀ path services w',
      Application_action_backup_source_photos path services w = Ok () w' →
      only_adds w w'.
Proof.
  split; [apply only_adds_backup|]. intros path services w'.
  apply (for_workdirs_Ok (λ _, only_adds w)); [|apply only_adds_refl].
  intros p [] w1 [] w2 H1 H2. apply (only_adds_trans w w1); [done|].
  unfold mbind, M_bind, gets in H2.
  pose proof (only_adds_backup (new_Directory p services w1) w1) as H.
  by rewrite H2 in H.
Qed.

(** ** The command line *)

Section Dispatch.
Variable os_system : command → World → World * Z.
Variable subprocess_run : command → World → option (list Path).

(** X23. When the names of the archive are within the limits of the
    system, [Application.run] with an action other than [fixup] and
    [backup] only lists: it changes nothing in the tree, runs no
    command, leaves the [git] object as it is, and fails only when
    discovery fails. For [missing] it prints the sources without large
    image, and for every other word the links not yet published of the
    service of that name, be it configured or not; a service called
    [missing] can therefore not be listed. *)
Theorem run_lists (action : string) (path : Path) (services : list string)
    (git : GitObj) (w : World) :
  short_names w = true →
  short_path path = true →
  forallb short_name services = true →
  action ≠ "fixup" → action ≠ "backup" →
  Application_run os_system subprocess_run action path services git w
  = match Application.workdirs w path with
    | inl e => Raise e w
    | inr dirs =>
        Ok git
          (with_trace w
             (trace w
              ++ (Print <$> flat_map
                              (if decide (action = "missing")
                               then missing_of w services
                               else not_published_of w action) dirs)))
    end.
Proof.
  intros _ _ _ Hf Hb. unfold Application_run.
  rewrite (decide_False (P := action = "fixup")) by done.
  destruct (decide (action = "missing")) as [->|Hm].
  - unfold mbind at 1, M_bind at 1. unfold Application_action_print_missing.
    rewrite (print_action_all (λ w, missing_of w services)
               (λ workdir _, d ← gets (new_Directory workdir services);
                             action_print_missing d) path w)
      by (intros; apply print_missing_round).
    by destruct (Application.workdirs w path).
  - rewrite (decide_False (P := action = "backup")) by done.
    unfold mbind at 1, M_bind at 1. unfold Application_action_not_published.
    rewrite (print_action_all (λ w, not_published_of w action)
               (λ workdir _, d ← gets (new_Directory workdir services);
                             action_not_published d action) path w)
      by (intros; apply not_published_round).
    by destruct (Application.workdirs w path).
Qed.

End Dispatch.

Lemma run_lists_witness :
  trace (final (Application_run Examples.convert_fails Examples.git_quiet
                  "web" (mkPath true ["arch"]) ["web"] DummyGit
                  Examples.settled))
  = [Print (Examples.workdir // "web" // "DSC_0001_small.jpg")].
Proof.
  assert (H1 : short_names Examples.settled = true) by (vm_compute; reflexivity).
  assert (H2 : short_path (mkPath true ["arch"]) = true)
    by (vm_compute; reflexivity).
  assert (H3 : forallb short_name ["web"] = true) by (vm_compute; reflexivity).
  rewrite (run_lists Examples.convert_fails Examples.git_quiet "web"
             (mkPath true ["arch"]) ["web"] DummyGit Examples.settled
             H1 H2 H3)
    by discriminate.
  by_compute.
Defined.
